(** * Taste-profile stacks: exposure storage and stack creation

    A shallow embedding of
    - [src/app/utils/tasteProfileStorage.js] (module [Storage]): the three
      localStorage keys (seen episodes, referenced tracks, stack history) and
      the operations on them, and
    - [src/app/api/taste-profile/create-stack/route.js] (module
      [CreateStack]): the POST handler that fans out to the NTS and Spotify
      services and assembles a stack.

    JavaScript arrays are lists, strings are [string], array lengths are
    [nat].  A missing or empty string field is the empty string (both are
    falsy).  External services are the fields of a record [World]; a call
    to one of them yields a [Fetched] outcome, so that a rejected promise, a
    non-OK HTTP status and a body are told apart the way the code tells them
    apart. *)

From Stdlib Require Import DecimalString.
From stdpp Require Import base option list strings gmap sets sorting.

(** ** JavaScript array and Map primitives used by the two files *)
Module JS.

(** [Array.prototype.includes] on an array of strings. *)
Fixpoint includes (l : list string) (x : string) : bool :=
  match l with
  | [] => false
  | y :: l' => if String.eqb y x then true else includes l' x
  end.

(** [Array.prototype.find]: the first element satisfying the callback. *)
Fixpoint find {A} (p : A → bool) (l : list A) : option A :=
  match l with
  | [] => None
  | x :: l' => if p x then Some x else find p l'
  end.

(** [Array.prototype.push] of one element. *)
Definition push {A} (l : list A) (x : A) : list A := l ++ [x].

(** [Array.prototype.slice(0, n)]. *)
Definition slice0 {A} (n : nat) (l : list A) : list A := take n l.

(** [Array.prototype.join] on an array of strings. *)
Fixpoint join (sep : string) (l : list string) : string :=
  match l with
  | [] => ""
  | [x] => x
  | x :: l' => x +:+ sep +:+ join sep l'
  end.

(** A number that is an array length, converted by a template literal. *)
Definition numToString (n : nat) : string :=
  NilZero.string_of_uint (Nat.to_uint n).

(** Truthiness of a string: non-empty. *)
Definition truthy (s : string) : bool :=
  match s with EmptyString => false | _ => true end.

(** [String.prototype.toLowerCase], on the ASCII letters. *)
Definition lowerChar (c : Ascii.ascii) : Ascii.ascii :=
  let n := Ascii.nat_of_ascii c in
  if (65 <=? n)%nat && (n <=? 90)%nat then Ascii.ascii_of_nat (n + 32) else c.

Fixpoint toLowerCase (s : string) : string :=
  match s with
  | EmptyString => EmptyString
  | String c s' => String (lowerChar c) (toLowerCase s')
  end.

(** [a || b] on strings. *)
Definition orElse (a b : string) : string := if truthy a then a else b.

(** A [Map] with string keys: entries in insertion order.  [Map.prototype.set]
    on an existing key replaces the value and keeps the entry's position; on
    a new key it appends the entry. *)
Fixpoint mapSet {V} (m : list (string * V)) (k : string) (v : V)
  : list (string * V) :=
  match m with
  | [] => [(k, v)]
  | (k', v') :: m' =>
      if String.eqb k' k then (k', v) :: m' else (k', v') :: mapSet m' k v
  end.

(** [new Map(entries)]: the entries are set one after the other. *)
Definition mapOfEntries {V} (es : list (string * V)) : list (string * V) :=
  foldl (λ m e, mapSet m e.1 e.2) [] es.

(** [Map.prototype.values()], in insertion order. *)
Definition mapValues {V} (m : list (string * V)) : list V := m.*2.

Definition mapKeys {V} (m : list (string * V)) : list string := m.*1.

(** [Array.prototype.sort(cmp)] is stable (ECMAScript 2019); for a comparator
    that is consistent the sorted array is unique.  The model inserts the
    elements from the right, an element going in front of the first one it
    does not have to follow ([cmp x y <= 0]). *)
Fixpoint sortInsert {A} (cmp : A → A → Z) (x : A) (l : list A) : list A :=
  match l with
  | [] => [x]
  | y :: l' => if (cmp x y <=? 0)%Z then x :: y :: l' else y :: sortInsert cmp x l'
  end.

Fixpoint sort {A} (cmp : A → A → Z) (l : list A) : list A :=
  match l with
  | [] => []
  | x :: l' => sortInsert cmp x (sort cmp l')
  end.

(** The distinct elements of a list in the order of their first
    occurrences (the order in which a [Map] or a [Set] meets its keys). *)
Fixpoint firstOccurrences (l : list string) : list string :=
  match l with
  | [] => []
  | x :: l' => x :: filter (λ y, y ≠ x) (firstOccurrences l')
  end.

End JS.

(** ** Data shared by the storage utilities and the route *)

(** A track seed of the request, [{artist, title}]. *)
Record TrackSeed := mkTrackSeed { seed_artist : string; seed_title : string }.

(** A genre of the request: a bare id string, or an object [{id, name}]. *)
Inductive Genre :=
| GenreString (s : string)
| GenreObject (id name : string).

(** [episode.source]: [{type:'track', artist, title}] or
    [{type:'genre', genreId}]. *)
Inductive Source :=
| SourceTrack (artist title : string)
| SourceGenre (genreId : string).

(** An episode as the route builds it. *)
Record Episode := mkEpisode {
  ep_path : string;
  ep_title : string;
  ep_airDate : string;
  ep_source : Source
}.

(** The object [searchSpotifyTrack] returns on a match. *)
Record SpotifyData := mkSpotifyData {
  sp_id : string;
  sp_uri : string;
  sp_url : string;
  sp_name : string;
  sp_artist : string
}.

(** A track of the tracklist with its episode's data attached (the objects
    pushed on [allTracks]). *)
Record CollectedTrack := mkCollectedTrack {
  ct_uid : string;
  ct_artist : string;
  ct_title : string;
  ct_episodePath : string;
  ct_episodeTitle : string;
  ct_airDate : string;
  ct_source : Source
}.

(** A track of a stack: the collected track's fields spread, then [spotify]
    ([None] is JavaScript's [null]). *)
Record Track := mkTrack {
  uid : string;
  artist : string;
  title : string;
  episodePath : string;
  episodeTitle : string;
  airDate : string;
  source : Source;
  spotify : option SpotifyData
}.

(** [stack.sources]. *)
Record Sources := mkSources {
  src_tracks : list TrackSeed;
  src_genres : list string
}.

Record Stack := mkStack {
  id : string;
  createdAt : string;
  name : string;
  sources : Sources;
  tracks : list Track;
  episodesUsed : list Episode;
  summary : string
}.

(** ** tasteProfileStorage.js *)
Module Storage.

(** The three localStorage keys.  [None] is a key that was never set (or was
    removed); a set key holds the JSON text of an array, read back by
    [JSON.parse] as the array that [JSON.stringify] was given. *)
Record LocalStorage := mkLocalStorage {
  SEEN_EPISODES : option (list string);
  REFERENCED_TRACKS : option (list string);
  STACK_HISTORY : option (list Stack)
}.

(** [data ? JSON.parse(data) : []], in the browser. *)
Definition getSeenEpisodes (ls : LocalStorage) : list string :=
  default [] (SEEN_EPISODES ls).

Definition getReferencedTracks (ls : LocalStorage) : list string :=
  default [] (REFERENCED_TRACKS ls).

Definition getStackHistory (ls : LocalStorage) : list Stack :=
  default [] (STACK_HISTORY ls).

Definition setSeenEpisodes (v : list string) (ls : LocalStorage) :=
  mkLocalStorage (Some v) (REFERENCED_TRACKS ls) (STACK_HISTORY ls).

Definition setReferencedTracks (v : list string) (ls : LocalStorage) :=
  mkLocalStorage (SEEN_EPISODES ls) (Some v) (STACK_HISTORY ls).

Definition setStackHistory (v : list Stack) (ls : LocalStorage) :=
  mkLocalStorage (SEEN_EPISODES ls) (REFERENCED_TRACKS ls) (Some v).

Definition markEpisodeAsSeen (episodePath : string) (ls : LocalStorage)
  : LocalStorage :=
  let seen := getSeenEpisodes ls in
  if negb (JS.includes seen episodePath)
  then setSeenEpisodes (JS.push seen episodePath) ls
  else ls.

Definition isEpisodeSeen (episodePath : string) (ls : LocalStorage) : bool :=
  JS.includes (getSeenEpisodes ls) episodePath.

(** The artist names collected by the first loop of [generateStackName]. *)
Definition artistNamesOf (s : Sources) : list string :=
  if (0 <? length (src_tracks s))%nat
  then foldl (λ acc t, if JS.truthy (seed_artist t)
                        then JS.push acc (seed_artist t) else acc)
             [] (src_tracks s)
  else [].

(** The genre names: [genreNames.push(...sources.genres)]. *)
Definition genreNamesOf (s : Sources) : list string :=
  if (0 <? length (src_genres s))%nat then [] ++ src_genres s else [].

(** [arr[i]] inside a template literal, for an index below the length. *)
Definition at_ (l : list string) (i : nat) : string := default "" (l !! i).

Definition generateStackName (s : Sources) : string :=
  let artistNames := artistNamesOf s in
  let genreNames := genreNamesOf s in
  if (0 <? length artistNames)%nat && (0 <? length genreNames)%nat then
    let firstArtist := at_ artistNames 0 in
    let firstGenre := at_ genreNames 0 in
    if (length artistNames =? 1)%nat && (length genreNames =? 1)%nat then
      firstArtist +:+ " + " +:+ firstGenre
    else if (1 <? length artistNames)%nat && (length genreNames =? 1)%nat then
      firstArtist +:+ " & More + " +:+ firstGenre
    else if (length artistNames =? 1)%nat && (1 <? length genreNames)%nat then
      firstArtist +:+ " + " +:+ firstGenre +:+ " Mix"
    else
      firstArtist +:+ " + " +:+ firstGenre +:+ " & More"
  else if (0 <? length artistNames)%nat then
    if (length artistNames =? 1)%nat then
      at_ artistNames 0 +:+ " Mix"
    else if (length artistNames =? 2)%nat then
      at_ artistNames 0 +:+ " + " +:+ at_ artistNames 1
    else
      at_ artistNames 0 +:+ " & "
        +:+ JS.numToString (length artistNames - 1) +:+ " More"
  else if (0 <? length genreNames)%nat then
    if (length genreNames =? 1)%nat then
      at_ genreNames 0 +:+ " Stack"
    else if (length genreNames =? 2)%nat then
      at_ genreNames 0 +:+ " + " +:+ at_ genreNames 1
    else
      at_ genreNames 0 +:+ " Mix"
  else
    "Music Stack".

Definition saveStackToHistory (stack : Stack) (ls : LocalStorage)
  : LocalStorage :=
  let history := stack :: getStackHistory ls in
  let trimmed := JS.slice0 50 history in
  setStackHistory trimmed ls.

Definition getStackById (stackId : string) (ls : LocalStorage) : option Stack :=
  JS.find (λ stack, String.eqb (id stack) stackId) (getStackHistory ls).

(** The [Set] filled by the two nested loops of [deleteStack]. *)
Definition remainingTrackUidsOf (remainingStacks : list Stack) : gset string :=
  foldl (λ acc stack, foldl (λ acc' track, acc' ∪ {[ uid track ]}) acc (tracks stack))
        ∅ remainingStacks.

Definition deleteStack (stackId : string) (ls : LocalStorage) : LocalStorage :=
  let history := getStackHistory ls in
  let stackToDelete := JS.find (λ stack, String.eqb (id stack) stackId) history in
  let ls1 :=
    match stackToDelete with
    | Some stackToDelete =>
        let deletedTrackUids := fmap uid (tracks stackToDelete) in
        let remainingStacks :=
          filter (λ stack, id stack ≠ stackId) history in
        let remainingTrackUids := remainingTrackUidsOf remainingStacks in
        let currentReferenced := getReferencedTracks ls in
        let updatedReferenced :=
          filter (λ uid,
                    let wasInDeletedStack := JS.includes deletedTrackUids uid in
                    let stillInOtherStacks := bool_decide (uid ∈ remainingTrackUids) in
                    negb wasInDeletedStack || stillInOtherStacks)
                 currentReferenced in
        setReferencedTracks updatedReferenced ls
    | None => ls
    end in
  let filtered := filter (λ stack, id stack ≠ stackId) history in
  setStackHistory filtered ls1.

(** *** The vocabulary of the specification for the storage operations *)

(** The keys of a stack's tracks; the key of a stored track is its [uid]. *)
Definition keysOf (stack : Stack) : gset string :=
  list_to_set (fmap uid (tracks stack)).

(** [deletedKeys]: the keys of the deleted stack's tracks. *)
Definition deletedKeys (target : Stack) : gset string := keysOf target.

(** [remainingKeys]: the union of the keys of every stack of the history
    whose id is not the deleted one. *)
Definition remainingKeys (stackId : string) (history : list Stack) : gset string :=
  ⋃ (fmap keysOf (filter (λ stack, id stack ≠ stackId) history)).

(** The naming table of the specification, one constructor per line of it,
    over the artist names and the genre names. *)
Inductive StackNameRule : list string → list string → string → Prop :=
| name_one_artist_one_genre a g :
    StackNameRule [a] [g] (a +:+ " + " +:+ g)
| name_many_artists_one_genre a a' artists g :
    StackNameRule (a :: a' :: artists) [g] (a +:+ " & More + " +:+ g)
| name_one_artist_many_genres a g g' genres :
    StackNameRule [a] (g :: g' :: genres) (a +:+ " + " +:+ g +:+ " Mix")
| name_many_artists_many_genres a a' artists g g' genres :
    StackNameRule (a :: a' :: artists) (g :: g' :: genres)
                  (a +:+ " + " +:+ g +:+ " & More")
| name_one_artist a :
    StackNameRule [a] [] (a +:+ " Mix")
| name_two_artists a1 a2 :
    StackNameRule [a1; a2] [] (a1 +:+ " + " +:+ a2)
| name_more_artists a1 a2 a3 artists :
    StackNameRule (a1 :: a2 :: a3 :: artists) []
      (a1 +:+ " & " +:+ JS.numToString (length (a2 :: a3 :: artists)) +:+ " More")
| name_one_genre g :
    StackNameRule [] [g] (g +:+ " Stack")
| name_two_genres g1 g2 :
    StackNameRule [] [g1; g2] (g1 +:+ " + " +:+ g2)
| name_more_genres g1 g2 g3 genres :
    StackNameRule [] (g1 :: g2 :: g3 :: genres) (g1 +:+ " Mix")
| name_neither :
    StackNameRule [] [] "Music Stack".

(** The artist names of the specification: the artists of the track seeds
    that have a non-empty artist, in seed order. *)
Definition seedArtists (s : Sources) : list string :=
  filter (λ a, a ≠ "") (fmap seed_artist (src_tracks s)).

End Storage.

(** ** api/taste-profile/create-stack/route.js *)
Module CreateStack.

(** The outcome of [await fetch(url)] followed by [response.json()]: the
    promise rejects (network failure, unreadable body), or the response is
    not OK, or it is OK with a body. *)
Inductive Fetched (A : Type) :=
| FetchRejected
| FetchNotOk
| FetchOk (body : A).
Arguments FetchRejected {A}.
Arguments FetchNotOk {A}.
Arguments FetchOk {A} body.

(** An awaited promise: resolved with a value, or rejected (a [throw]). *)
Inductive Promise (A : Type) :=
| Resolved (a : A)
| Rejected.
Arguments Resolved {A} a.
Arguments Rejected {A}.

Global Instance promise_bind : MBind Promise := λ A B k p,
  match p with
  | Resolved a => k a
  | Rejected => Rejected
  end.

(** [p.catch(err => v)]. *)
Definition catch {A} (p : Promise A) (v : A) : A :=
  match p with
  | Resolved a => a
  | Rejected => v
  end.

(** [Promise.all]: the values in the order of the promises, or a rejection
    as soon as one of them rejects. *)
Fixpoint all {A} (ps : list (Promise A)) : Promise (list A) :=
  match ps with
  | [] => Resolved []
  | p :: ps' => a ← p; r ← all ps'; Resolved (a :: r)
  end.

(** One result of the NTS track search. *)
Record TrackResult := mkTrackResult {
  tr_article_path : string;
  tr_article_title : string;
  tr_local_date : string
}.

(** One result of the NTS genre search. *)
Record GenreResult := mkGenreResult {
  gr_article_path : string;
  gr_title : string;
  gr_local_date : string
}.

(** One entry of an NTS tracklist. *)
Record RawTrack := mkRawTrack {
  raw_uid : string;
  raw_artist : string;
  raw_title : string
}.

(** One item of a Spotify search; [item_artists] are the artists' names. *)
Record SpotifyItem := mkSpotifyItem {
  item_id : string;
  item_uri : string;
  item_external_url : string;
  item_name : string;
  item_artists : list string
}.

(** The services and the clock the handler talks to.  The NTS and Spotify
    searches are keyed by the query text before [encodeURIComponent] (which
    is injective); [results] of an NTS body may be absent ([None]); the
    Spotify body is [data.tracks.items], empty when any part is missing.
    [parseDate s] is the time value of [new Date(s)], [None] for an invalid
    date. *)
Record World := mkWorld {
  parseDate : string → option Z;
  ntsSearch : string → Fetched (option (list TrackResult));
  ntsGenreSearch : string → Fetched (option (list GenreResult));
  ntsTracklist : string → Fetched (option (list RawTrack));
  spotifyTokenCall : Fetched string;
  spotifySearch : string → string → Fetched (list SpotifyItem);
  dateNow : string;
  dateNowISO : string
}.

(** The parsed request body, destructuring defaults applied. *)
Record Body := mkBody {
  body_tracks : list TrackSeed;
  body_genres : list Genre;
  body_seenEpisodes : list string;
  body_referencedTracks : list string
}.

(** The JSON response: an error with its HTTP status, or the stack (the
    [details] text of the 500 response is not modelled). *)
Inductive Response :=
| ErrorResponse (status : nat) (error : string)
| StackResponse (stack : Stack).

Section Handler.
Variable w : World.

Definition getSpotifyToken : Promise string :=
  match spotifyTokenCall w with
  | FetchRejected => Rejected
  | FetchNotOk => Rejected
  | FetchOk access_token => Resolved access_token
  end.

Definition searchSpotifyTrack (artist title accessToken : string)
  : Promise (option SpotifyData) :=
  let query := artist +:+ " " +:+ title in
  match spotifySearch w query accessToken with
  | FetchRejected => Rejected
  | FetchNotOk => Resolved None
  | FetchOk items =>
      match items with
      | [] => Resolved None
      | track :: _ =>
          Resolved (Some {| sp_id := item_id track;
                            sp_uri := item_uri track;
                            sp_url := item_external_url track;
                            sp_name := item_name track;
                            sp_artist :=
                              JS.orElse (default "" (head (item_artists track)))
                                        artist |})
      end
  end.

(** The comparator of the sort: [dateB - dateA]; a [NaN] difference counts
    as [+0].  Only the sign of the difference is used. *)
Definition compareNewestFirst (a b : TrackResult) : Z :=
  match parseDate w (tr_local_date a), parseDate w (tr_local_date b) with
  | Some dateA, Some dateB => (dateB - dateA)%Z
  | _, _ => 0%Z
  end.

(** The search text of a track seed: [[title, artist].filter(Boolean).join(' ')]. *)
Definition trackQuery (artist title : string) : string :=
  let queryParts := filter JS.truthy [title; artist] in
  JS.join " " queryParts.

(** The episode object built from a result of the track search. *)
Definition trackEpisode (artist title : string) (result : TrackResult) : Episode :=
  {| ep_path := tr_article_path result;
     ep_title := tr_article_title result;
     ep_airDate := tr_local_date result;
     ep_source := SourceTrack artist title |}.

Definition fetchEpisodesForTrack (artist title : string)
    (seenEpisodes : list string) : Promise (list Episode) :=
  let query := trackQuery artist title in
  match ntsSearch w query with
  | FetchRejected => Rejected
  | FetchNotOk => Rejected
  | FetchOk data =>
      let results := default [] data in
      let results := JS.sort compareNewestFirst results in
      let unseen :=
        filter (λ result, negb (JS.includes seenEpisodes (tr_article_path result)))
               results in
      Resolved (trackEpisode artist title <$> JS.slice0 5 unseen)
  end.

(** The episode object built from a result of the genre search. *)
Definition genreEpisode (genreId : string) (episode : GenreResult) : Episode :=
  {| ep_path := gr_article_path episode;
     ep_title := gr_title episode;
     ep_airDate := gr_local_date episode;
     ep_source := SourceGenre genreId |}.

Definition fetchEpisodesForGenre (genreId : string)
    (seenEpisodes : list string) : Promise (list Episode) :=
  match ntsGenreSearch w genreId with
  | FetchRejected => Rejected
  | FetchNotOk => Rejected
  | FetchOk data =>
      let results := default [] data in
      let unseen :=
        filter (λ episode, negb (JS.includes seenEpisodes (gr_article_path episode)))
               results in
      Resolved (genreEpisode genreId <$> JS.slice0 5 unseen)
  end.

(** The objects [fetchTracklist] returns: [{uid, artist, title, episodePath}]. *)
Record TracklistEntry := mkTracklistEntry {
  te_uid : string;
  te_artist : string;
  te_title : string;
  te_episodePath : string
}.

Definition fetchTracklist (episodePath : string) : Promise (list TracklistEntry) :=
  match ntsTracklist w episodePath with
  | FetchRejected => Rejected
  | FetchNotOk => Resolved []
  | FetchOk data =>
      let tracklist := default [] data in
      Resolved (fmap (λ track,
                       {| te_uid := raw_uid track;
                          te_artist := raw_artist track;
                          te_title := raw_title track;
                          te_episodePath := episodePath |})
                    tracklist)
  end.

(** Step 1: one promise per track, then one per genre, each with its own
    [.catch]; [Promise.all] of promises that cannot reject. *)
Definition genreIdOf (genre : Genre) : string :=
  match genre with
  | GenreString s => s
  | GenreObject id _ => id
  end.

Definition genreNameOf (g : Genre) : string :=
  match g with
  | GenreString s => s
  | GenreObject _ name => name
  end.

Definition episodeResultsOf (tracks : list TrackSeed) (genres : list Genre)
    (seenEpisodes : list string) : list (list Episode) :=
  let episodePromises := [] in
  let episodePromises :=
    foldl (λ acc track,
             JS.push acc
               (catch (fetchEpisodesForTrack (seed_artist track) (seed_title track)
                                             seenEpisodes) []))
          episodePromises tracks in
  let episodePromises :=
    foldl (λ acc genre,
             let genreId := genreIdOf genre in
             JS.push acc (catch (fetchEpisodesForGenre genreId seenEpisodes) []))
          episodePromises genres in
  episodePromises.

(** Flatten and deduplicate episodes by path, through a [Map]. *)
Definition uniqueEpisodesOf (episodeResults : list (list Episode)) : list Episode :=
  let allEpisodes := mjoin episodeResults in
  JS.mapValues (JS.mapOfEntries (fmap (λ ep, (ep_path ep, ep)) allEpisodes)).

(** Step 2: the tracklist of every episode, an empty one when the call fails. *)
Definition tracklistResultsOf (uniqueEpisodes : list Episode)
  : list (Episode * list TracklistEntry) :=
  fmap (λ episode, catch (tracks ← fetchTracklist (ep_path episode);
                         Resolved (episode, tracks))
                        (episode, []))
      uniqueEpisodes.

(** The object pushed on [allTracks]: the track's fields spread, then the
    episode's title, air date and source. *)
Definition collectedTrack (episode : Episode) (track : TracklistEntry)
  : CollectedTrack :=
  {| ct_uid := te_uid track;
     ct_artist := te_artist track;
     ct_title := te_title track;
     ct_episodePath := te_episodePath track;
     ct_episodeTitle := ep_title episode;
     ct_airDate := ep_airDate episode;
     ct_source := ep_source episode |}.

(** Step 3: the two nested loops pushing on [allTracks]. *)
Definition allTracksOf (referencedTracks : list string)
    (tracklistResults : list (Episode * list TracklistEntry))
  : list CollectedTrack :=
  foldl (λ allTracks '(episode, tracks),
           foldl (λ allTracks track,
                    if negb (JS.includes referencedTracks (te_uid track))
                    then JS.push allTracks (collectedTrack episode track)
                    else allTracks)
                 allTracks tracks)
        [] tracklistResults.

(** Step 3.5: [{...track, spotify: spotifyData}] for every track, under
    [Promise.all]. *)
Definition enrichTrack (spotifyToken : string) (track : CollectedTrack)
  : Promise Track :=
  spotifyData ← searchSpotifyTrack (ct_artist track) (ct_title track) spotifyToken;
  Resolved {| uid := ct_uid track;
              artist := ct_artist track;
              title := ct_title track;
              episodePath := ct_episodePath track;
              episodeTitle := ct_episodeTitle track;
              airDate := ct_airDate track;
              source := ct_source track;
              spotify := spotifyData |}.

Definition enrichTracks (spotifyToken : string) (allTracks : list CollectedTrack)
  : Promise (list Track) :=
  all (fmap (enrichTrack spotifyToken) allTracks).

(** ["a, b" + " +k more"] for one group of names of the summary. *)
Definition summaryPart (names : list string) : string :=
  JS.join ", " (JS.slice0 2 names)
    +:+ (if (2 <? length names)%nat
         then " +" +:+ JS.numToString (length names - 2) +:+ " more"
         else "").

Definition summaryOf (tracks : list TrackSeed) (genres : list Genre)
    (genreNames : list string) (nTracks nEpisodes : nat) : string :=
  let summaryParts := [] in
  let summaryParts :=
    if (0 <? length tracks)%nat then
      let artistNames := filter JS.truthy (fmap seed_artist tracks) in
      if (0 <? length artistNames)%nat
      then JS.push summaryParts (summaryPart artistNames)
      else summaryParts
    else summaryParts in
  let summaryParts :=
    if (0 <? length genres)%nat
    then JS.push summaryParts (summaryPart genreNames)
    else summaryParts in
  let episodeText := if (nEpisodes =? 1)%nat then "episode" else "episodes" in
  if (0 <? length summaryParts)%nat
  then JS.numToString nTracks +:+ " curated tracks from "
         +:+ JS.numToString nEpisodes +:+ " NTS " +:+ episodeText
         +:+ " featuring " +:+ JS.join " and " summaryParts
  else JS.numToString nTracks +:+ " curated tracks from "
         +:+ JS.numToString nEpisodes +:+ " NTS " +:+ episodeText.

(** The body of the [try] block after the request was parsed; a rejection
    is an exception that reaches the [catch] of the handler. *)
Definition buildStack (body : Body) : Promise Response :=
  let tracks := body_tracks body in
  let genres := body_genres body in
  let seenEpisodes := body_seenEpisodes body in
  let referencedTracks := body_referencedTracks body in
  if (length tracks =? 0)%nat && (length genres =? 0)%nat then
    Resolved (ErrorResponse 400 "Must provide at least one track or genre")
  else
    let episodeResults := episodeResultsOf tracks genres seenEpisodes in
    let uniqueEpisodes := uniqueEpisodesOf episodeResults in
    if (length uniqueEpisodes =? 0)%nat then
      Resolved (ErrorResponse 404
                  "No episodes found. All episodes may have been seen already.")
    else
      let tracklistResults := tracklistResultsOf uniqueEpisodes in
      let allTracks := allTracksOf referencedTracks tracklistResults in
      spotifyToken ← getSpotifyToken;
      tracksWithSpotify ← enrichTracks spotifyToken allTracks;
      let stackId := dateNow w in
      let createdAt := dateNowISO w in
      let genreNames := fmap genreNameOf genres in
      let seeds :=
        fmap (λ t, {| seed_artist := seed_artist t; seed_title := seed_title t |})
            tracks in
      let stackName :=
        Storage.generateStackName {| src_tracks := seeds; src_genres := genreNames |} in
      let summary :=
        summaryOf tracks genres genreNames
                  (length tracksWithSpotify) (length uniqueEpisodes) in
      Resolved (StackResponse
        {| id := stackId;
           createdAt := createdAt;
           name := stackName;
           sources := {| src_tracks := seeds; src_genres := genreNames |};
           tracks := tracksWithSpotify;
           episodesUsed :=
             fmap (λ ep, {| ep_path := ep_path ep; ep_title := ep_title ep;
                           ep_airDate := ep_airDate ep; ep_source := ep_source ep |})
                 uniqueEpisodes;
           summary := summary |}).

(** The handler: [request] is the outcome of [request.json()]; whatever is
    thrown inside the [try] block becomes the 500 response. *)
Definition POST (request : Promise Body) : Response :=
  catch (body ← request; buildStack body)
        (ErrorResponse 500 "Failed to create stack").

End Handler.

(** *** The vocabulary of the specification for the handler *)

(** The time value of a search result's date. *)
Definition timeOf (w : World) (r : TrackResult) : option Z :=
  parseDate w (tr_local_date r).

(** [a] may come before [b] in a newest-first order: both dates are valid
    and [a]'s is not the earlier one. *)
Definition newestFirst (w : World) (a b : TrackResult) : Prop :=
  ∃ ta tb, timeOf w a = Some ta ∧ timeOf w b = Some tb ∧ (tb ≤ ta)%Z.

(** The same order on episodes, by their [airDate]. *)
Definition episodeNewestFirst (w : World) (a b : Episode) : Prop :=
  ∃ ta tb, parseDate w (ep_airDate a) = Some ta ∧
           parseDate w (ep_airDate b) = Some tb ∧ (tb ≤ ta)%Z.

(** The TrackKey of the specification for a track that has no canonical
    id yet: the pair of the lower-cased artist and title. *)
Definition trackKey (t : CollectedTrack) : string * string :=
  (JS.toLowerCase (ct_artist t), JS.toLowerCase (ct_title t)).

(** The tracks of a tracklist that were not referenced by an earlier stack. *)
Definition unreferenced (referencedTracks : list string)
    (tracks : list TracklistEntry) : list TracklistEntry :=
  filter (λ t, te_uid t ∉ referencedTracks) tracks.

(** What one container contributes to the collected tracks. *)
Definition contributionOf (referencedTracks : list string)
    (result : Episode * list TracklistEntry) : list CollectedTrack :=
  collectedTrack result.1 <$> unreferenced referencedTracks result.2.

(** The Spotify search text of a collected track. *)
Definition spotifyQuery (t : CollectedTrack) : string :=
  ct_artist t +:+ " " +:+ ct_title t.

(** The Enricher lookup of the specification: the first item of an OK
    search, nothing on an empty or a non-OK answer. *)
Definition enricherMatch (w : World) (spotifyToken : string) (t : CollectedTrack)
  : option SpotifyItem :=
  match spotifySearch w (spotifyQuery t) spotifyToken with
  | FetchOk (item :: _) => Some item
  | _ => None
  end.

(** An enriched track carries the seven fields of the collected track. *)
Definition sameFields (t : CollectedTrack) (t' : Track) : Prop :=
  uid t' = ct_uid t ∧ artist t' = ct_artist t ∧ title t' = ct_title t ∧
  episodePath t' = ct_episodePath t ∧ episodeTitle t' = ct_episodeTitle t ∧
  airDate t' = ct_airDate t ∧ source t' = ct_source t.

(** No Spotify search of the world is rejected. *)
Definition noSearchRejected (w : World) : Prop :=
  ∀ query accessToken, spotifySearch w query accessToken ≠ FetchRejected.

(** The response is an error. *)
Definition isError (r : Response) : Prop :=
  match r with
  | ErrorResponse _ _ => True
  | StackResponse _ => False
  end.

(** No seed was supplied. *)
Definition noSeeds (body : Body) : Prop :=
  body_tracks body = [] ∧ body_genres body = [].

(** Every seed contributed no container. *)
Definition noNewEpisodes (w : World) (body : Body) : Prop :=
  Forall (λ episodes, episodes = [])
         (episodeResultsOf w (body_tracks body) (body_genres body)
                           (body_seenEpisodes body)).

(** The tracks that survive the referenced-tracks filter. *)
Definition survivingTracks (w : World) (body : Body) : list CollectedTrack :=
  allTracksOf (body_referencedTracks body)
    (tracklistResultsOf w
       (uniqueEpisodesOf
          (episodeResultsOf w (body_tracks body) (body_genres body)
                            (body_seenEpisodes body)))).

End CreateStack.


(** ** A [Set] of strings *)
Module JSSet.

(** A [Set] keeps its elements in insertion order; [add] of an element that
    is already there changes nothing. *)
Definition add (s : list string) (x : string) : list string :=
  if JS.includes s x then s else JS.push s x.

(** [new Set(array)]: the elements are added one after the other. *)
Definition ofArray (l : list string) : list string := foldl add [] l.

(** [Set.prototype.has]. *)
Definition has (s : list string) (x : string) : bool := JS.includes s x.

End JSSet.

(** ** tasteProfileStorage.js, the remaining operations, and their caller *)
Module StorageRest.
Import Storage.

(** [[...new Set([...referenced, ...trackUids])]] stored under the
    referenced-tracks key. *)
Definition markTracksAsReferenced (trackUids : list string) (ls : LocalStorage)
  : LocalStorage :=
  let referenced := getReferencedTracks ls in
  let updated := JSSet.ofArray (referenced ++ trackUids) in
  setReferencedTracks updated ls.

Definition isTrackReferenced (trackUid : string) (ls : LocalStorage) : bool :=
  JS.includes (getReferencedTracks ls) trackUid.

(** [localStorage.removeItem] of each key. *)
Definition clearSeenEpisodes (ls : LocalStorage) : LocalStorage :=
  mkLocalStorage None (REFERENCED_TRACKS ls) (STACK_HISTORY ls).

Definition clearReferencedTracks (ls : LocalStorage) : LocalStorage :=
  mkLocalStorage (SEEN_EPISODES ls) None (STACK_HISTORY ls).

Definition clearStackHistory (ls : LocalStorage) : LocalStorage :=
  mkLocalStorage (SEEN_EPISODES ls) (REFERENCED_TRACKS ls) None.

Definition clearAllTasteProfileData (ls : LocalStorage) : LocalStorage :=
  clearStackHistory (clearReferencedTracks (clearSeenEpisodes ls)).

Record Stats := mkStats {
  stat_seenEpisodes : nat;
  stat_referencedTracks : nat;
  stat_stacksCreated : nat
}.

Definition getTasteProfileStats (ls : LocalStorage) : Stats :=
  {| stat_seenEpisodes := length (getSeenEpisodes ls);
     stat_referencedTracks := length (getReferencedTracks ls);
     stat_stacksCreated := length (getStackHistory ls) |}.

(** What [handleCreateStack] of taste-profile/page.js does with the stack the
    route returned: [saveStackToHistory(stack)], then
    [markTracksAsReferenced(stack.tracks.map(t => t.uid))]. *)
Definition commitStack (stack : Stack) (ls : LocalStorage) : LocalStorage :=
  let ls := saveStackToHistory stack ls in
  let trackUids := uid <$> tracks stack in
  markTracksAsReferenced trackUids ls.

(** The operations the page performs on the store. *)
Inductive Operation :=
| OpCommit (stack : Stack)
| OpDelete (stackId : string)
| OpSeen (episodePath : string)
| OpClearAll.

Definition perform (op : Operation) (ls : LocalStorage) : LocalStorage :=
  match op with
  | OpCommit stack => commitStack stack ls
  | OpDelete stackId => deleteStack stackId ls
  | OpSeen episodePath => markEpisodeAsSeen episodePath ls
  | OpClearAll => clearAllTasteProfileData ls
  end.

(** The store after a sequence of operations, first operation first. *)
Definition performAll (ops : list Operation) (ls : LocalStorage) : LocalStorage :=
  foldl (λ ls op, perform op ls) ls ops.

(** A browser that never stored anything. *)
Definition emptyStorage : LocalStorage := mkLocalStorage None None None.

(** Every track of every stack of the history is a referenced track. *)
Definition covered (ls : LocalStorage) : Prop :=
  ∀ stack k, stack ∈ getStackHistory ls → k ∈ uid <$> tracks stack →
             k ∈ getReferencedTracks ls.

(** The referenced tracks are exactly the tracks of the history's stacks. *)
Definition exact (ls : LocalStorage) : Prop :=
  ∀ k, k ∈ getReferencedTracks ls ↔
       ∃ stack, stack ∈ getStackHistory ls ∧ k ∈ uid <$> tracks stack.

(** What the store satisfies whatever the page did with it. *)
Definition wellFormed (ls : LocalStorage) : Prop :=
  covered ls ∧ NoDup (getReferencedTracks ls) ∧ NoDup (getSeenEpisodes ls) ∧
  length (getStackHistory ls) ≤ 50.

End StorageRest.

(** ** Concrete stores and a concrete world, used to exercise the code *)
Module Scenarios.
Import Storage CreateStack.

(** A store in which one episode was seen. *)
Definition seenOnce : LocalStorage :=
  mkLocalStorage (Some ["/shows/bonobo/episodes/a"]) None None.

(** Histories of one stack and of fifty stacks. *)
Definition emptyStack (stackId : string) : Stack :=
  mkStack stackId "2025-01-01T00:00:00.000Z" "Music Stack" (mkSources [] [])
          [] [] "0 curated tracks from 1 NTS episode".

Definition fullHistory : LocalStorage :=
  mkLocalStorage None None (Some (replicate 50 (emptyStack "old"))).

Definition shortHistory : LocalStorage :=
  mkLocalStorage None None (Some [emptyStack "old"]).

(** A history of two stacks that share the track ["u"], with the given
    referenced tracks. *)
Definition trackWithUid (u : string) : Track :=
  mkTrack u "X" "Y" "/shows/s/episodes/e" "E" "2024-01-01" (SourceGenre "house") None.

Definition stackWith (stackId : string) (ts : list Track) : Stack :=
  mkStack stackId "2025-01-01T00:00:00.000Z" "house Stack" (mkSources [] ["house"])
          ts [] "1 curated tracks from 1 NTS episode featuring house".

Definition sharedTrackStore (referenced : list string) : LocalStorage :=
  mkLocalStorage None (Some referenced)
                 (Some [stackWith "2" [trackWithUid "u"]; stackWith "1" [trackWithUid "u"]]).

(** Two dates that [new Date] understands. *)
Definition parseIsoDay (s : string) : option Z :=
  if String.eqb s "2024-01-01" then Some 1704067200000%Z
  else if String.eqb s "2025-01-01" then Some 1735689600000%Z
  else None.

(** A world in which the track search for "Y X" and the genre search for
    "house" both answer, older episode first; episodes 1 and 2 play the same
    track, episode 3 another one, whose Spotify search is rejected. *)
Definition radioWorld : World :=
  {| parseDate := parseIsoDay;
     ntsSearch := λ query,
       if String.eqb query "Y X"
       then FetchOk (Some [mkTrackResult "/shows/a/episodes/1" "Show A" "2024-01-01";
                           mkTrackResult "/shows/b/episodes/2" "Show B" "2025-01-01"])
       else FetchRejected;
     ntsGenreSearch := λ genreId,
       if String.eqb genreId "house"
       then FetchOk (Some [mkGenreResult "/shows/a/episodes/1" "Show A, house" "2024-01-01";
                           mkGenreResult "/shows/c/episodes/3" "Show C" "2025-01-01"])
       else FetchNotOk;
     ntsTracklist := λ episodePath,
       if String.eqb episodePath "/shows/a/episodes/1"
       then FetchOk (Some [mkRawTrack "uid-1" "X" "Y"])
       else if String.eqb episodePath "/shows/b/episodes/2"
       then FetchOk (Some [mkRawTrack "uid-1" "X" "Y"])
       else if String.eqb episodePath "/shows/c/episodes/3"
       then FetchOk (Some [mkRawTrack "uid-2" "Z" "W"])
       else FetchRejected;
     spotifyTokenCall := FetchOk "token";
     spotifySearch := λ query accessToken,
       if String.eqb query "X Y"
       then FetchOk [mkSpotifyItem "sp1" "spotify:track:sp1"
                       "https://open.spotify.com/track/sp1" "Y" ["X"]]
       else if String.eqb query "Z W" then FetchRejected
       else FetchNotOk;
     dateNow := "1735689600000";
     dateNowISO := "2025-01-01T00:00:00.000Z" |}.

(** The same world with a Spotify service that answers every search. *)
Definition quietWorld : World :=
  {| parseDate := parseDate radioWorld;
     ntsSearch := ntsSearch radioWorld;
     ntsGenreSearch := ntsGenreSearch radioWorld;
     ntsTracklist := ntsTracklist radioWorld;
     spotifyTokenCall := spotifyTokenCall radioWorld;
     spotifySearch := λ query accessToken,
       if String.eqb query "X Y"
       then FetchOk [mkSpotifyItem "sp1" "spotify:track:sp1"
                       "https://open.spotify.com/track/sp1" "Y" ["X"]]
       else FetchNotOk;
     dateNow := dateNow radioWorld;
     dateNowISO := dateNowISO radioWorld |}.

(** The first world with a Spotify account service that refuses the token. *)
Definition tokenlessWorld : World :=
  {| parseDate := parseDate radioWorld;
     ntsSearch := ntsSearch radioWorld;
     ntsGenreSearch := ntsGenreSearch radioWorld;
     ntsTracklist := ntsTracklist radioWorld;
     spotifyTokenCall := FetchNotOk;
     spotifySearch := spotifySearch radioWorld;
     dateNow := dateNow radioWorld;
     dateNowISO := dateNowISO radioWorld |}.

Definition showA : Episode := trackEpisode "X" "Y"
  (mkTrackResult "/shows/a/episodes/1" "Show A" "2024-01-01").
Definition showB : Episode := trackEpisode "X" "Y"
  (mkTrackResult "/shows/b/episodes/2" "Show B" "2025-01-01").
Definition showAHouse : Episode := genreEpisode "house"
  (mkGenreResult "/shows/a/episodes/1" "Show A, house" "2024-01-01").
Definition showC : Episode := genreEpisode "house"
  (mkGenreResult "/shows/c/episodes/3" "Show C" "2025-01-01").

(** The two tracks of the track seed's episodes, enriched. *)
Definition enrichedShows : list Track :=
  let sp := Some (mkSpotifyData "sp1" "spotify:track:sp1"
                    "https://open.spotify.com/track/sp1" "Y" "X") in
  [mkTrack "uid-1" "X" "Y" "/shows/b/episodes/2" "Show B" "2025-01-01"
           (SourceTrack "X" "Y") sp;
   mkTrack "uid-1" "X" "Y" "/shows/a/episodes/1" "Show A" "2024-01-01"
           (SourceTrack "X" "Y") sp].

(** Requests: a track seed, a genre seed, both, and the track seed when its
    only track was already referenced. *)
Definition trackSeedBody : Body := mkBody [mkTrackSeed "X" "Y"] [] [] [].
Definition genreSeedBody : Body := mkBody [] [GenreString "house"] [] [].
Definition bothSeedsBody : Body :=
  mkBody [mkTrackSeed "X" "Y"] [GenreString "house"] [] [].
Definition referencedBody : Body := mkBody [mkTrackSeed "X" "Y"] [] [] ["uid-1"].

End Scenarios.

(** ** The 1001 Tracklists stack route (src/unnamed/part_002) *)
Module SetStack.
Import CreateStack.

(** An entry of the search answer.  The search route gives [title] and
    [url]; [date] and [venue] are read as well and may be undefined. *)
Record TracklistRef := mkTracklistRef {
  tl_url : string;
  tl_title : string;
  tl_date : option string;
  tl_venue : option string
}.

(** A track of a full tracklist, as the tracklist route answers it. *)
Record SetTrack := mkSetTrack {
  st_trackNumber : string;
  st_artist : string;
  st_title : string;
  st_trackId : option string;
  st_spotify : option SpotifyData
}.

(** [source: {type: '1001tl', artist, tracklistUrl}]. *)
Record SetSource := mkSetSource {
  ss_artist : string;
  ss_tracklistUrl : string
}.

(** The object pushed on [allTracks]: the track's fields spread, then the
    data of its tracklist, its source and its uid. *)
Record StackTrack := mkStackTrack {
  k_trackNumber : string;
  k_artist : string;
  k_title : string;
  k_trackId : option string;
  k_spotify : option SpotifyData;
  k_tracklistUrl : string;
  k_tracklistTitle : string;
  k_tracklistDate : option string;
  k_tracklistVenue : option string;
  k_source : SetSource;
  k_uid : string
}.

(** An entry of [sourceTracklists]. *)
Record UsedTracklist := mkUsedTracklist {
  u_url : string;
  u_title : string;
  u_date : option string;
  u_venue : option string;
  u_trackCount : nat
}.

Record SetStats := mkSetStats {
  totalTracks : nat;
  tracklistsUsed : nat;
  spotifyMatched : nat
}.

Record SetStackT := mkSetStack {
  set_id : string;
  set_createdAt : string;
  set_summary : string;
  set_artist : string;
  set_tracklists : list UsedTracklist;
  set_tracks : list StackTrack;
  set_stats : SetStats
}.

Inductive SetResponse :=
| SetError (status : nat) (error : string)
| SetStackResponse (stack : SetStackT).

(** The request body, [seenTracklists] defaulting to []; a missing artist is
    the empty string. *)
Record SetBody := mkSetBody {
  sb_artist : string;
  sb_seenTracklists : list string
}.

(** The two internal routes, the clock and the two string methods the
    handler uses.  The search body is its [tracklists] field and the
    tracklist body is [tracklist.tracks]; either is [None] when the answer
    does not have that shape. *)
Record SetWorld := mkSetWorld {
  searchTracklists : string → Fetched (option (list TracklistRef));
  fetchFullTracklist : string → Fetched (option (list SetTrack));
  trim : string → string;
  toLowerCase : string → string;
  setDateNow : string;
  setDateNowISO : string
}.

Section Handler.
Variable w : SetWorld.

(** [forEach((track, index) => allTracks.push({...}))]. *)
Definition stackTrack (artist : string) (tracklist : TracklistRef)
    (index : nat) (track : SetTrack) : StackTrack :=
  {| k_trackNumber := st_trackNumber track;
     k_artist := st_artist track;
     k_title := st_title track;
     k_trackId := st_trackId track;
     k_spotify := st_spotify track;
     k_tracklistUrl := tl_url tracklist;
     k_tracklistTitle := tl_title tracklist;
     k_tracklistDate := tl_date tracklist;
     k_tracklistVenue := tl_venue tracklist;
     k_source := {| ss_artist := artist; ss_tracklistUrl := tl_url tracklist |};
     k_uid := tl_url tracklist +:+ "-" +:+ JS.numToString index |}.

(** One turn of the loop over the unseen tracklists: a tracklist whose
    call is rejected, is not OK or has no tracks array is skipped. *)
Definition addTracklist (artist : string)
    (acc : list StackTrack * list UsedTracklist) (tracklist : TracklistRef)
  : list StackTrack * list UsedTracklist :=
  let '(allTracks, sourceTracklists) := acc in
  match fetchFullTracklist w (tl_url tracklist) with
  | FetchRejected => acc
  | FetchNotOk => acc
  | FetchOk None => acc
  | FetchOk (Some tracks) =>
      let allTracks :=
        foldl (λ allTracks '(index, track),
                 JS.push allTracks (stackTrack artist tracklist index track))
              allTracks (imap (λ index track, (index, track)) tracks) in
      (allTracks,
       JS.push sourceTracklists
         {| u_url := tl_url tracklist; u_title := tl_title tracklist;
            u_date := tl_date tracklist; u_venue := tl_venue tracklist;
            u_trackCount := length tracks |})
  end.

(** The duplicate key of a track: its Spotify id when it has one, else the
    lower-cased artist and title. *)
Definition dedupKey (track : StackTrack) : string :=
  JS.orElse (default "" (sp_id <$> k_spotify track))
            (toLowerCase w (k_artist track) +:+ "-" +:+ toLowerCase w (k_title track)).

(** Step 4: one turn of the loop that keeps a track when its key was not
    seen yet, on the pair of [seen] and [uniqueTracks]. *)
Definition dedupStep (state : list string * list StackTrack) (track : StackTrack)
  : list string * list StackTrack :=
  let '(seen, uniqueTracks) := state in
  let key := dedupKey track in
  if negb (JSSet.has seen key)
  then (JSSet.add seen key, JS.push uniqueTracks track)
  else (seen, uniqueTracks).

Definition removeDuplicates (allTracks : list StackTrack) : list StackTrack :=
  snd (foldl dedupStep ([], []) allTracks).

Definition buildSetStack (body : SetBody) : Promise SetResponse :=
  let artist := sb_artist body in
  let seenTracklists := sb_seenTracklists body in
  if negb (JS.truthy artist) || negb (JS.truthy (trim w artist)) then
    Resolved (SetError 400 "Artist name is required")
  else
    match searchTracklists w artist with
    | FetchRejected => Rejected
    | FetchNotOk => Rejected
    | FetchOk None => Rejected
    | FetchOk (Some tracklists) =>
        let unseenTracklists :=
          filter (λ tl, negb (JS.includes seenTracklists (tl_url tl))) tracklists in
        if (length unseenTracklists =? 0)%nat then
          Resolved (SetError 404 "No new tracklists found for this artist")
        else
          let '(allTracks, sourceTracklists) :=
            foldl (addTracklist artist) ([], []) unseenTracklists in
          if (length allTracks =? 0)%nat then
            Resolved (SetError 404 "No tracks found in tracklists")
          else
            let uniqueTracks := removeDuplicates allTracks in
            Resolved (SetStackResponse
              {| set_id := "1001tl-" +:+ setDateNow w;
                 set_createdAt := setDateNowISO w;
                 set_summary :=
                   JS.numToString (length uniqueTracks) +:+ " tracks from "
                     +:+ JS.numToString (length sourceTracklists) +:+ " "
                     +:+ artist +:+ " sets";
                 set_artist := artist;
                 set_tracklists := sourceTracklists;
                 set_tracks := uniqueTracks;
                 set_stats :=
                   {| totalTracks := length uniqueTracks;
                      tracklistsUsed := length sourceTracklists;
                      spotifyMatched :=
                        length (filter (λ t, is_Some (k_spotify t)) uniqueTracks) |} |})
    end.

Definition POST (request : Promise SetBody) : SetResponse :=
  catch (body ← request; buildSetStack body)
        (SetError 500 "Failed to create stack").

End Handler.

(** The first track of a list that has a given key. *)
Definition firstWithKey (w : SetWorld) (key : string) (l : list StackTrack)
  : option StackTrack :=
  JS.find (λ t, String.eqb (dedupKey w t) key) l.

(** The artist is missing or blank. *)
Definition blankArtist (w : SetWorld) (body : SetBody) : Prop :=
  sb_artist body = "" ∨ trim w (sb_artist body) = "".

(** The tracklists of the search answer that the request has not seen. *)
Definition unseenTracklists (body : SetBody) (tracklists : list TracklistRef)
  : list TracklistRef :=
  filter (λ tl, tl_url tl ∉ sb_seenTracklists body) tracklists.

(** The tracks of a tracklist whose call answered with a tracks array, none
    for any other tracklist. *)
Definition tracksOfTracklist (w : SetWorld) (artist : string)
    (tracklist : TracklistRef) : list StackTrack :=
  match fetchFullTracklist w (tl_url tracklist) with
  | FetchOk (Some tracks) => imap (stackTrack artist tracklist) tracks
  | _ => []
  end.

(** The [sourceTracklists] entry of a tracklist whose call answered with a
    tracks array. *)
Definition usedTracklist (w : SetWorld) (tracklist : TracklistRef)
  : option UsedTracklist :=
  match fetchFullTracklist w (tl_url tracklist) with
  | FetchOk (Some tracks) =>
      Some {| u_url := tl_url tracklist; u_title := tl_title tracklist;
              u_date := tl_date tracklist; u_venue := tl_venue tracklist;
              u_trackCount := length tracks |}
  | _ => None
  end.

(** All the tracks of the unseen tracklists, in order. *)
Definition collectedSetTracks (w : SetWorld) (body : SetBody)
    (tracklists : list TracklistRef) : list StackTrack :=
  mjoin (tracksOfTracklist w (sb_artist body) <$> unseenTracklists body tracklists).

End SetStack.

(** ** The interaction-tracking localStorage utilities (second part of
    src/app/utils/cache.js) *)
Module Tracking.

(** A localStorage item: never set, a text [JSON.parse] rejects, or the JSON
    of a value. *)
Inductive Stored (A : Type) :=
| Unset
| Corrupt
| Value (a : A).
Arguments Unset {A}.
Arguments Corrupt {A}.
Arguments Value {A} a.

(** The object [likeTrack] stores. *)
Record LikedTrack := mkLikedTrack {
  lt_title : string;
  lt_artist : string;
  lt_spotify : option SpotifyData
}.

(** [t.spotify?.id]: undefined ([None]) without Spotify data. *)
Definition spotifyId (t : LikedTrack) : option string := sp_id <$> lt_spotify t.

Section Episodes.
(** The liked episodes are stored as the page passes them; only their
    [episodePath] is read. *)
Context {Episode : Type} (episodePath : Episode → string).

Record TrackingStorage := mkTrackingStorage {
  VIEWED_TRACKLISTS : Stored (list string);
  PLAYED_TRACKS : Stored (list string);
  LIKED_EPISODES : Stored (list Episode);
  LIKED_TRACKS : Stored (list LikedTrack)
}.

(** [getStorageItem]: the parsed array, or an empty [Set] when the item is
    missing or cannot be parsed. *)
Inductive ArrayOrSet :=
| AnArray (l : list string)
| ASet (s : list string).

Definition getStorageItem (item : Stored (list string)) : ArrayOrSet :=
  match item with
  | Value l => AnArray l
  | Unset => ASet []
  | Corrupt => ASet []
  end.

(** [new Set(x)] of an array or of a Set. *)
Definition newSet (x : ArrayOrSet) : list string :=
  match x with
  | AnArray l => JSSet.ofArray l
  | ASet s => s
  end.


Definition markTracklistViewed (path : string) (st : TrackingStorage)
  : TrackingStorage :=
  let viewed := newSet (getStorageItem (VIEWED_TRACKLISTS st)) in
  let viewed := JSSet.add viewed path in
  mkTrackingStorage (Value viewed) (PLAYED_TRACKS st) (LIKED_EPISODES st)
                    (LIKED_TRACKS st).

Definition isTracklistViewed (path : string) (st : TrackingStorage) : bool :=
  let viewed := newSet (getStorageItem (VIEWED_TRACKLISTS st)) in
  JSSet.has viewed path.

Definition playedKey (path : string) (trackIndex : nat) : string :=
  path +:+ ":" +:+ JS.numToString trackIndex.


Definition isTrackPlayed (path : string) (trackIndex : nat)
    (st : TrackingStorage) : bool :=
  let key := playedKey path trackIndex in
  let played := newSet (getStorageItem (PLAYED_TRACKS st)) in
  JSSet.has played key.


(** [liked ? JSON.parse(liked) : []] inside a [try]: [None] when the parse
    throws. *)
Definition parsedOrEmpty {A} (item : Stored (list A)) : option (list A) :=
  match item with
  | Unset => Some []
  | Corrupt => None
  | Value l => Some l
  end.

Definition getLikedEpisodes (st : TrackingStorage) : list Episode :=
  match parsedOrEmpty (LIKED_EPISODES st) with
  | Some episodes => episodes
  | None => []
  end.

Definition likeEpisode (episode : Episode) (st : TrackingStorage)
  : TrackingStorage :=
  match parsedOrEmpty (LIKED_EPISODES st) with
  | Some episodes =>
      match JS.find (λ ep, String.eqb (episodePath ep) (episodePath episode))
                    episodes with
      | None =>
          mkTrackingStorage (VIEWED_TRACKLISTS st) (PLAYED_TRACKS st)
                            (Value (episode :: episodes)) (LIKED_TRACKS st)
      | Some _ => st
      end
  | None => st
  end.

Definition unlikeEpisode (path : string) (st : TrackingStorage)
  : TrackingStorage :=
  match parsedOrEmpty (LIKED_EPISODES st) with
  | Some episodes =>
      let filtered := filter (λ ep, episodePath ep ≠ path) episodes in
      mkTrackingStorage (VIEWED_TRACKLISTS st) (PLAYED_TRACKS st)
                        (Value filtered) (LIKED_TRACKS st)
  | None => st
  end.

Definition isEpisodeLiked (path : string) (st : TrackingStorage) : bool :=
  match parsedOrEmpty (LIKED_EPISODES st) with
  | Some episodes => existsb (λ ep, String.eqb (episodePath ep) path) episodes
  | None => false
  end.

Definition getLikedTracks (st : TrackingStorage) : list LikedTrack :=
  match parsedOrEmpty (LIKED_TRACKS st) with
  | Some tracks => tracks
  | None => []
  end.

Definition likeTrack (track : LikedTrack) (st : TrackingStorage)
  : TrackingStorage :=
  match parsedOrEmpty (LIKED_TRACKS st) with
  | Some tracks =>
      match JS.find (λ t, bool_decide (spotifyId t = spotifyId track)) tracks with
      | None =>
          mkTrackingStorage (VIEWED_TRACKLISTS st) (PLAYED_TRACKS st)
                            (LIKED_EPISODES st)
                            (Value ({| lt_title := lt_title track;
                                       lt_artist := lt_artist track;
                                       lt_spotify := lt_spotify track |} :: tracks))
      | Some _ => st
      end
  | None => st
  end.

Definition unlikeTrack (id : string) (st : TrackingStorage) : TrackingStorage :=
  match parsedOrEmpty (LIKED_TRACKS st) with
  | Some tracks =>
      let filtered := filter (λ t, spotifyId t ≠ Some id) tracks in
      mkTrackingStorage (VIEWED_TRACKLISTS st) (PLAYED_TRACKS st)
                        (LIKED_EPISODES st) (Value filtered)
  | None => st
  end.

Definition isTrackLiked (id : string) (st : TrackingStorage) : bool :=
  match parsedOrEmpty (LIKED_TRACKS st) with
  | Some tracks => existsb (λ t, bool_decide (spotifyId t = Some id)) tracks
  | None => false
  end.



End Episodes.

End Tracking.

(** ** The file cache (first part of src/app/utils/cache.js) *)
Module Cache.

(** A character the key pattern [/[^a-z0-9-_]/gi] leaves alone: an ASCII
    letter of either case, a digit, [-] or [_]. *)
Definition isSafeChar (c : Ascii.ascii) : bool :=
  let n := Ascii.nat_of_ascii c in
  ((97 <=? n) && (n <=? 122)) || ((65 <=? n) && (n <=? 90))
  || ((48 <=? n) && (n <=? 57)) || (n =? 45) || (n =? 95).

Definition underscore : Ascii.ascii := Ascii.ascii_of_nat 95.

(** [key.replace(/[^a-z0-9-_]/gi, '_')]. *)
Fixpoint safeKey (key : string) : string :=
  match key with
  | EmptyString => EmptyString
  | String c key' =>
      String (if isSafeChar c then c else underscore) (safeKey key')
  end.

(** Every character of a string is safe. *)
Fixpoint allSafe (s : string) : bool :=
  match s with
  | EmptyString => true
  | String c s' => isSafeChar c && allSafe s'
  end.

Section Files.
(** The cached values; [path.join] on directories and the cache directory
    are those of the process.  Times are milliseconds, the time to live is
    a whole number of hours. *)
Context {Data : Type} (pathJoin : string → string → string) (CACHE_DIR : string).

Record CacheEntry := mkCacheEntry {
  timestamp : Z;
  data : Data
}.

(** The text of a file: the JSON of a cache entry, or anything else. *)
Inductive FileContent :=
| NotJson
| EntryJson (entry : CacheEntry).

(** The directories that exist, each with its files by name.  A cache file
    name has no path separator, so a file is addressed by its directory and
    its name; a directory is known by its path as [path.join] gives it, and
    the data are JSON values, which [JSON.parse] gives back as
    [JSON.stringify] took them. *)
Definition FileSystem := gmap string (gmap string FileContent).

Definition ensureCacheDir (subDir : string) (fs : FileSystem)
  : string * FileSystem :=
  let dir := if JS.truthy subDir then pathJoin CACHE_DIR subDir else CACHE_DIR in
  match fs !! dir with
  | None => (dir, <[dir := ∅]> fs)
  | Some _ => (dir, fs)
  end.

(** The directory and the file name of a key's cache file. *)
Definition getCacheFilePath (key subDir : string) (fs : FileSystem)
  : (string * string) * FileSystem :=
  let safe := safeKey key in
  let '(dir, fs) := ensureCacheDir subDir fs in
  ((dir, safe +:+ ".json"), fs).

Definition readFile (path : string * string) (fs : FileSystem)
  : option FileContent :=
  fs !! path.1 ≫= λ files, files !! path.2.

Definition writeFile (path : string * string) (content : FileContent)
    (fs : FileSystem) : FileSystem :=
  <[path.1 := <[path.2 := content]> (default ∅ (fs !! path.1))]> fs.

Definition unlink (path : string * string) (fs : FileSystem) : FileSystem :=
  match fs !! path.1 with
  | Some files => <[path.1 := delete path.2 files]> fs
  | None => fs
  end.

(** [getCachedData] at the time [now]: the cached data, or null ([None]);
    an expired file is deleted, a file that is not JSON is left alone. *)
Definition getCachedData (now : Z) (key : string) (ttlHours : Z)
    (subDir : string) (fs : FileSystem) : option Data * FileSystem :=
  let '(filePath, fs) := getCacheFilePath key subDir fs in
  match readFile filePath fs with
  | None => (None, fs)
  | Some NotJson => (None, fs)
  | Some (EntryJson cached) =>
      let age := (now - timestamp cached)%Z in
      let maxAge := (ttlHours * 60 * 60 * 1000)%Z in
      if (maxAge <? age)%Z
      then (None, unlink filePath fs)
      else (Some (data cached), fs)
  end.

Definition setCachedData (now : Z) (key : string) (d : Data) (subDir : string)
    (fs : FileSystem) : FileSystem :=
  let '(filePath, fs) := getCacheFilePath key subDir fs in
  let cacheEntry := {| timestamp := now; data := d |} in
  writeFile filePath (EntryJson cacheEntry) fs.

(** The directory of a sub-directory argument and the file of a key. *)
Definition dirOf (subDir : string) : string :=
  if JS.truthy subDir then pathJoin CACHE_DIR subDir else CACHE_DIR.

Definition cacheFile (key subDir : string) : string * string :=
  (dirOf subDir, safeKey key +:+ ".json").

End Files.

End Cache.

(** ** More stores and requests *)
(** ** The NTS track search route (src/unnamed/part_005)

    [GET /api/nts?artist=..&title=..]: the search of NTS for a track, read
    page by page and returned newest first. *)
Module NtsSearch.
Import CreateStack.

Section Route.
(** The genre objects of a result are passed on unread. *)
Context {GenreTag : Type}.

(** One result of the search with the fields the route reads: the article's
    path and title, [local_date], [location] (empty when missing), [genres]
    and the names of the artists (empty for an artist without a name). *)
Record SearchResult := mkSearchResult {
  sr_article_path : string;
  sr_article_title : string;
  sr_local_date : string;
  sr_location : string;
  sr_genres : option (list GenreTag);
  sr_title : string;
  sr_artists : list string
}.

(** The body of a page: [metadata.resultset.count] and [results]. *)
Record PageData := mkPageData {
  pd_count : nat;
  pd_results : list SearchResult
}.

(** The outcome of the [fetch] of a page: the promise rejects, or there is
    a response, OK or not, whose body is a page or is not one ([None]: the
    text is not JSON, or a field the route reads is missing, so that reading
    it throws). *)
Inductive PageFetch :=
| PageRejected
| PageResponse (ok : bool) (body : option PageData).

(** The search service, keyed by the query text before
    [encodeURIComponent] and by the offset (the limit is 60 in every URL),
    with [new Date] and [String.prototype.trim]. *)
Record SearchWorld := mkSearchWorld {
  searchParseDate : string → option Z;
  searchTrim : string → string;
  ntsPage : string → nat → PageFetch
}.

(** An episode of the response. *)
Record EpisodeHit := mkEpisodeHit {
  eh_episodePath : string;
  eh_episodeTitle : string;
  eh_airDate : string;
  eh_location : option string;
  eh_genres : list GenreTag;
  eh_track_title : string;
  eh_track_artist : string
}.

Record SearchBody := mkSearchBody {
  sb_episodes : list EpisodeHit;
  sb_total : nat;
  sb_truncated : bool;
  sb_totalAvailable : nat;
  sb_message : option string
}.

Inductive SearchResponse :=
| SearchError (status : nat) (error : string)
| SearchOk (body : SearchBody).

Context (w : SearchWorld).

Definition limit : nat := 60.
Definition maxEpisodes : nat := 100.

(** [Math.ceil(a / b)] on natural numbers, [b] positive.  (The floating
    point quotient is exact enough wherever the route looks at the result:
    it only compares the number of pages with 2.) *)
Definition ceilDiv (a b : nat) : nat := (a + b - 1) / b.

Definition maxPages : nat := ceilDiv maxEpisodes limit.

(** [[title, artist].filter(Boolean).join(' ')]. *)
Definition queryOf (artist title : string) : string :=
  JS.join " " (filter JS.truthy [title; artist]).

(** The comparator of the sort, [dateB - dateA]; a [NaN] counts as [+0]. *)
Definition compareDates (a b : SearchResult) : Z :=
  match searchParseDate w (sr_local_date a), searchParseDate w (sr_local_date b) with
  | Some dateA, Some dateB => (dateB - dateA)%Z
  | _, _ => 0%Z
  end.

(** The callback of [topEpisodes.map]. *)
Definition toEpisode (episode : SearchResult) : EpisodeHit :=
  {| eh_episodePath := sr_article_path episode;
     eh_episodeTitle := sr_article_title episode;
     eh_airDate := sr_local_date episode;
     eh_location := if JS.truthy (sr_location episode)
                    then Some (sr_location episode) else None;
     eh_genres := default [] (sr_genres episode);
     eh_track_title := sr_title episode;
     eh_track_artist := JS.orElse (default "" (head (sr_artists episode))) "Unknown" |}.

(** [fetch(pageUrl).then(res => res.json())]: whether the response is OK is
    not looked at.  (A body without [results] makes the route throw later,
    inside the same [try].) *)
Definition pagePromise (query : string) (page : nat) : Promise PageData :=
  let offset := page * limit in
  match ntsPage w query offset with
  | PageRejected => Rejected
  | PageResponse _ None => Rejected
  | PageResponse _ (Some pageData) => Resolved pageData
  end.

(** The end of the [try] block: sort, the 404 check, the response. *)
Definition respond (totalCount : nat) (isTruncated : bool)
    (allResults : list SearchResult) : SearchResponse :=
  let allResults := JS.sort compareDates allResults in
  if length allResults =? 0
  then SearchError 404 "No episodes found for this track"
  else
    SearchOk
      {| sb_episodes := toEpisode <$> allResults;
         sb_total := length allResults;
         sb_truncated := isTruncated;
         sb_totalAvailable := totalCount;
         sb_message :=
           if isTruncated
           then Some ("Search too broad - showing first "
                      +:+ JS.numToString (length allResults) +:+ " of "
                      +:+ JS.numToString totalCount
                      +:+ " results. Try a more specific search.")
           else None |}.

(** The [try] block. *)
Definition search (query : string) : Promise SearchResponse :=
  match ntsPage w query 0 with
  | PageRejected => Rejected
  | PageResponse false _ => Rejected
  | PageResponse true None => Rejected
  | PageResponse true (Some firstData) =>
      let totalCount := pd_count firstData in
      let totalPages := ceilDiv totalCount limit in
      let pagesToFetch := totalPages `min` maxPages in
      let isTruncated := maxPages <? totalPages in
      let pagePromises := pagePromise query <$> seq 1 (pagesToFetch - 1) in
      additionalPages ← all pagePromises;
      let allResults :=
        foldl (λ allResults pageData, allResults ++ pd_results pageData)
              (pd_results firstData) additionalPages in
      Resolved (respond totalCount isTruncated allResults)
  end.

(** The handler; a missing parameter is the empty string, and a string
    holds one character per UTF-16 code unit. *)
Definition GET (artist title : string) : SearchResponse :=
  if negb (JS.truthy artist) && negb (JS.truthy title)
  then SearchError 400 "Missing artist or title parameter"
  else
    let combinedQuery := searchTrim w (queryOf artist title) in
    if String.length combinedQuery <? 2
    then SearchError 400 "Search query too short - please enter at least 2 characters"
    else catch (search (queryOf artist title))
               (SearchError 500 "Failed to fetch from NTS API").

(** *** Vocabulary of the properties *)

(** The request passes the two checks in front of the search. *)
Definition accepted (artist title : string) : Prop :=
  (JS.truthy artist = true ∨ JS.truthy title = true) ∧
  2 ≤ String.length (searchTrim w (queryOf artist title)).

(** [a] is not older than [b], both dates being valid. *)
Definition hitNewestFirst (a b : EpisodeHit) : Prop :=
  ∃ ta tb, searchParseDate w (eh_airDate a) = Some ta ∧
           searchParseDate w (eh_airDate b) = Some tb ∧ (tb ≤ ta)%Z.

(** The page a response at an offset carries, if it carries one. *)
Definition pageBody (query : string) (offset : nat) : option PageData :=
  match ntsPage w query offset with
  | PageResponse _ (Some pageData) => Some pageData
  | _ => None
  end.

(** What a search reads, said directly: the count and the results of the
    page at offset 0, which has to be OK, followed by the results of the
    page at offset 60 when the count is above 60. *)
Definition fetchedResults (query : string) : option (nat * list SearchResult) :=
  match ntsPage w query 0 with
  | PageResponse true (Some first) =>
      if 60 <? pd_count first
      then second ← pageBody query 60;
           Some (pd_count first, pd_results first ++ pd_results second)
      else Some (pd_count first, pd_results first)
  | _ => None
  end.

End Route.

(** Two worlds that answer a query alike at the given offsets. *)
Definition agreeOn {GenreTag} (offsets : list nat) (query : string)
    (w w' : @SearchWorld GenreTag) : Prop :=
  (∀ s, searchParseDate w s = searchParseDate w' s) ∧
  (∀ s, searchTrim w s = searchTrim w' s) ∧
  (∀ offset, offset ∈ offsets → ntsPage w query offset = ntsPage w' query offset).

End NtsSearch.

Module MoreScenarios.
Import Storage StorageRest CreateStack Scenarios.

(** A store after one commit: the stack ["1"] with the tracks ["a"] and
    ["b"], both referenced, and one seen episode. *)
Definition oneStackStore : LocalStorage :=
  mkLocalStorage (Some ["/shows/a/episodes/1"]) (Some ["a"; "b"])
                 (Some [stackWith "1" [trackWithUid "a"; trackWithUid "b"]]).

Definition freshStack : Stack := stackWith "2" [trackWithUid "c"; trackWithUid "c"].

(** A full history whose oldest stack holds the track ["k"]. *)
Definition fullStore : LocalStorage :=
  mkLocalStorage None (Some ["k"])
                 (Some (replicate 49 (emptyStack "old")
                        ++ [stackWith "first" [trackWithUid "k"]])).

(** A genre request that has seen episode 1 already, and a track request
    that has seen everything its search returns. *)
Definition houseBody : Body :=
  mkBody [] [GenreString "house"] ["/shows/a/episodes/1"] ["uid-9"].

Definition allSeenBody : Body :=
  mkBody [mkTrackSeed "X" "Y"] []
         ["/shows/a/episodes/1"; "/shows/b/episodes/2"] [].

(** A 1001 Tracklists world: the search for "Bonobo" answers two sets, the
    first of which fails to load; the second plays the same track twice,
    spelled in two cases. *)
Definition setWorld : SetStack.SetWorld :=
  {| SetStack.searchTracklists := λ artist,
       if String.eqb artist "Bonobo"
       then FetchOk (Some [SetStack.mkTracklistRef "https://1001.tl/a" "Set A" None None;
                           SetStack.mkTracklistRef "https://1001.tl/b" "Set B" None None])
       else FetchNotOk;
     SetStack.fetchFullTracklist := λ url,
       if String.eqb url "https://1001.tl/b"
       then FetchOk (Some [SetStack.mkSetTrack "01" "Bonobo" "Kerala" None None;
                           SetStack.mkSetTrack "02" "BONOBO" "kerala" None None;
                           SetStack.mkSetTrack "03" "Bonobo" "Cirrus" None None])
       else FetchRejected;
     SetStack.trim := λ s, s;
     SetStack.toLowerCase := JS.toLowerCase;
     SetStack.setDateNow := "1735689600000";
     SetStack.setDateNowISO := "2025-01-01T00:00:00.000Z" |}.

Definition bonoboBody : SetStack.SetBody := SetStack.mkSetBody "Bonobo" [].

(** Tracking stores over episodes given by their path and title: one whose
    viewed item holds a path twice and whose liked tracks hold a track
    without Spotify data, and one whose liked items cannot be parsed. *)
Definition likedStore : @Tracking.TrackingStorage (string * string) :=
  Tracking.mkTrackingStorage
    (Tracking.Value ["/a"; "/a"]) Tracking.Unset
    (Tracking.Value [("/a", "A")])
    (Tracking.Value [Tracking.mkLikedTrack "T" "A" None]).

Definition corruptStore : @Tracking.TrackingStorage (string * string) :=
  Tracking.mkTrackingStorage Tracking.Unset Tracking.Unset
                             Tracking.Corrupt Tracking.Corrupt.

(** A cache of strings under [.cache], and a file system holding one cache
    file that is not JSON. *)
Definition joinPath (a b : string) : string := a +:+ "/" +:+ b.

Definition brokenFiles : @Cache.FileSystem string :=
  {[ ".cache" := {[ "k.json" := Cache.NotJson ]} ]}.

(** A search service with 500 results for every query and 60 of them on
    every page, and one that differs from it at the offset 120 only. *)
Definition keralaHit : @NtsSearch.SearchResult string :=
  NtsSearch.mkSearchResult "/shows/a/episodes/1" "Show A" "2024-01-02" "London"
                           None "Kerala" ["Bonobo"].

Definition broadSearch : @NtsSearch.SearchWorld string :=
  {| NtsSearch.searchParseDate := parseIsoDay;
     NtsSearch.searchTrim := λ s, s;
     NtsSearch.ntsPage := λ _ _,
       NtsSearch.PageResponse true
         (Some (NtsSearch.mkPageData 500 (replicate 60 keralaHit))) |}.

Definition broadSearchBeyond : @NtsSearch.SearchWorld string :=
  {| NtsSearch.searchParseDate := parseIsoDay;
     NtsSearch.searchTrim := λ s, s;
     NtsSearch.ntsPage := λ query offset,
       if offset =? 120 then NtsSearch.PageRejected
       else NtsSearch.ntsPage broadSearch query offset |}.

End MoreScenarios.

(** * Properties *)

(** ** Facts about the array and Map primitives *)
Module JSFacts.

Lemma includes_elem_of l x : JS.includes l x = true ↔ x ∈ l.
Proof.
  induction l as [|y l IH]; simpl.
  - split; [discriminate | intros H; inversion H].
  - destruct (String.eqb_spec y x) as [->|Hne].
    + split; [intros _; left | done].
    + rewrite IH. split; [by right |].
      intros H. inversion H; subst; [done | assumption].
Qed.

Lemma includes_false_iff l x : JS.includes l x = false ↔ x ∉ l.
Proof.
  rewrite <- includes_elem_of. destruct (JS.includes l x); split; done.
Qed.

Lemma find_Some {A} (p : A → bool) l x :
  JS.find p l = Some x →
  ∃ l1 l2, l = l1 ++ x :: l2 ∧ p x = true ∧ Forall (λ y, p y = false) l1.
Proof.
  induction l as [|y l IH]; simpl; [discriminate |].
  destruct (p y) eqn:Hy.
  - intros [= ->]. exists [], l. split; [done |]. split; [done | constructor].
  - intros H. destruct (IH H) as (l1 & l2 & -> & Hx & Hl1).
    exists (y :: l1), l2. split; [done |]. split; [done | by constructor].
Qed.

Lemma find_None {A} (p : A → bool) l :
  JS.find p l = None ↔ Forall (λ y, p y = false) l.
Proof.
  induction l as [|y l IH]; simpl.
  - split; [by constructor | done].
  - destruct (p y) eqn:Hy.
    + split; [discriminate |]. intros H. inversion H; congruence.
    + rewrite IH. split; [by constructor |]. intros H. by inversion H.
Qed.

(** A loop that pushes [g x] for the elements [x] passing a test. *)
Lemma foldl_push_filter {A B} (f : A → bool) (g : A → B) l acc :
  foldl (λ acc x, if f x then JS.push acc (g x) else acc) acc l
  = acc ++ fmap g (filter (λ x, f x) l).
Proof.
  revert acc. induction l as [|x l IH]; intros acc; simpl.
  - by rewrite app_nil_r.
  - rewrite IH. rewrite filter_cons. destruct (f x) eqn:Hx; simpl.
    + unfold JS.push. by rewrite <- app_assoc.
    + done.
Qed.

Lemma filter_fmap {A B} (f : A → B) (P : B → Prop) `{∀ y, Decision (P y)}
    (l : list A) :
  filter P (f <$> l) = f <$> filter (λ x, P (f x)) l.
Proof.
  induction l as [|x l IH]; [done |].
  rewrite fmap_cons, !filter_cons.
  destruct (decide (P (f x))); by rewrite IH.
Qed.

(** *** The insertion-ordered Map *)

Lemma elem_of_firstOccurrences l x : x ∈ JS.firstOccurrences l ↔ x ∈ l.
Proof.
  induction l as [|y l IH]; simpl; [done |].
  rewrite !elem_of_cons, list_elem_of_filter, IH.
  destruct (decide (x = y)); naive_solver.
Qed.

Lemma NoDup_firstOccurrences l : NoDup (JS.firstOccurrences l).
Proof.
  induction l as [|y l IH]; simpl; [constructor |].
  apply NoDup_cons. split.
  - rewrite list_elem_of_filter. naive_solver.
  - by apply NoDup_filter.
Qed.

Lemma firstOccurrences_snoc l k :
  JS.firstOccurrences (l ++ [k])
  = JS.firstOccurrences l ++ (if decide (k ∈ l) then [] else [k]).
Proof.
  induction l as [|x l IH]; [done |].
  cbn [JS.firstOccurrences app].
  - rewrite IH, filter_app. f_equal. f_equal.
    destruct (decide (k ∈ l)) as [Hin|Hnin];
      destruct (decide (k ∈ x :: l)) as [Hin'|Hnin']; try done.
    + destruct Hnin'. by right.
    + apply elem_of_cons in Hin' as [->|?]; [| done].
      by rewrite filter_cons_False by naive_solver.
    + rewrite filter_cons_True; [done |].
      intros ->. apply Hnin'. by left.
Qed.

Lemma mapKeys_mapSet {V} (m : list (string * V)) k v :
  JS.mapKeys (JS.mapSet m k v)
  = JS.mapKeys m ++ (if decide (k ∈ JS.mapKeys m) then [] else [k]).
Proof.
  unfold JS.mapKeys. induction m as [|[k' v'] m IH]; [done |].
  cbn [JS.mapSet]. rewrite fmap_cons. cbn [fst].
  - destruct (String.eqb_spec k' k) as [->|Hne]; rewrite ?fmap_cons; cbn [fst app].
    + rewrite decide_True by (by left). by rewrite app_nil_r.
    + rewrite IH. f_equal.
      destruct (decide (k ∈ m.*1)) as [Hin|Hnin];
        destruct (decide (k ∈ k' :: m.*1)) as [Hin'|Hnin']; try done.
      * destruct Hnin'. by right.
      * apply elem_of_cons in Hin' as [->|?]; done.
Qed.

Lemma elem_of_mapSet {V} (m : list (string * V)) k v k0 v0 :
  NoDup (JS.mapKeys m) →
  (k0, v0) ∈ JS.mapSet m k v ↔
  (k0 = k ∧ v0 = v) ∨ (k0 ≠ k ∧ (k0, v0) ∈ m).
Proof.
  unfold JS.mapKeys. induction m as [|[k' v'] m IH]; simpl; intros Hnd.
  - rewrite list_elem_of_singleton. split.
    + intros [= -> ->]. by left.
    + intros [[-> ->] | [_ H]]; [done | inversion H].
  - apply NoDup_cons in Hnd as [Hk' Hnd].
    destruct (String.eqb_spec k' k) as [->|Hne].
    + rewrite !elem_of_cons. split.
      * intros [[= -> ->] | Hin]; [by left |].
        right. split; [| by right].
        intros ->. apply Hk'. apply list_elem_of_fmap. by exists (k, v0).
      * intros [[-> ->] | [Hne [[= -> ->] | Hin]]]; [by left | done | by right].
    + rewrite !elem_of_cons, (IH Hnd). split.
      * intros [[= -> ->] | [[-> ->] | [Hne' Hin]]].
        -- right. split; [done | by left].
        -- by left.
        -- right. split; [done | by right].
      * intros [[-> ->] | [Hne' [[= -> ->] | Hin]]].
        -- right. by left.
        -- by left.
        -- right. right. done.
Qed.

Lemma mapOfEntries_snoc {V} (es : list (string * V)) e :
  JS.mapOfEntries (es ++ [e]) = JS.mapSet (JS.mapOfEntries es) e.1 e.2.
Proof. unfold JS.mapOfEntries. by rewrite foldl_app. Qed.

(** The keys of [new Map(entries)] are the distinct keys of the entries, in
    the order of their first occurrences. *)
Lemma mapKeys_mapOfEntries {V} (es : list (string * V)) :
  JS.mapKeys (JS.mapOfEntries es) = JS.firstOccurrences es.*1.
Proof.
  induction es as [|e es IH] using rev_ind; [done |].
  rewrite mapOfEntries_snoc, mapKeys_mapSet, IH, fmap_app. simpl.
  rewrite firstOccurrences_snoc.
  f_equal. destruct (decide (e.1 ∈ es.*1)) as [Hin|Hnin].
  - by rewrite decide_True by (by apply elem_of_firstOccurrences).
  - rewrite decide_False; [done |]. by rewrite elem_of_firstOccurrences.
Qed.

Lemma last_filter_snoc {A} (P : A → Prop) `{∀ x, Decision (P x)} l x :
  last (filter P (l ++ [x])) = if decide (P x) then Some x else last (filter P l).
Proof.
  rewrite filter_app, filter_cons, filter_nil.
  destruct (decide (P x)); [apply last_snoc | by rewrite app_nil_r].
Qed.

(** The value [new Map(entries)] holds for a key is that of the last entry
    with the key. *)
Lemma elem_of_mapOfEntries {V} (es : list (string * V)) k v :
  (k, v) ∈ JS.mapOfEntries es ↔ last (filter (λ e, e.1 = k) es) = Some (k, v).
Proof.
  induction es as [|e es IH] using rev_ind.
  - simpl. split; [intros H; inversion H | discriminate].
  - rewrite mapOfEntries_snoc, last_filter_snoc.
    rewrite elem_of_mapSet
      by (rewrite mapKeys_mapOfEntries; apply NoDup_firstOccurrences).
    rewrite IH. destruct e as [k' v']; simpl.
    destruct (decide (k' = k)) as [->|Hne]; naive_solver.
Qed.

(** *** The stable sort *)
Section Sort.
Context {A : Type} (cmp : A → A → Z).

Lemma sortInsert_Permutation x l : JS.sortInsert cmp x l ≡ₚ x :: l.
Proof.
  induction l as [|y l IH]; simpl; [done |].
  destruct (cmp x y <=? 0)%Z; [done |].
  rewrite IH. apply Permutation_swap.
Qed.

Lemma sort_Permutation l : JS.sort cmp l ≡ₚ l.
Proof.
  induction l as [|x l IH]; simpl; [done |].
  by rewrite sortInsert_Permutation, IH.
Qed.

Lemma elem_of_sort l x : x ∈ JS.sort cmp l ↔ x ∈ l.
Proof. by rewrite sort_Permutation. Qed.

(** When the comparator is the difference of a key, newest-first style,
    the result is sorted by decreasing key. *)
Lemma sortInsert_sorted_by_key (key : A → Z) x l :
  (∀ y, y ∈ l → cmp x y = (key y - key x)%Z) →
  StronglySorted (λ a b, (key b ≤ key a)%Z) l →
  StronglySorted (λ a b, (key b ≤ key a)%Z) (JS.sortInsert cmp x l).
Proof.
  induction l as [|y l IH]; simpl; intros Hcmp Hsorted.
  - repeat constructor.
  - apply StronglySorted_inv in Hsorted as [Hl Hy].
    assert (Hxy := Hcmp y (list_elem_of_here _ _)).
    destruct (Z.leb_spec (cmp x y) 0) as [Hle|Hgt].
    + constructor; [by constructor |].
      constructor; [lia |].
      eapply Forall_impl; [exact Hy |]. simpl. intros z Hz. lia.
    + constructor.
      * apply IH; [| done]. intros z Hz. apply Hcmp. by right.
      * rewrite sortInsert_Permutation. apply Forall_cons. split; [simpl; lia | done].
Qed.

Lemma sort_sorted_by_key (key : A → Z) l :
  (∀ a b, a ∈ l → b ∈ l → cmp a b = (key b - key a)%Z) →
  StronglySorted (λ a b, (key b ≤ key a)%Z) (JS.sort cmp l).
Proof.
  induction l as [|x l IH]; simpl; intros Hcmp; [constructor |].
  apply sortInsert_sorted_by_key.
  - intros y Hy. rewrite elem_of_sort in Hy.
    apply Hcmp; [by left | by right].
  - apply IH. intros a b Ha Hb. apply Hcmp; by right.
Qed.

(** Stability: elements that the comparator does not order keep their
    relative order. *)
Lemma sortInsert_filter (P : A → Prop) `{∀ a, Decision (P a)} x l :
  (∀ y, y ∈ l → P x → P y → (cmp x y ≤ 0)%Z) →
  filter P (JS.sortInsert cmp x l) = filter P (x :: l).
Proof.
  induction l as [|y l IH]; simpl; intros Hties; [done |].
  destruct (Z.leb_spec (cmp x y) 0) as [Hle|Hgt]; [done |].
  rewrite filter_cons, IH by (intros z Hz; apply Hties; by right).
  rewrite !(filter_cons _ x), (filter_cons _ y).
  destruct (decide (P x)) as [Hx|Hx]; [| done].
  destruct (decide (P y)) as [Hy|Hy]; [| done].
  specialize (Hties y (list_elem_of_here _ _) Hx Hy). lia.
Qed.

Lemma sort_stable (P : A → Prop) `{∀ a, Decision (P a)} l :
  (∀ a b, a ∈ l → b ∈ l → P a → P b → (cmp a b ≤ 0)%Z) →
  filter P (JS.sort cmp l) = filter P l.
Proof.
  induction l as [|x l IH]; simpl; intros Hties; [done |].
  rewrite sortInsert_filter.
  - rewrite !filter_cons, IH; [done |].
    intros a b Ha Hb. apply Hties; by right.
  - intros y Hy. rewrite elem_of_sort in Hy. apply Hties; [by left | by right].
Qed.

End Sort.

End JSFacts.

(** ** tasteProfileStorage.js *)
Module StorageFacts.
Import Storage Scenarios.

Lemma artistNamesOf_seedArtists s : artistNamesOf s = seedArtists s.
Proof.
  unfold artistNamesOf, seedArtists.
  destruct (src_tracks s) as [|t ts] eqn:E; [done |].
  change (0 <? length (t :: ts))%nat with true. cbv iota.
  rewrite (JSFacts.foldl_push_filter (λ t, JS.truthy (seed_artist t)) seed_artist).
  simpl app. generalize (t :: ts). intros l.
  induction l as [|x l IH]; [done |].
  rewrite fmap_cons, !filter_cons, <- IH.
  destruct (seed_artist x) eqn:Ea; simpl; [done |].
  by rewrite Ea.
Qed.

Lemma genreNamesOf_genres s : genreNamesOf s = src_genres s.
Proof. unfold genreNamesOf. by destruct (src_genres s). Qed.

(** C7. The name of a stack follows the naming table: with [artists] the
    non-empty artists of the track seeds and [genres] the genre names,
    [generateStackName] returns the name the table gives for the pair
    (one/one, many/one, one/many, many/many; one, two or more artists alone;
    one, two or more genres alone; "Music Stack" when there is neither). *)
Theorem generateStackName_follows_table (s : Sources) :
  StackNameRule (seedArtists s) (src_genres s) (generateStackName s).
Proof.
  unfold generateStackName.
  rewrite artistNamesOf_seedArtists, genreNamesOf_genres.
  destruct (seedArtists s) as [|a1 [|a2 [|a3 artists]]];
    destruct (src_genres s) as [|g1 [|g2 [|g3 genres]]];
    cbn -[String.append JS.numToString]; constructor.
Qed.

(** The table gives one name to a pair of lists. *)
Lemma StackNameRule_functional artists genres n1 n2 :
  StackNameRule artists genres n1 → StackNameRule artists genres n2 → n1 = n2.
Proof. intros H1 H2. inversion H1; subst; inversion H2; subst; reflexivity. Qed.

(** Scenario A of the specification: a single artist seed. *)
Example generateStackName_bonobo :
  generateStackName (mkSources [mkTrackSeed "Bonobo" ""] []) = "Bonobo Mix".
Proof. reflexivity. Qed.

(** *** markEpisodeAsSeen *)

(** C10. Marking an episode as seen is idempotent: when the path is already
    in the seen list the stored state is unchanged, marking twice is marking
    once, and a duplicate-free seen list stays duplicate-free. *)
Theorem markEpisodeAsSeen_idempotent (episodePath : string) (ls : LocalStorage) :
  (episodePath ∈ getSeenEpisodes ls → markEpisodeAsSeen episodePath ls = ls) ∧
  markEpisodeAsSeen episodePath (markEpisodeAsSeen episodePath ls)
    = markEpisodeAsSeen episodePath ls ∧
  (NoDup (getSeenEpisodes ls) →
   NoDup (getSeenEpisodes (markEpisodeAsSeen episodePath ls))).
Proof.
  unfold markEpisodeAsSeen.
  destruct (JS.includes (getSeenEpisodes ls) episodePath) eqn:Hin; simpl.
  - rewrite Hin. simpl. repeat split; auto.
  - apply JSFacts.includes_false_iff in Hin.
    assert (Hafter : JS.includes (JS.push (getSeenEpisodes ls) episodePath)
                                 episodePath = true).
    { apply JSFacts.includes_elem_of. unfold JS.push.
      apply elem_of_app. right. by left. }
    split; [intros Hel; by destruct Hin |].
    split.
    + unfold getSeenEpisodes at 1. simpl. by rewrite Hafter.
    + intros Hnd. unfold getSeenEpisodes at 1. simpl. unfold JS.push.
      apply NoDup_app. split; [done |]. split; [| apply NoDup_singleton].
      intros x Hx Hx'. apply list_elem_of_singleton in Hx'. by subst.
Qed.

Lemma markEpisodeAsSeen_idempotent_witness :
  markEpisodeAsSeen "/shows/bonobo/episodes/a" seenOnce = seenOnce ∧
  NoDup (getSeenEpisodes (markEpisodeAsSeen "/shows/bonobo/episodes/a" seenOnce)).
Proof.
  destruct (markEpisodeAsSeen_idempotent "/shows/bonobo/episodes/a" seenOnce)
    as (Hsame & _ & Hnodup).
  split.
  - apply Hsame. simpl. by left.
  - apply Hnodup. simpl. apply NoDup_singleton.
Defined.

(** *** saveStackToHistory *)

(** C8. The history is newest first and bounded: after a save the stored
    history has at most 50 stacks and the saved stack is its first element,
    followed by the 49 newest stacks of the old history; an old history of
    fewer than 50 stacks is kept whole, and from one of exactly 50 stacks
    the last (oldest) is dropped. *)
Theorem saveStackToHistory_newest_first_bounded (stack : Stack) (ls : LocalStorage) :
  let history := getStackHistory ls in
  let history' := getStackHistory (saveStackToHistory stack ls) in
  length history' ≤ 50 ∧
  head history' = Some stack ∧
  history' = stack :: take 49 history ∧
  (length history < 50 → history' = stack :: history) ∧
  (length history = 50 →
   ∃ oldest, history = take 49 history ++ [oldest] ∧
             history' = stack :: take 49 history).
Proof.
  intros history history'.
  assert (E : history' = stack :: take 49 history) by reflexivity.
  rewrite E. repeat split.
  - simpl. rewrite length_take. lia.
  - intros Hlt. by rewrite take_ge by lia.
  - intros Hlen.
    destruct (drop 49 history) as [|oldest rest] eqn:Hdrop.
    + apply (f_equal length) in Hdrop. rewrite length_drop in Hdrop.
      simpl in Hdrop. lia.
    + exists oldest. split; [| done].
      assert (rest = []) as ->.
      { apply (f_equal length) in Hdrop. rewrite length_drop in Hdrop.
        simpl in Hdrop. destruct rest; [done | simpl in Hdrop; lia]. }
      by rewrite <- Hdrop, take_drop.
Qed.

Lemma saveStackToHistory_newest_first_bounded_witness :
  getStackHistory (saveStackToHistory (emptyStack "new") shortHistory)
    = [emptyStack "new"; emptyStack "old"] ∧
  getStackHistory (saveStackToHistory (emptyStack "new") fullHistory)
    = emptyStack "new" :: replicate 49 (emptyStack "old").
Proof.
  split.
  - destruct (saveStackToHistory_newest_first_bounded (emptyStack "new") shortHistory)
      as (_ & _ & _ & Hshort & _).
    apply Hshort. simpl. lia.
  - destruct (saveStackToHistory_newest_first_bounded (emptyStack "new") fullHistory)
      as (_ & _ & _ & _ & Hfull).
    destruct Hfull as (oldest & _ & Hfull); [reflexivity |].
    exact Hfull.
Defined.

(** *** deleteStack *)

Lemma elem_of_keysOf k stack : k ∈ keysOf stack ↔ k ∈ uid <$> tracks stack.
Proof. unfold keysOf. apply elem_of_list_to_set. Qed.

(** The inner loop adds the uids of one stack's tracks to the set. *)
Lemma inner_loop_adds (ts : list Track) (acc : gset string) :
  foldl (λ acc' track, acc' ∪ {[ uid track ]}) acc ts
  = acc ∪ list_to_set (uid <$> ts).
Proof.
  revert acc. induction ts as [|t ts IH]; intros acc; simpl.
  - set_solver.
  - rewrite IH. set_solver.
Qed.

(** The two loops compute the union of the stacks' key sets. *)
Lemma remainingTrackUidsOf_union (stacks : list Stack) :
  remainingTrackUidsOf stacks = ⋃ (keysOf <$> stacks).
Proof.
  unfold remainingTrackUidsOf.
  enough (H : ∀ acc,
    foldl (λ acc stack, foldl (λ acc' track, acc' ∪ {[ uid track ]}) acc (tracks stack))
          acc stacks = acc ∪ ⋃ (keysOf <$> stacks)).
  { rewrite H. set_solver. }
  induction stacks as [|s stacks IH]; intros acc; simpl.
  - set_solver.
  - rewrite IH, inner_loop_adds. unfold keysOf. set_solver.
Qed.

Lemma getStackById_None stackId ls :
  getStackById stackId ls = None ↔
  ∀ s, s ∈ getStackHistory ls → id s ≠ stackId.
Proof.
  unfold getStackById. rewrite JSFacts.find_None, Forall_forall.
  split; intros H s Hs; specialize (H s Hs).
  - by apply String.eqb_neq.
  - by apply String.eqb_neq.
Qed.

Lemma filter_all {A} (P : A → Prop) `{∀ x, Decision (P x)} (l : list A) :
  (∀ x, x ∈ l → P x) → filter P l = l.
Proof.
  induction l as [|x l IH]; intros Hall; [done |].
  rewrite filter_cons_True by (apply Hall; by left).
  f_equal. apply IH. intros y Hy. apply Hall. by right.
Qed.

(** What [deleteStack] stores when no stack has the id. *)
Lemma deleteStack_absent stackId ls :
  getStackById stackId ls = None →
  getStackHistory (deleteStack stackId ls) = getStackHistory ls ∧
  getReferencedTracks (deleteStack stackId ls) = getReferencedTracks ls.
Proof.
  intros Hnone. unfold deleteStack.
  unfold getStackById in Hnone. rewrite Hnone. simpl.
  split; [| done].
  unfold getStackHistory at 1. simpl.
  apply filter_all. by apply getStackById_None.
Qed.

(** What [deleteStack] stores when [target] is the first stack with the id. *)
Lemma deleteStack_present stackId ls target :
  getStackById stackId ls = Some target →
  getStackHistory (deleteStack stackId ls)
    = filter (λ s, id s ≠ stackId) (getStackHistory ls) ∧
  getReferencedTracks (deleteStack stackId ls)
    = filter (λ k, k ∉ deletedKeys target
                   ∨ k ∈ remainingKeys stackId (getStackHistory ls))
             (getReferencedTracks ls).
Proof.
  intros Hsome. unfold deleteStack.
  unfold getStackById in Hsome. rewrite Hsome. simpl.
  split; [done |].
  unfold getReferencedTracks at 1. simpl.
  apply list_filter_iff. intros k.
  rewrite remainingTrackUidsOf_union. fold (remainingKeys stackId (getStackHistory ls)).
  unfold deletedKeys. rewrite elem_of_keysOf, <- JSFacts.includes_elem_of.
  destruct (JS.includes (uid <$> tracks target) k); simpl;
    rewrite ?bool_decide_spec; naive_solver.
Qed.

(** C1 (as amended). When no stack of the history has the id, [deleteStack]
    leaves the history and the referenced tracks as they were.  Otherwise,
    with [target] the first stack with that id, the history loses every
    stack with that id (so [target] is gone) and the referenced tracks are
    the current ones, in their order, filtered to those that are not keys of
    [target] or are keys of a remaining stack: as a set,
    (referenced minus deleted) union (referenced inter deleted inter
    remaining).  This is the set (referenced minus deleted) union (deleted
    inter remaining) whenever every deleted key of a remaining stack is
    currently referenced. *)
Theorem deleteStack_reclaims (stackId : string) (ls : LocalStorage) :
  let history := getStackHistory ls in
  let referenced := getReferencedTracks ls in
  let history' := getStackHistory (deleteStack stackId ls) in
  let referenced' := getReferencedTracks (deleteStack stackId ls) in
  ((∀ s, s ∈ history → id s ≠ stackId) →
   history' = history ∧ referenced' = referenced) ∧
  ((∃ s, s ∈ history ∧ id s = stackId) →
   ∃ target, getStackById stackId ls = Some target) ∧
  (∀ target, getStackById stackId ls = Some target →
   let D := deletedKeys target in
   let Rem := remainingKeys stackId history in
   target ∈ history ∧ id target = stackId ∧
   history' = filter (λ s, id s ≠ stackId) history ∧
   (target ∉ history') ∧
   sublist referenced' referenced ∧
   (∀ k, k ∈ referenced' ↔ k ∈ referenced ∧ (k ∉ D ∨ k ∈ Rem)) ∧
   (list_to_set referenced')
     =@{gset string} (list_to_set referenced ∖ D) ∪ (list_to_set referenced ∩ D ∩ Rem) ∧
   (D ∩ Rem ⊆ list_to_set referenced →
    (list_to_set referenced') =@{gset string} (list_to_set referenced ∖ D) ∪ (D ∩ Rem))).
Proof.
  intros history referenced history' referenced'. split_and!.
  - intros Habsent. apply deleteStack_absent. by apply getStackById_None.
  - intros (s & Hs & Hid).
    destruct (getStackById stackId ls) as [target|] eqn:Hfind; [by exists target |].
    by destruct (proj1 (getStackById_None stackId ls) Hfind s Hs).
  - intros target Hfound D Rem.
    destruct (deleteStack_present stackId ls target Hfound) as [Hh Hr].
    fold history history' in Hh. fold referenced referenced' D Rem in Hr.
    assert (Hmem : ∀ k, k ∈ referenced' ↔ k ∈ referenced ∧ (k ∉ D ∨ k ∈ Rem)).
    { intros k. rewrite Hr, list_elem_of_filter. tauto. }
    assert (Hset : (list_to_set referenced')
      =@{gset string} (list_to_set referenced ∖ D) ∪ (list_to_set referenced ∩ D ∩ Rem)).
    { apply set_eq. intros k. rewrite elem_of_list_to_set, Hmem.
      destruct (decide (k ∈ D)); set_solver. }
    unfold getStackById in Hfound.
    destruct (JSFacts.find_Some _ _ _ Hfound) as (l1 & l2 & Hsplit & Hid & _).
    apply String.eqb_eq in Hid.
    split_and!.
    + fold history in Hsplit. rewrite Hsplit. apply elem_of_app. right. by left.
    + done.
    + done.
    + rewrite Hh. intros Hin. apply list_elem_of_filter in Hin. by destruct Hin.
    + rewrite Hr. apply sublist_filter.
    + done.
    + done.
    + intros Hsafe. rewrite Hset. set_solver.
Qed.

Lemma deleteStack_reclaims_witness :
  getStackHistory (deleteStack "3" (sharedTrackStore ["u"]))
    = getStackHistory (sharedTrackStore ["u"]) ∧
  (∃ target, getStackById "2" (sharedTrackStore ["u"]) = Some target) ∧
  (list_to_set (getReferencedTracks (deleteStack "2" (sharedTrackStore ["u"]))))
    =@{gset string}
    (list_to_set ["u"] ∖ deletedKeys (stackWith "2" [trackWithUid "u"]))
    ∪ (deletedKeys (stackWith "2" [trackWithUid "u"])
       ∩ remainingKeys "2" (getStackHistory (sharedTrackStore ["u"]))).
Proof.
  split_and!.
  - destruct (deleteStack_reclaims "3" (sharedTrackStore ["u"])) as (Habsent & _ & _).
    apply Habsent. intros s Hs. simpl in Hs.
    apply elem_of_cons in Hs as [-> | Hs]; [done |].
    apply list_elem_of_singleton in Hs as ->. done.
  - destruct (deleteStack_reclaims "2" (sharedTrackStore ["u"])) as (_ & Hfound & _).
    apply Hfound. exists (stackWith "2" [trackWithUid "u"]).
    split; [simpl; by left | done].
  - destruct (deleteStack_reclaims "2" (sharedTrackStore ["u"])) as (_ & _ & Hpresent).
    destruct (Hpresent (stackWith "2" [trackWithUid "u"]) eq_refl)
      as (_ & _ & _ & _ & _ & _ & _ & Hformula).
    apply Hformula.
    intros k Hk. apply elem_of_intersection in Hk as [Hk _].
    unfold deletedKeys in Hk. apply elem_of_keysOf in Hk. simpl in Hk.
    apply elem_of_list_to_set. exact Hk.
Defined.

(** C1 as stated fails on a store whose referenced tracks miss a key of the
    history: deleting stack ["2"] from [sharedTrackStore ["v"]] keeps ["v"]
    only, while (referenced minus deleted) union (deleted inter remaining)
    contains ["u"]. *)
Lemma deleteStack_formula_counterexample :
  let ls := sharedTrackStore ["v"] in
  let target := stackWith "2" [trackWithUid "u"] in
  getStackById "2" ls = Some target ∧
  getReferencedTracks (deleteStack "2" ls) = ["v"] ∧
  (list_to_set (getReferencedTracks (deleteStack "2" ls)))
    ≠@{gset string}
    (list_to_set (getReferencedTracks ls) ∖ deletedKeys target)
    ∪ (deletedKeys target ∩ remainingKeys "2" (getStackHistory ls)).
Proof.
  intros ls target.
  assert (Hr : getReferencedTracks (deleteStack "2" ls) = ["v"]) by (by vm_compute).
  split; [reflexivity |]. split; [exact Hr |].
  rewrite Hr. intros Heq.
  assert (Hu : "u" ∈@{gset string} list_to_set ["v"]).
  { rewrite Heq. apply elem_of_union. right. apply elem_of_intersection. split.
    - apply elem_of_keysOf. simpl. by left.
    - unfold remainingKeys. apply elem_of_union_list.
      exists (keysOf (stackWith "1" [trackWithUid "u"])). split.
      + apply list_elem_of_fmap. exists (stackWith "1" [trackWithUid "u"]).
        split; [done |]. apply list_elem_of_filter. split; [done |].
        simpl. right. by left.
      + apply elem_of_keysOf. simpl. by left. }
  apply elem_of_list_to_set, list_elem_of_singleton in Hu. discriminate.
Qed.

End StorageFacts.

(** ** create-stack/route.js *)
Module CreateStackFacts.
Import CreateStack Scenarios.

(** *** Per-seed resolution *)
Section PerSeed.
Variable w : World.

Lemma unseen_filter {A} (path : A → string) (seenEpisodes : list string)
    (l : list A) :
  filter (λ r, negb (JS.includes seenEpisodes (path r))) l
  = filter (λ r, path r ∉ seenEpisodes) l.
Proof.
  apply list_filter_iff. intros r.
  rewrite <- JSFacts.includes_false_iff.
  by destruct (JS.includes seenEpisodes (path r)).
Qed.

Lemma compareNewestFirst_valid a b ta tb :
  timeOf w a = Some ta → timeOf w b = Some tb →
  compareNewestFirst w a b = (tb - ta)%Z.
Proof. unfold timeOf, compareNewestFirst. by intros -> ->. Qed.

(** With valid dates the sort puts the results newest first. *)
Lemma sort_newestFirst results :
  (∀ r, r ∈ results → is_Some (timeOf w r)) →
  StronglySorted (newestFirst w) (JS.sort (compareNewestFirst w) results).
Proof.
  intros Hvalid.
  pose (key := λ r, default 0%Z (timeOf w r)).
  assert (Hkey : StronglySorted (λ a b, (key b ≤ key a)%Z)
                   (JS.sort (compareNewestFirst w) results)).
  { apply JSFacts.sort_sorted_by_key. intros a b Ha Hb.
    destruct (Hvalid a Ha) as [ta Hta], (Hvalid b Hb) as [tb Htb].
    unfold key. rewrite Hta, Htb. simpl. by apply compareNewestFirst_valid. }
  assert (Hall : Forall (λ r, is_Some (timeOf w r))
                   (JS.sort (compareNewestFirst w) results)).
  { apply Forall_forall. intros r Hr. apply Hvalid.
    by rewrite JSFacts.elem_of_sort in Hr. }
  induction Hkey as [|a l Hl IH Ha]; [constructor |].
  apply Forall_cons in Hall as [[ta Hta] Hall].
  constructor; [by apply IH |].
  apply Forall_forall. intros b Hb.
  rewrite Forall_forall in Ha, Hall.
  destruct (Hall b Hb) as [tb Htb]. specialize (Ha b Hb).
  unfold key in Ha. rewrite Hta, Htb in Ha. simpl in Ha.
  by exists ta, tb.
Qed.

(** Results of one date keep the order in which the search returned them. *)
Lemma sort_keeps_ties results d :
  filter (λ r, timeOf w r = Some d) (JS.sort (compareNewestFirst w) results)
  = filter (λ r, timeOf w r = Some d) results.
Proof.
  apply JSFacts.sort_stable. intros a b _ _ Ha Hb.
  rewrite (compareNewestFirst_valid a b d d Ha Hb). lia.
Qed.

(** C4 (as amended). A track seed whose search answers with valid dates is
    resolved by sorting the results newest first (results of one date keep
    the search's order), dropping the results whose path is in
    [seenEpisodes] and keeping the first 5.  A genre seed is resolved by
    dropping the seen results and keeping the first 5, in the order in which
    the search returned them.  Either way at most 5 episodes come back, none
    of them seen. *)
Theorem per_seed_resolution (seenEpisodes : list string) :
  (∀ artist title data,
     ntsSearch w (trackQuery artist title) = FetchOk data →
     (∀ r, r ∈ default [] data → is_Some (timeOf w r)) →
     ∃ sorted,
       sorted ≡ₚ default [] data ∧
       StronglySorted (newestFirst w) sorted ∧
       (∀ d, filter (λ r, timeOf w r = Some d) sorted
             = filter (λ r, timeOf w r = Some d) (default [] data)) ∧
       fetchEpisodesForTrack w artist title seenEpisodes
       = Resolved (trackEpisode artist title
                     <$> take 5 (filter (λ r, tr_article_path r ∉ seenEpisodes) sorted))) ∧
  (∀ genreId data,
     ntsGenreSearch w genreId = FetchOk data →
     fetchEpisodesForGenre w genreId seenEpisodes
     = Resolved (genreEpisode genreId
                   <$> take 5 (filter (λ r, gr_article_path r ∉ seenEpisodes)
                                      (default [] data)))) ∧
  (∀ episodes,
     (∃ artist title,
        fetchEpisodesForTrack w artist title seenEpisodes = Resolved episodes) ∨
     (∃ genreId, fetchEpisodesForGenre w genreId seenEpisodes = Resolved episodes) →
     length episodes ≤ 5 ∧ ∀ ep, ep ∈ episodes → ep_path ep ∉ seenEpisodes).
Proof.
  split_and!.
  - intros artist title data Hfetch Hvalid.
    exists (JS.sort (compareNewestFirst w) (default [] data)). split_and!.
    + apply JSFacts.sort_Permutation.
    + by apply sort_newestFirst.
    + apply sort_keeps_ties.
    + unfold fetchEpisodesForTrack. rewrite Hfetch. unfold JS.slice0.
      by rewrite (unseen_filter tr_article_path).
  - intros genreId data Hfetch.
    unfold fetchEpisodesForGenre. rewrite Hfetch. unfold JS.slice0.
    by rewrite (unseen_filter gr_article_path).
  - intros episodes [(artist & title & Hres) | (genreId & Hres)].
    + unfold fetchEpisodesForTrack in Hres.
      destruct (ntsSearch w (trackQuery artist title)) as [| |data];
        try discriminate.
      assert (episodes = trackEpisode artist title
                <$> take 5 (filter (λ r, negb (JS.includes seenEpisodes (tr_article_path r)))
                                   (JS.sort (compareNewestFirst w) (default [] data))))
        as -> by (by injection Hres).
      rewrite (unseen_filter tr_article_path). split.
      * rewrite length_fmap, length_take. lia.
      * intros ep Hep. apply list_elem_of_fmap in Hep as (r & -> & Hr).
        apply elem_of_take in Hr as (i & Hr & _).
        apply list_elem_of_lookup_2, list_elem_of_filter in Hr. by destruct Hr.
    + unfold fetchEpisodesForGenre in Hres.
      destruct (ntsGenreSearch w genreId) as [| |data]; try discriminate.
      assert (episodes = genreEpisode genreId
                <$> take 5 (filter (λ r, negb (JS.includes seenEpisodes (gr_article_path r)))
                                   (default [] data)))
        as -> by (by injection Hres).
      rewrite (unseen_filter gr_article_path). split.
      * rewrite length_fmap, length_take. lia.
      * intros ep Hep. apply list_elem_of_fmap in Hep as (r & -> & Hr).
        apply elem_of_take in Hr as (i & Hr & _).
        apply list_elem_of_lookup_2, list_elem_of_filter in Hr. by destruct Hr.
Qed.

End PerSeed.

Lemma per_seed_resolution_witness :
  (∃ sorted,
     sorted ≡ₚ [mkTrackResult "/shows/a/episodes/1" "Show A" "2024-01-01";
                 mkTrackResult "/shows/b/episodes/2" "Show B" "2025-01-01"] ∧
     StronglySorted (newestFirst radioWorld) sorted ∧
     fetchEpisodesForTrack radioWorld "X" "Y" []
     = Resolved (trackEpisode "X" "Y"
                   <$> take 5 (filter (λ r, tr_article_path r ∉ []) sorted))) ∧
  fetchEpisodesForGenre radioWorld "house" ["/shows/c/episodes/3"]
    = Resolved [showAHouse] ∧
  length [showB; showA] ≤ 5.
Proof.
  destruct (per_seed_resolution radioWorld []) as (Htrack & _ & Hbound).
  destruct (per_seed_resolution radioWorld ["/shows/c/episodes/3"])
    as (_ & Hgenre & _).
  split_and!.
  - destruct (Htrack "X" "Y" _ eq_refl) as (sorted & Hperm & Hsorted & _ & Hres).
    + intros r Hr. simpl in Hr.
      apply elem_of_cons in Hr as [-> | Hr]; [by eexists |].
      apply list_elem_of_singleton in Hr as ->. by eexists.
    + exists sorted. by split_and!.
  - rewrite (Hgenre "house" _ eq_refl). vm_compute. reflexivity.
  - apply (Hbound [showB; showA]). left. exists "X", "Y". reflexivity.
Defined.

(** C4 as stated fails for genre seeds: the genre search of [radioWorld]
    returns the 2024 episode before the 2025 one and the resolution keeps
    that order, which is not newest first. *)
Lemma genre_seed_not_sorted_counterexample :
  fetchEpisodesForGenre radioWorld "house" [] = Resolved [showAHouse; showC] ∧
  ¬ StronglySorted (episodeNewestFirst radioWorld) [showAHouse; showC].
Proof.
  split; [reflexivity |].
  intros Hsorted. apply StronglySorted_inv in Hsorted as [_ Hhd].
  apply Forall_cons in Hhd as [(ta & tb & Ha & Hb & Hle) _].
  vm_compute in Ha, Hb. injection Ha as <-. injection Hb as <-. lia.
Qed.

(** *** Deduplication of the episodes *)

(** Every entry of the Map is keyed by the path of its episode. *)
Lemma entries_keyed (allEpisodes : list Episode) k v :
  (k, v) ∈ JS.mapOfEntries ((λ ep, (ep_path ep, ep)) <$> allEpisodes) →
  k = ep_path v.
Proof.
  intros Hkv. apply JSFacts.elem_of_mapOfEntries in Hkv.
  apply last_Some_elem_of, list_elem_of_filter in Hkv as [_ Hkv].
  apply list_elem_of_fmap in Hkv as (ep & [= -> ->] & _). done.
Qed.

(** The paths of the unique episodes, in order. *)
Lemma uniqueEpisodes_paths (episodeResults : list (list Episode)) :
  ep_path <$> uniqueEpisodesOf episodeResults
  = JS.firstOccurrences (ep_path <$> mjoin episodeResults).
Proof.
  unfold uniqueEpisodesOf, JS.mapValues.
  set (entries := (λ ep, (ep_path ep, ep)) <$> mjoin episodeResults).
  transitivity (JS.mapKeys (JS.mapOfEntries entries)).
  - unfold JS.mapKeys. rewrite <- list_fmap_compose.
    apply Forall_fmap_ext_1, Forall_forall. intros [k v] Hkv. simpl.
    symmetry. by apply (entries_keyed (mjoin episodeResults)).
  - rewrite JSFacts.mapKeys_mapOfEntries. unfold entries.
    by rewrite <- list_fmap_compose.
Qed.

(** No episode is left exactly when every seed contributed none. *)
Lemma uniqueEpisodes_nil (episodeResults : list (list Episode)) :
  uniqueEpisodesOf episodeResults = [] ↔
  Forall (λ episodes, episodes = []) episodeResults.
Proof.
  transitivity (ep_path <$> uniqueEpisodesOf episodeResults = []).
  { split; [by intros -> | apply fmap_nil_inv]. }
  rewrite uniqueEpisodes_paths. split.
  - intros Hnil. apply Forall_forall. intros episodes Hin.
    destruct episodes as [|ep episodes]; [done |].
    assert (Hep : ep_path ep ∈ JS.firstOccurrences (ep_path <$> mjoin episodeResults)).
    { apply JSFacts.elem_of_firstOccurrences, list_elem_of_fmap.
      exists ep. split; [done |]. apply list_elem_of_join.
      exists (ep :: episodes). split; [by left | done]. }
    rewrite Hnil in Hep. inversion Hep.
  - intros Hall.
    assert (mjoin episodeResults = []) as ->; [| done].
    induction Hall as [|episodes rest -> _ IH]; [done |]. simpl. exact IH.
Qed.

(** C5 (as amended). The unique episodes list the distinct paths of the
    concatenated per-seed results in the order of their first occurrences,
    one episode per path; the episode object kept for a path (with its
    [source]) is the one of the last occurrence of the path, that is of the
    latest seed in input order that returned it. *)
Theorem uniqueEpisodes_first_position_last_object
    (episodeResults : list (list Episode)) :
  let allEpisodes := mjoin episodeResults in
  let uniqueEpisodes := uniqueEpisodesOf episodeResults in
  ep_path <$> uniqueEpisodes = JS.firstOccurrences (ep_path <$> allEpisodes) ∧
  NoDup (ep_path <$> uniqueEpisodes) ∧
  (∀ ep, ep ∈ uniqueEpisodes ↔
         last (filter (λ e, ep_path e = ep_path ep) allEpisodes) = Some ep).
Proof.
  intros allEpisodes uniqueEpisodes.
  pose proof (uniqueEpisodes_paths episodeResults) as Hfirst.
  fold allEpisodes uniqueEpisodes in Hfirst.
  pose (entries := (λ ep, (ep_path ep, ep)) <$> allEpisodes).
  split_and!.
  - done.
  - rewrite Hfirst. apply JSFacts.NoDup_firstOccurrences.
  - intros ep.
    assert (Hlast : last (filter (λ e, e.1 = ep_path ep) entries)
                    = (λ e, (ep_path e, e))
                        <$> last (filter (λ e, ep_path e = ep_path ep) allEpisodes)).
    { unfold entries. by rewrite <- fmap_last, JSFacts.filter_fmap. }
    unfold uniqueEpisodes, uniqueEpisodesOf, JS.mapValues.
    fold allEpisodes entries. rewrite list_elem_of_fmap. split.
    + intros ([k v] & -> & Hkv). simpl in *.
      assert (k = ep_path v) as -> by (by apply (entries_keyed allEpisodes)).
      apply JSFacts.elem_of_mapOfEntries in Hkv. rewrite Hlast in Hkv.
      destruct (last (filter (λ e, ep_path e = ep_path v) allEpisodes)) as [e|];
        simpl in Hkv; [| discriminate].
      by injection Hkv as _ ->.
    + intros Hep. exists (ep_path ep, ep). split; [done |].
      apply JSFacts.elem_of_mapOfEntries. by rewrite Hlast, Hep.
Qed.

(** C5 as stated fails when two seeds return the same episode: the track
    seed of [bothSeedsBody] comes first and returns [showA], the genre seed
    returns the same path as [showAHouse]; the episode kept, in [showA]'s
    place, is [showAHouse], the later seed's object. *)
Lemma uniqueEpisodes_counterexample :
  let episodeResults :=
    episodeResultsOf radioWorld [mkTrackSeed "X" "Y"] [GenreString "house"] [] in
  episodeResults = [[showB; showA]; [showAHouse; showC]] ∧
  uniqueEpisodesOf episodeResults = [showB; showAHouse; showC] ∧
  ep_path showA = ep_path showAHouse ∧
  (showA ∉ uniqueEpisodesOf episodeResults) ∧
  ep_source showAHouse = SourceGenre "house".
Proof.
  intros episodeResults.
  assert (Hu : uniqueEpisodesOf episodeResults = [showB; showAHouse; showC])
    by (by vm_compute).
  split_and!; try reflexivity.
  rewrite Hu. intros Hin.
  repeat (apply elem_of_cons in Hin as [Hin | Hin]; [discriminate |]).
  inversion Hin.
Qed.

(** *** Collecting the tracks *)

(** The tracks one episode contributes. *)
Lemma inner_loop_collects referencedTracks episode tracks acc :
  foldl (λ allTracks track,
           if negb (JS.includes referencedTracks (te_uid track))
           then JS.push allTracks (collectedTrack episode track)
           else allTracks) acc tracks
  = acc ++ (collectedTrack episode
              <$> filter (λ t, te_uid t ∉ referencedTracks) tracks).
Proof.
  rewrite (JSFacts.foldl_push_filter
             (λ t, negb (JS.includes referencedTracks (te_uid t)))
             (collectedTrack episode)).
  f_equal. f_equal. apply list_filter_iff. intros t.
  rewrite <- JSFacts.includes_false_iff.
  by destruct (JS.includes referencedTracks (te_uid t)).
Qed.

(** C2 (as amended). The collected track list is the concatenation, in
    container order and then in-container order, of every container's tracks
    whose uid is not among the referenced tracks, each with the title, air
    date and source of its own container; nothing else is removed, so the
    list has as many entries as there are unreferenced tracks in the
    containers, and a track that two containers play is listed once for
    each of them. *)
Theorem allTracks_concatenates (referencedTracks : list string)
    (tracklistResults : list (Episode * list TracklistEntry)) :
  allTracksOf referencedTracks tracklistResults
    = mjoin (contributionOf referencedTracks <$> tracklistResults) ∧
  length (allTracksOf referencedTracks tracklistResults)
    = sum_list ((λ result, length (unreferenced referencedTracks result.2))
                  <$> tracklistResults) ∧
  (∀ t, t ∈ allTracksOf referencedTracks tracklistResults ↔
        ∃ episode tracks track,
          (episode, tracks) ∈ tracklistResults ∧ track ∈ tracks ∧
          (te_uid track ∉ referencedTracks) ∧ t = collectedTrack episode track).
Proof.
  assert (Hconcat : allTracksOf referencedTracks tracklistResults
                    = mjoin (contributionOf referencedTracks <$> tracklistResults)).
  { unfold allTracksOf.
    enough (H : ∀ acc,
      foldl (λ allTracks '(episode, tracks),
               foldl (λ allTracks track,
                        if negb (JS.includes referencedTracks (te_uid track))
                        then JS.push allTracks (collectedTrack episode track)
                        else allTracks) allTracks tracks)
            acc tracklistResults
      = acc ++ mjoin (contributionOf referencedTracks <$> tracklistResults))
      by apply (H []).
    induction tracklistResults as [|[episode tracks] rest IH]; intros acc; simpl.
    - by rewrite app_nil_r.
    - by rewrite IH, inner_loop_collects, <- app_assoc. }
  split_and!.
  - done.
  - rewrite Hconcat, length_join, <- list_fmap_compose. f_equal.
    apply Forall_fmap_ext_1, Forall_forall. intros [episode tracks] _.
    unfold contributionOf. simpl. by rewrite length_fmap.
  - intros t. rewrite Hconcat, list_elem_of_join. split.
    + intros (l & Ht & Hl).
      apply list_elem_of_fmap in Hl as ([episode tracks] & -> & Hin).
      apply list_elem_of_fmap in Ht as (track & -> & Htrack).
      apply list_elem_of_filter in Htrack as [Hunref Htrack].
      by exists episode, tracks, track.
    + intros (episode & tracks & track & Hin & Htrack & Hunref & ->).
      exists (contributionOf referencedTracks (episode, tracks)). split.
      * apply list_elem_of_fmap. exists track. split; [done |].
        by apply list_elem_of_filter.
      * apply list_elem_of_fmap. by exists (episode, tracks).
Qed.

(** C2 as stated fails: episodes 2 and 1 of [radioWorld] both play the track
    "X - Y", and the collected list of [trackSeedBody] holds it twice, once
    for each episode. *)
Lemma allTracks_duplicate_counterexample :
  let allTracks := survivingTracks radioWorld trackSeedBody in
  allTracks
    = [collectedTrack showB (mkTracklistEntry "uid-1" "X" "Y" "/shows/b/episodes/2");
       collectedTrack showA (mkTracklistEntry "uid-1" "X" "Y" "/shows/a/episodes/1")] ∧
  length (filter (λ t, trackKey t = ("x", "y")) allTracks) = 2 ∧
  length (filter (λ t, ct_uid t = "uid-1") allTracks) = 2.
Proof. by vm_compute. Qed.

(** *** Enrichment *)
Section Enrichment.
Variable w : World.

Lemma all_rejected {A} (ps : list (Promise A)) :
  all ps = Rejected ↔ Rejected ∈ ps.
Proof.
  induction ps as [|[a|] ps IH]; simpl.
  - split; [discriminate | intros H; inversion H].
  - rewrite elem_of_cons, <- IH.
    destruct (all ps); simpl.
    + split; [discriminate | intros [H|H]; discriminate].
    + split; [by right | done].
  - split; [intros _; by left | done].
Qed.

(** What [searchSpotifyTrack] resolves to, in terms of the lookup. *)
Lemma searchSpotifyTrack_outcome spotifyToken (t : CollectedTrack) :
  searchSpotifyTrack w (ct_artist t) (ct_title t) spotifyToken
  = match spotifySearch w (spotifyQuery t) spotifyToken with
    | FetchRejected => Rejected
    | _ => Resolved
             ((λ item,
                 {| sp_id := item_id item; sp_uri := item_uri item;
                    sp_url := item_external_url item; sp_name := item_name item;
                    sp_artist := JS.orElse (default "" (head (item_artists item)))
                                           (ct_artist t) |})
                <$> enricherMatch w spotifyToken t)
    end.
Proof.
  unfold searchSpotifyTrack, enricherMatch, spotifyQuery.
  destruct (spotifySearch w _ spotifyToken) as [| |[|item items]]; done.
Qed.

(** One track: enriched unless its search is rejected. *)
Lemma enrichTrack_outcome spotifyToken (t : CollectedTrack) :
  spotifySearch w (spotifyQuery t) spotifyToken ≠ FetchRejected →
  ∃ t', enrichTrack w spotifyToken t = Resolved t' ∧ sameFields t t' ∧
        (is_Some (spotify t') ↔ is_Some (enricherMatch w spotifyToken t)).
Proof.
  intros Hok. unfold enrichTrack. rewrite searchSpotifyTrack_outcome.
  destruct (spotifySearch w (spotifyQuery t) spotifyToken) eqn:E; [done | |];
    simpl; eexists; (split; [reflexivity |]); simpl;
    (split; [by repeat split |]); by rewrite fmap_is_Some.
Qed.

Lemma enrichTrack_rejected spotifyToken (t : CollectedTrack) :
  enrichTrack w spotifyToken t = Rejected ↔
  spotifySearch w (spotifyQuery t) spotifyToken = FetchRejected.
Proof.
  unfold enrichTrack. rewrite searchSpotifyTrack_outcome.
  destruct (spotifySearch w (spotifyQuery t) spotifyToken); simpl; split; done.
Qed.

(** The whole list is enriched unless one search is rejected. *)
Lemma enrichTracks_resolved spotifyToken (allTracks : list CollectedTrack) :
  (∀ t, t ∈ allTracks →
        spotifySearch w (spotifyQuery t) spotifyToken ≠ FetchRejected) →
  ∃ tracksWithSpotify,
    enrichTracks w spotifyToken allTracks = Resolved tracksWithSpotify ∧
    Forall2 (λ t t', sameFields t t' ∧
                     (is_Some (spotify t') ↔ is_Some (enricherMatch w spotifyToken t)))
            allTracks tracksWithSpotify.
Proof.
  unfold enrichTracks.
  induction allTracks as [|t ts IH]; intros Hok.
  - exists []. split; [done | constructor].
  - destruct IH as (ts' & Hts & Hall).
    { intros t' Ht'. apply Hok. by right. }
    destruct (enrichTrack_outcome spotifyToken t) as (t' & Ht & Hsame & Hsp).
    { apply Hok. by left. }
    exists (t' :: ts'). split.
    + rewrite fmap_cons. simpl. by rewrite Ht, Hts.
    + by constructor.
Qed.

Lemma enrichTracks_rejected spotifyToken (allTracks : list CollectedTrack) :
  enrichTracks w spotifyToken allTracks = Rejected ↔
  ∃ t, t ∈ allTracks ∧
       spotifySearch w (spotifyQuery t) spotifyToken = FetchRejected.
Proof.
  unfold enrichTracks. rewrite all_rejected, list_elem_of_fmap.
  split; intros (t & Ht & Hin); exists t.
  - split; [done |]. by apply enrichTrack_rejected.
  - split; [| done]. symmetry. by apply enrichTrack_rejected.
Qed.

(** C9. The enrichment changes no field of a track: whenever it returns a
    list, that list has the length of the input and the track at each
    position has the uid, artist, title, episodePath, episodeTitle, airDate
    and source of the input track at that position, [spotify] being the only
    field added; and it does return a list when no Spotify search of an
    input track is rejected. *)
Theorem enrichment_preserves_fields (spotifyToken : string)
    (allTracks : list CollectedTrack) :
  (∀ tracksWithSpotify,
     enrichTracks w spotifyToken allTracks = Resolved tracksWithSpotify →
     length tracksWithSpotify = length allTracks ∧
     ∀ i t, allTracks !! i = Some t →
            ∃ t', tracksWithSpotify !! i = Some t' ∧
                  uid t' = ct_uid t ∧ artist t' = ct_artist t ∧
                  title t' = ct_title t ∧ episodePath t' = ct_episodePath t ∧
                  episodeTitle t' = ct_episodeTitle t ∧
                  airDate t' = ct_airDate t ∧ source t' = ct_source t) ∧
  ((∀ t, t ∈ allTracks →
         spotifySearch w (spotifyQuery t) spotifyToken ≠ FetchRejected) →
   ∃ tracksWithSpotify,
     enrichTracks w spotifyToken allTracks = Resolved tracksWithSpotify).
Proof.
  split.
  - intros out Hout.
    destruct (enrichTracks_resolved spotifyToken allTracks) as (out' & Hout' & Hall).
    { intros t Ht Hrej.
      assert (Hall : enrichTracks w spotifyToken allTracks = Rejected)
        by (apply enrichTracks_rejected; by exists t).
      congruence. }
    assert (out' = out) as -> by congruence.
    split.
    + symmetry. by eapply Forall2_length.
    + intros i t Hi.
      destruct (Forall2_lookup_l _ _ _ _ _ Hall Hi) as (t' & Hi' & Hsame & _).
      exists t'. split; [done |]. exact Hsame.
  - intros Hok.
    destruct (enrichTracks_resolved spotifyToken allTracks Hok) as (out & Hout & _).
    by exists out.
Qed.

End Enrichment.

Lemma enrichment_preserves_fields_witness :
  (∃ t', enrichedShows !! 1 = Some t' ∧ uid t' = "uid-1" ∧
         episodePath t' = "/shows/a/episodes/1") ∧
  ∃ tracksWithSpotify,
    enrichTracks radioWorld "token" (survivingTracks radioWorld trackSeedBody)
      = Resolved tracksWithSpotify.
Proof.
  destruct (enrichment_preserves_fields radioWorld "token"
              (survivingTracks radioWorld trackSeedBody))
    as (Hframe & Htotal).
  split.
  - destruct (Hframe enrichedShows eq_refl) as (_ & Hfields).
    destruct (Hfields 1 (collectedTrack showA
                (mkTracklistEntry "uid-1" "X" "Y" "/shows/a/episodes/1")) eq_refl)
      as (t' & Ht' & Huid & _ & _ & Hpath & _).
    exists t'. by split_and!.
  - apply Htotal. intros t Ht. vm_compute in Ht.
    apply elem_of_cons in Ht as [-> | Ht]; [by vm_compute |].
    apply list_elem_of_singleton in Ht as ->. by vm_compute.
Defined.

(** C6, at an input where the code departs from it. The genre seed of
    [genreSeedBody] yields two tracks; the Spotify search of the first finds
    a match, that of the second is rejected (the request itself fails), and
    the whole build answers with the 500 error instead of a stack whose
    second track has an empty [spotify]. *)
Lemma enrichment_rejection_fails_build :
  ct_uid <$> survivingTracks radioWorld genreSeedBody = ["uid-1"; "uid-2"] ∧
  is_Some (enricherMatch radioWorld "token"
             (collectedTrack showAHouse
                (mkTracklistEntry "uid-1" "X" "Y" "/shows/a/episodes/1"))) ∧
  searchSpotifyTrack radioWorld "Z" "W" "token" = Rejected ∧
  POST radioWorld (Resolved genreSeedBody)
    = ErrorResponse 500 "Failed to create stack".
Proof.
  split_and!.
  - by vm_compute.
  - vm_compute. by eexists.
  - by vm_compute.
  - by vm_compute.
Qed.

(** *** The outcome of a build *)
Section Build.
Variable w : World.

Lemma foldl_push_fmap {A B} (g : A → B) l acc :
  foldl (λ acc x, JS.push acc (g x)) acc l = acc ++ (g <$> l).
Proof.
  revert acc. induction l as [|x l IH]; intros acc; simpl.
  - by rewrite app_nil_r.
  - rewrite IH. unfold JS.push. by rewrite <- app_assoc.
Qed.

(** One list of episodes per seed, tracks first, a failed seed giving []. *)
Lemma episodeResultsOf_per_seed tracks genres seenEpisodes :
  episodeResultsOf w tracks genres seenEpisodes
  = ((λ t, catch (fetchEpisodesForTrack w (seed_artist t) (seed_title t)
                                        seenEpisodes) []) <$> tracks)
    ++ ((λ g, catch (fetchEpisodesForGenre w (genreIdOf g) seenEpisodes) [])
          <$> genres).
Proof.
  unfold episodeResultsOf.
  rewrite (foldl_push_fmap
             (λ t, catch (fetchEpisodesForTrack w (seed_artist t) (seed_title t)
                                                seenEpisodes) [])).
  by rewrite (foldl_push_fmap
                (λ g, catch (fetchEpisodesForGenre w (genreIdOf g) seenEpisodes) [])).
Qed.

(** One tracklist per episode, a failed call giving []. *)
Lemma tracklistResultsOf_per_episode uniqueEpisodes :
  tracklistResultsOf w uniqueEpisodes
  = (λ episode, (episode, catch (fetchTracklist w (ep_path episode)) []))
      <$> uniqueEpisodes.
Proof.
  unfold tracklistResultsOf. apply Forall_fmap_ext_1, Forall_forall.
  intros episode _. by destruct (fetchTracklist w (ep_path episode)).
Qed.

Lemma length_zero_nil {A} (l : list A) : (length l =? 0)%nat = true ↔ l = [].
Proof. destruct l; simpl; split; done. Qed.

(** The four ways out of [buildStack] before the stack is assembled, and
    the stack otherwise. *)
Lemma buildStack_outcome (body : Body) :
  (noSeeds body ∧
   buildStack w body
   = Resolved (ErrorResponse 400 "Must provide at least one track or genre")) ∨
  (¬ noSeeds body ∧ noNewEpisodes w body ∧
   buildStack w body
   = Resolved (ErrorResponse 404
                 "No episodes found. All episodes may have been seen already.")) ∨
  (¬ noSeeds body ∧ ¬ noNewEpisodes w body ∧ getSpotifyToken w = Rejected ∧
   buildStack w body = Rejected) ∨
  (∃ spotifyToken,
     ¬ noSeeds body ∧ ¬ noNewEpisodes w body ∧
     getSpotifyToken w = Resolved spotifyToken ∧
     enrichTracks w spotifyToken (survivingTracks w body) = Rejected ∧
     buildStack w body = Rejected) ∨
  (∃ spotifyToken tracksWithSpotify stack,
     ¬ noSeeds body ∧ ¬ noNewEpisodes w body ∧
     getSpotifyToken w = Resolved spotifyToken ∧
     enrichTracks w spotifyToken (survivingTracks w body)
       = Resolved tracksWithSpotify ∧
     tracks stack = tracksWithSpotify ∧
     buildStack w body = Resolved (StackResponse stack)).
Proof.
  unfold buildStack, noNewEpisodes, survivingTracks.
  destruct ((length (body_tracks body) =? 0)%nat
            && (length (body_genres body) =? 0)%nat) eqn:Hvalid.
  { left. apply andb_true_iff in Hvalid as [Ht Hg].
    apply length_zero_nil in Ht, Hg. done. }
  right.
  assert (Hseeds : ¬ noSeeds body).
  { intros [Ht Hg]. rewrite Ht, Hg in Hvalid. discriminate. }
  destruct (length (uniqueEpisodesOf _) =? 0)%nat eqn:Hu.
  - left. apply length_zero_nil, uniqueEpisodes_nil in Hu. done.
  - right.
    assert (Hnew : ¬ Forall (λ episodes, episodes = [])
                      (episodeResultsOf w (body_tracks body) (body_genres body)
                                        (body_seenEpisodes body))).
    { intros Hall. apply uniqueEpisodes_nil, length_zero_nil in Hall. congruence. }
    destruct (getSpotifyToken w) as [spotifyToken|]; [| by left].
    right. simpl.
    destruct (enrichTracks w spotifyToken _) as [tracksWithSpotify|] eqn:He; simpl.
    + right. eexists spotifyToken, tracksWithSpotify, _.
      do 4 (split; [done |]). split; [| reflexivity]. reflexivity.
    + left. exists spotifyToken. done.
Qed.

Lemma POST_resolved (body : Body) :
  POST w (Resolved body)
  = catch (buildStack w body) (ErrorResponse 500 "Failed to create stack").
Proof. reflexivity. Qed.

(** C3 (as amended). Provided no Spotify search is rejected, the build
    answers with an error exactly when the request body cannot be read, or
    no seed was supplied, or every seed contributed no episode, or the
    Spotify token cannot be obtained; otherwise it answers with a stack that
    holds one track per surviving track, also when no track survived.  A
    seed whose NTS search fails contributes no episode and an episode whose
    tracklist call fails contributes no track: the per-seed and
    per-container results are total functions of the world. *)
Theorem build_errors (request : Promise Body) :
  noSearchRejected w →
  (isError (POST w request) ↔
     request = Rejected ∨
     ∃ body, request = Resolved body ∧
             (noSeeds body ∨ noNewEpisodes w body ∨ getSpotifyToken w = Rejected)) ∧
  (∀ body, request = Resolved body → ¬ isError (POST w request) →
     ∃ stack, POST w request = StackResponse stack ∧
              length (tracks stack) = length (survivingTracks w body)) ∧
  (∀ tracks genres seenEpisodes,
     episodeResultsOf w tracks genres seenEpisodes
     = ((λ t, catch (fetchEpisodesForTrack w (seed_artist t) (seed_title t)
                                           seenEpisodes) []) <$> tracks)
       ++ ((λ g, catch (fetchEpisodesForGenre w (genreIdOf g) seenEpisodes) [])
             <$> genres)) ∧
  (∀ uniqueEpisodes,
     tracklistResultsOf w uniqueEpisodes
     = (λ episode, (episode, catch (fetchTracklist w (ep_path episode)) []))
         <$> uniqueEpisodes) ∧
  (∀ artist title seenEpisodes,
     (∀ data, ntsSearch w (trackQuery artist title) ≠ FetchOk data) →
     catch (fetchEpisodesForTrack w artist title seenEpisodes) [] = []) ∧
  (∀ genreId seenEpisodes,
     (∀ data, ntsGenreSearch w genreId ≠ FetchOk data) →
     catch (fetchEpisodesForGenre w genreId seenEpisodes) [] = []) ∧
  (∀ episodePath,
     (∀ data, ntsTracklist w episodePath ≠ FetchOk data) →
     catch (fetchTracklist w episodePath) [] = []).
Proof.
  intros Hquiet.
  assert (Henrich : ∀ spotifyToken allTracks,
            enrichTracks w spotifyToken allTracks ≠ Rejected).
  { intros spotifyToken allTracks Hrej.
    apply enrichTracks_rejected in Hrej as (t & _ & Ht). by apply Hquiet in Ht. }
  split_and!.
  - destruct request as [body|]; [| split; [by left | done]].
    rewrite POST_resolved.
    destruct (buildStack_outcome body)
      as [(Hs & ->) | [(Hs & Hn & ->) | [(Hs & Hn & Htok & ->)
         | [(tok & Hs & Hn & Htok & He & _)
         | (tok & tws & stack & Hs & Hn & Htok & He & _ & ->)]]]]; simpl.
    + split; [| done]. intros _. right. exists body. split; [done | by left].
    + split; [| done]. intros _. right. exists body.
      split; [done | right; by left].
    + split; [| done]. intros _. right. exists body.
      split; [done | right; by right].
    + by apply Henrich in He.
    + split; [done |].
      intros [Hreq | (body' & [= <-] & [Hs' | [Hn' | Htok']])];
        [discriminate | done | done | congruence].
  - intros body -> Hok. rewrite POST_resolved in *.
    destruct (buildStack_outcome body)
      as [(Hs & Hb) | [(Hs & Hn & Hb) | [(Hs & Hn & Htok & Hb)
         | [(tok & Hs & Hn & Htok & He & _)
         | (tok & tws & stack & Hs & Hn & Htok & He & Htracks & Hb)]]]];
      rewrite ?Hb in *; simpl in *; try by destruct Hok.
    + by apply Henrich in He.
    + exists stack. split; [done |]. rewrite Htracks.
      destruct (enrichTracks_resolved w tok (survivingTracks w body))
        as (out & Hout & Hall).
      { intros t _. apply Hquiet. }
      rewrite He in Hout. injection Hout as <-.
      symmetry. by eapply Forall2_length.
  - apply episodeResultsOf_per_seed.
  - apply tracklistResultsOf_per_episode.
  - intros artist title seenEpisodes Hfail. unfold fetchEpisodesForTrack.
    destruct (ntsSearch w (trackQuery artist title)) as [| |data] eqn:E; try done.
    by destruct (Hfail data).
  - intros genreId seenEpisodes Hfail. unfold fetchEpisodesForGenre.
    destruct (ntsGenreSearch w genreId) as [| |data] eqn:E; try done.
    by destruct (Hfail data).
  - intros episodePath Hfail. unfold fetchTracklist.
    destruct (ntsTracklist w episodePath) as [| |data] eqn:E; try done.
    by destruct (Hfail data).
Qed.

End Build.

Lemma quietWorld_quiet : noSearchRejected quietWorld.
Proof.
  intros query accessToken. simpl.
  destruct (String.eqb query "X Y"); discriminate.
Qed.

Lemma build_errors_witness :
  isError (POST quietWorld (Resolved (mkBody [] [] [] []))) ∧
  (∃ stack, POST quietWorld (Resolved genreSeedBody) = StackResponse stack ∧
            length (tracks stack) = 2) ∧
  catch (fetchEpisodesForTrack quietWorld "nobody" "" []) [] = [] ∧
  catch (fetchEpisodesForGenre quietWorld "techno" []) [] = [] ∧
  catch (fetchTracklist quietWorld "/shows/d/episodes/4") [] = [].
Proof.
  split_and!.
  - destruct (build_errors quietWorld (Resolved (mkBody [] [] [] [])) quietWorld_quiet)
      as (Herr & _).
    apply Herr. right. exists (mkBody [] [] [] []). split; [done |]. by left.
  - destruct (build_errors quietWorld (Resolved genreSeedBody) quietWorld_quiet)
      as (_ & Hstack & _).
    destruct (Hstack genreSeedBody eq_refl) as (stack & Hpost & Hlen).
    + vm_compute. tauto.
    + exists stack. split; [exact Hpost |]. rewrite Hlen. by vm_compute.
  - destruct (build_errors quietWorld (Resolved genreSeedBody) quietWorld_quiet)
      as (_ & _ & _ & _ & Hseed & _).
    apply Hseed. intros data. by vm_compute.
  - destruct (build_errors quietWorld (Resolved genreSeedBody) quietWorld_quiet)
      as (_ & _ & _ & _ & _ & Hgenre & _).
    apply Hgenre. intros data. by vm_compute.
  - destruct (build_errors quietWorld (Resolved genreSeedBody) quietWorld_quiet)
      as (_ & _ & _ & _ & _ & _ & Htracklist).
    apply Htracklist. intros data. by vm_compute.
Defined.

(** C3 as stated fails in both directions.  The only track the seed of
    [referencedBody] leads to was already referenced, so no track survives,
    and the build answers with a stack that has no track, not with an
    error; and when the Spotify token cannot be obtained the build answers
    with an error although seeds were supplied, episodes were found and
    tracks survived. *)
Lemma build_errors_counterexample :
  survivingTracks radioWorld referencedBody = [] ∧
  (∃ stack, POST radioWorld (Resolved referencedBody) = StackResponse stack ∧
            tracks stack = []) ∧
  ¬ isError (POST radioWorld (Resolved referencedBody)) ∧
  length (survivingTracks tokenlessWorld trackSeedBody) = 2 ∧
  POST tokenlessWorld (Resolved trackSeedBody)
    = ErrorResponse 500 "Failed to create stack".
Proof.
  split_and!.
  - by vm_compute.
  - eexists. split; [by vm_compute | done].
  - vm_compute. tauto.
  - by vm_compute.
  - by vm_compute.
Qed.

End CreateStackFacts.

(** ** tasteProfileStorage.js, the remaining operations *)
Module StorageRestFacts.
Import Storage StorageRest Scenarios MoreScenarios.

(** *** Sets as arrays *)

Lemma ofArray_firstOccurrences l : JSSet.ofArray l = JS.firstOccurrences l.
Proof.
  induction l as [|x l IH] using rev_ind; [done |].
  unfold JSSet.ofArray in *. rewrite foldl_app. simpl. rewrite IH.
  rewrite JSFacts.firstOccurrences_snoc. unfold JSSet.add, JS.push.
  destruct (JS.includes (JS.firstOccurrences l) x) eqn:Hin.
  - rewrite JSFacts.includes_elem_of, JSFacts.elem_of_firstOccurrences in Hin.
    rewrite decide_True by done. by rewrite app_nil_r.
  - rewrite JSFacts.includes_false_iff, JSFacts.elem_of_firstOccurrences in Hin.
    by rewrite decide_False by done.
Qed.

Lemma filter_none {A} (P : A → Prop) `{∀ x, Decision (P x)} (l : list A) :
  (∀ x, x ∈ l → ¬ P x) → filter P l = [].
Proof.
  induction l as [|x l IH]; intros Hnone; [done |].
  rewrite filter_cons_False by (apply Hnone; by left).
  apply IH. intros y Hy. apply Hnone. by right.
Qed.

Lemma firstOccurrences_NoDup l : NoDup l → JS.firstOccurrences l = l.
Proof.
  induction 1 as [|x l Hx Hnd IH]; [done |].
  simpl. rewrite IH. f_equal. apply StorageFacts.filter_all.
  intros y Hy ->. done.
Qed.

Lemma firstOccurrences_app l1 l2 :
  JS.firstOccurrences (l1 ++ l2)
  = JS.firstOccurrences l1 ++ filter (λ x, x ∉ l1) (JS.firstOccurrences l2).
Proof.
  induction l2 as [|x l2 IH] using rev_ind.
  - by rewrite !app_nil_r.
  - rewrite app_assoc, !JSFacts.firstOccurrences_snoc, IH, filter_app, <- app_assoc.
    f_equal. f_equal.
    destruct (decide (x ∈ l2)) as [Hin|Hnin].
    + rewrite decide_True; [done |]. apply elem_of_app. by right.
    + destruct (decide (x ∈ l1)) as [Hin1|Hnin1].
      * rewrite decide_True by (apply elem_of_app; by left).
        by rewrite filter_cons_False by (by intros ?).
      * rewrite decide_False.
        -- by rewrite filter_cons_True.
        -- intros [?|?]%elem_of_app; done.
Qed.

Lemma referenced_after_mark trackUids ls :
  getReferencedTracks (markTracksAsReferenced trackUids ls)
  = JS.firstOccurrences (getReferencedTracks ls ++ trackUids).
Proof. unfold markTracksAsReferenced. by rewrite ofArray_firstOccurrences. Qed.

(** *** markTracksAsReferenced *)

(** X1. [markTracksAsReferenced] stores the union of the referenced tracks
    and the given uids without duplicates: a uid is referenced afterwards
    exactly when it was referenced or is one of the given uids; the stored
    list is duplicate-free, the old distinct tracks first and the new
    distinct uids after them; a duplicate-free old list is a prefix of the
    new one.  The seen episodes and the history are not touched. *)
Theorem markTracksAsReferenced_union (trackUids : list string) (ls : LocalStorage) :
  let referenced := getReferencedTracks ls in
  let referenced' := getReferencedTracks (markTracksAsReferenced trackUids ls) in
  NoDup referenced' ∧
  (∀ k, k ∈ referenced' ↔ k ∈ referenced ∨ k ∈ trackUids) ∧
  referenced' = JS.firstOccurrences referenced
                ++ filter (λ k, k ∉ referenced) (JS.firstOccurrences trackUids) ∧
  (NoDup referenced → referenced `prefix_of` referenced') ∧
  getSeenEpisodes (markTracksAsReferenced trackUids ls) = getSeenEpisodes ls ∧
  getStackHistory (markTracksAsReferenced trackUids ls) = getStackHistory ls.
Proof.
  intros referenced referenced'.
  assert (E : referenced' = JS.firstOccurrences (referenced ++ trackUids))
    by apply referenced_after_mark.
  split_and!.
  - rewrite E. apply JSFacts.NoDup_firstOccurrences.
  - intros k. by rewrite E, JSFacts.elem_of_firstOccurrences, elem_of_app.
  - by rewrite E, firstOccurrences_app.
  - intros Hnd. rewrite E, firstOccurrences_app, (firstOccurrences_NoDup _ Hnd).
    by eexists.
  - done.
  - done.
Qed.

Lemma markTracksAsReferenced_union_witness :
  ["a"; "b"] `prefix_of`
    getReferencedTracks (markTracksAsReferenced ["b"; "c"; "c"] oneStackStore).
Proof.
  destruct (markTracksAsReferenced_union ["b"; "c"; "c"] oneStackStore)
    as (_ & _ & _ & Hprefix & _).
  apply Hprefix. simpl. compute_done.
Defined.

(** X2. Marking is idempotent, and marking uids that are all referenced
    already leaves a duplicate-free list of referenced tracks as it is. *)
Theorem markTracksAsReferenced_idempotent (trackUids : list string)
    (ls : LocalStorage) :
  markTracksAsReferenced trackUids (markTracksAsReferenced trackUids ls)
    = markTracksAsReferenced trackUids ls ∧
  (NoDup (getReferencedTracks ls) →
   (∀ k, k ∈ trackUids → k ∈ getReferencedTracks ls) →
   getReferencedTracks (markTracksAsReferenced trackUids ls)
     = getReferencedTracks ls).
Proof.
  assert (Habsorb : ∀ l, NoDup l → (∀ k, k ∈ trackUids → k ∈ l) →
                         JS.firstOccurrences (l ++ trackUids) = l).
  { intros l Hnd Hsub. rewrite firstOccurrences_app, (firstOccurrences_NoDup _ Hnd).
    rewrite filter_none; [by rewrite app_nil_r |].
    intros k Hk Hnot. apply Hnot, Hsub.
    by rewrite JSFacts.elem_of_firstOccurrences in Hk. }
  split.
  - unfold markTracksAsReferenced at 1. rewrite referenced_after_mark.
    unfold markTracksAsReferenced, setReferencedTracks. simpl. f_equal. f_equal.
    rewrite !ofArray_firstOccurrences.
    apply Habsorb; [apply JSFacts.NoDup_firstOccurrences |].
    intros k Hk. apply JSFacts.elem_of_firstOccurrences, elem_of_app. by right.
  - intros Hnd Hsub. rewrite referenced_after_mark. by apply Habsorb.
Qed.

Lemma markTracksAsReferenced_idempotent_witness :
  getReferencedTracks (markTracksAsReferenced ["b"; "a"] oneStackStore) = ["a"; "b"].
Proof.
  destruct (markTracksAsReferenced_idempotent ["b"; "a"] oneStackStore)
    as (_ & Hsame).
  apply Hsame.
  - simpl. compute_done.
  - intros k Hk. simpl. set_solver.
Defined.

(** *** Lookups after an insertion *)

Lemma history_after_save stack ls :
  getStackHistory (saveStackToHistory stack ls)
  = stack :: take 49 (getStackHistory ls).
Proof. reflexivity. Qed.

Lemma find_take_id {A} (p : A → bool) (l : list A) n :
  length l ≤ n → JS.find p (take n l) = JS.find p l.
Proof. intros Hn. by rewrite take_ge. Qed.

(** X3. After [saveStackToHistory] the saved stack is the one
    [getStackById] finds under its id, also when an older stack has the same
    id; looking up another id gives what it gave before, as long as the old
    history had fewer than 50 stacks. *)
Theorem getStackById_after_save (stack : Stack) (ls : LocalStorage) :
  getStackById (id stack) (saveStackToHistory stack ls) = Some stack ∧
  (∀ stackId, stackId ≠ id stack → length (getStackHistory ls) < 50 →
     getStackById stackId (saveStackToHistory stack ls) = getStackById stackId ls).
Proof.
  unfold getStackById. rewrite history_after_save. simpl. split.
  - by rewrite String.eqb_refl.
  - intros stackId Hne Hlen.
    destruct (String.eqb_spec (id stack) stackId); [congruence |].
    apply find_take_id. lia.
Qed.

Lemma getStackById_after_save_witness :
  getStackById "1" (saveStackToHistory freshStack oneStackStore)
    = getStackById "1" oneStackStore.
Proof.
  destruct (getStackById_after_save freshStack oneStackStore) as (_ & Hother).
  apply Hother; [done | simpl; lia].
Defined.

(** X4. After [markEpisodeAsSeen] the path is seen; whether any other path
    is seen has not changed; the old seen list is a prefix of the new one,
    which is at most one longer; referenced tracks and history are not
    touched. *)
Theorem isEpisodeSeen_after_mark (episodePath : string) (ls : LocalStorage) :
  let ls' := markEpisodeAsSeen episodePath ls in
  isEpisodeSeen episodePath ls' = true ∧
  (∀ other, other ≠ episodePath → isEpisodeSeen other ls' = isEpisodeSeen other ls) ∧
  getSeenEpisodes ls `prefix_of` getSeenEpisodes ls' ∧
  length (getSeenEpisodes ls') ≤ S (length (getSeenEpisodes ls)) ∧
  getReferencedTracks ls' = getReferencedTracks ls ∧
  getStackHistory ls' = getStackHistory ls.
Proof.
  intros ls'.
  assert (Hseen : getSeenEpisodes ls'
                  = if JS.includes (getSeenEpisodes ls) episodePath
                    then getSeenEpisodes ls
                    else getSeenEpisodes ls ++ [episodePath]).
  { unfold ls', markEpisodeAsSeen.
    by destruct (JS.includes (getSeenEpisodes ls) episodePath). }
  assert (Hrest : getReferencedTracks ls' = getReferencedTracks ls ∧
                  getStackHistory ls' = getStackHistory ls).
  { unfold ls', markEpisodeAsSeen.
    by destruct (JS.includes (getSeenEpisodes ls) episodePath). }
  destruct Hrest as [Href Hhist]. unfold isEpisodeSeen. rewrite Hseen.
  destruct (JS.includes (getSeenEpisodes ls) episodePath) eqn:Hin.
  - split_and!; try done. lia.
  - split_and!; try done.
    + apply JSFacts.includes_elem_of, elem_of_app. right. by left.
    + intros other Hne.
      destruct (JS.includes (getSeenEpisodes ls) other) eqn:Hother.
      * apply JSFacts.includes_elem_of, elem_of_app. left.
        by apply JSFacts.includes_elem_of.
      * apply JSFacts.includes_false_iff. intros [Hl|Hr]%elem_of_app.
        -- by apply JSFacts.includes_false_iff in Hother.
        -- apply list_elem_of_singleton in Hr. done.
    + by eexists.
    + rewrite length_app. simpl. lia.
Qed.

Lemma isEpisodeSeen_after_mark_witness :
  isEpisodeSeen "/shows/a/episodes/1"
                (markEpisodeAsSeen "/shows/b/episodes/2" oneStackStore)
    = isEpisodeSeen "/shows/a/episodes/1" oneStackStore.
Proof.
  destruct (isEpisodeSeen_after_mark "/shows/b/episodes/2" oneStackStore)
    as (_ & Hother & _).
  by apply Hother.
Defined.

(** *** Committing a stack *)

Lemma history_after_commit stack ls :
  getStackHistory (commitStack stack ls) = stack :: take 49 (getStackHistory ls).
Proof. reflexivity. Qed.

Lemma referenced_after_commit stack ls :
  getReferencedTracks (commitStack stack ls)
  = JS.firstOccurrences (getReferencedTracks ls ++ (uid <$> tracks stack)).
Proof. unfold commitStack. by rewrite referenced_after_mark. Qed.

Lemma seen_after_commit stack ls :
  getSeenEpisodes (commitStack stack ls) = getSeenEpisodes ls.
Proof. reflexivity. Qed.

Lemma elem_of_referenced_after_commit stack ls k :
  k ∈ getReferencedTracks (commitStack stack ls) ↔
  k ∈ getReferencedTracks ls ∨ k ∈ uid <$> tracks stack.
Proof.
  by rewrite referenced_after_commit, JSFacts.elem_of_firstOccurrences, elem_of_app.
Qed.

(** X5. After the page commits a stack, the stack is found under its id,
    every one of its tracks is referenced, whatever was referenced before
    still is, the history has at most 50 stacks and the seen episodes are
    not touched. *)
Theorem commitStack_records (stack : Stack) (ls : LocalStorage) :
  let ls' := commitStack stack ls in
  getStackById (id stack) ls' = Some stack ∧
  (∀ t, t ∈ tracks stack → isTrackReferenced (uid t) ls' = true) ∧
  (∀ k, isTrackReferenced k ls = true → isTrackReferenced k ls' = true) ∧
  length (getStackHistory ls') ≤ 50 ∧
  getSeenEpisodes ls' = getSeenEpisodes ls.
Proof.
  intros ls'. unfold ls', isTrackReferenced. split_and!.
  - unfold getStackById. rewrite history_after_commit. simpl.
    by rewrite String.eqb_refl.
  - intros t Ht. apply JSFacts.includes_elem_of, elem_of_referenced_after_commit.
    right. apply list_elem_of_fmap. by exists t.
  - intros k Hk. apply JSFacts.includes_elem_of, elem_of_referenced_after_commit.
    left. by apply JSFacts.includes_elem_of.
  - rewrite history_after_commit. simpl. rewrite length_take. lia.
  - done.
Qed.

Lemma commitStack_records_witness :
  isTrackReferenced "c" (commitStack freshStack oneStackStore) = true ∧
  isTrackReferenced "a" (commitStack freshStack oneStackStore) = true.
Proof.
  destruct (commitStack_records freshStack oneStackStore)
    as (_ & Hnew & Hold & _).
  split.
  - apply (Hnew (trackWithUid "c")). simpl. by left.
  - by apply Hold.
Defined.

(** *** Invariants of the store *)

Lemma elem_of_remainingKeys stackId history k :
  k ∈ remainingKeys stackId history ↔
  ∃ stack, stack ∈ history ∧ id stack ≠ stackId ∧ k ∈ uid <$> tracks stack.
Proof.
  unfold remainingKeys. rewrite elem_of_union_list. split.
  - intros (X & HX & Hk). apply list_elem_of_fmap in HX as (stack & -> & Hin).
    apply list_elem_of_filter in Hin as [Hid Hin].
    exists stack. split_and!; try done. by apply StorageFacts.elem_of_keysOf.
  - intros (stack & Hin & Hid & Hk). exists (keysOf stack). split.
    + apply list_elem_of_fmap. exists stack. split; [done |].
      by apply list_elem_of_filter.
    + by apply StorageFacts.elem_of_keysOf.
Qed.

(** The store after a deletion, in both cases. *)
Lemma deleteStack_cases stackId ls :
  (getStackById stackId ls = None ∧
   getStackHistory (deleteStack stackId ls) = getStackHistory ls ∧
   getReferencedTracks (deleteStack stackId ls) = getReferencedTracks ls) ∨
  (∃ target,
     getStackById stackId ls = Some target ∧
     target ∈ getStackHistory ls ∧ id target = stackId ∧
     getStackHistory (deleteStack stackId ls)
       = filter (λ s, id s ≠ stackId) (getStackHistory ls) ∧
     ∀ k, k ∈ getReferencedTracks (deleteStack stackId ls) ↔
          k ∈ getReferencedTracks ls ∧
          (k ∉ uid <$> tracks target ∨
           ∃ stack, stack ∈ getStackHistory ls ∧ id stack ≠ stackId ∧
                    k ∈ uid <$> tracks stack)).
Proof.
  destruct (getStackById stackId ls) as [target|] eqn:Hfind.
  - right. exists target.
    destruct (StorageFacts.deleteStack_present stackId ls target Hfind) as [Hh Hr].
    unfold getStackById in Hfind.
    destruct (JSFacts.find_Some _ _ _ Hfind) as (l1 & l2 & Hsplit & Hid & _).
    apply String.eqb_eq in Hid.
    split_and!; try done.
    + rewrite Hsplit. apply elem_of_app. right. by left.
    + intros k. rewrite Hr, list_elem_of_filter, elem_of_remainingKeys.
      unfold deletedKeys. rewrite StorageFacts.elem_of_keysOf. tauto.
  - left. split; [done |]. by apply StorageFacts.deleteStack_absent.
Qed.

Lemma seen_after_delete stackId ls :
  getSeenEpisodes (deleteStack stackId ls) = getSeenEpisodes ls.
Proof.
  unfold deleteStack.
  by destruct (JS.find _ (getStackHistory ls)).
Qed.

Lemma NoDup_referenced_after_delete stackId ls :
  NoDup (getReferencedTracks ls) →
  NoDup (getReferencedTracks (deleteStack stackId ls)).
Proof.
  intros Hnd. destruct (getStackById stackId ls) as [target|] eqn:Hfind.
  - destruct (StorageFacts.deleteStack_present stackId ls target Hfind) as [_ ->].
    by apply NoDup_filter.
  - by destruct (StorageFacts.deleteStack_absent stackId ls Hfind) as [_ ->].
Qed.

Lemma seen_after_mark episodePath ls :
  getSeenEpisodes (markEpisodeAsSeen episodePath ls)
  = if JS.includes (getSeenEpisodes ls) episodePath
    then getSeenEpisodes ls
    else getSeenEpisodes ls ++ [episodePath].
Proof.
  unfold markEpisodeAsSeen.
  by destruct (JS.includes (getSeenEpisodes ls) episodePath).
Qed.

Lemma wellFormed_perform op ls : wellFormed ls → wellFormed (perform op ls).
Proof.
  intros (Hcov & Hr & Hs & Hlen). destruct op as [stack|stackId|episodePath|]; simpl.
  - split_and!.
    + intros s k Hs' Hk. apply elem_of_referenced_after_commit.
      rewrite history_after_commit in Hs'.
      apply elem_of_cons in Hs' as [-> | Hs']; [by right |].
      left. apply (Hcov s k); [| done].
      apply elem_of_take in Hs' as (i & Hi & _).
      by eapply list_elem_of_lookup_2.
    + rewrite referenced_after_commit. apply JSFacts.NoDup_firstOccurrences.
    + by rewrite seen_after_commit.
    + rewrite history_after_commit. simpl. rewrite length_take. lia.
  - split_and!.
    + intros s k Hs' Hk.
      destruct (deleteStack_cases stackId ls)
        as [(_ & Hh & Href) | (target & _ & _ & _ & Hh & Href)].
      * rewrite Hh in Hs'. rewrite Href. by apply (Hcov s k).
      * rewrite Hh in Hs'. apply list_elem_of_filter in Hs' as [Hid Hs'].
        apply Href. split; [by apply (Hcov s k) |]. right. by exists s.
    + by apply NoDup_referenced_after_delete.
    + by rewrite seen_after_delete.
    + destruct (deleteStack_cases stackId ls)
        as [(_ & -> & _) | (target & _ & _ & _ & -> & _)]; [done |].
      etransitivity; [apply length_filter | done].
  - assert (Hrest : getReferencedTracks (markEpisodeAsSeen episodePath ls)
                      = getReferencedTracks ls ∧
                    getStackHistory (markEpisodeAsSeen episodePath ls)
                      = getStackHistory ls).
    { unfold markEpisodeAsSeen.
      by destruct (JS.includes (getSeenEpisodes ls) episodePath). }
    destruct Hrest as [Href Hh]. unfold wellFormed, covered.
    rewrite Href, Hh, seen_after_mark. split_and!; try done.
    destruct (JS.includes (getSeenEpisodes ls) episodePath) eqn:Hin; [done |].
    apply JSFacts.includes_false_iff in Hin.
    apply NoDup_app. split_and!; [done | | apply NoDup_singleton].
    intros x Hx Hx'. apply list_elem_of_singleton in Hx'. by subst.
  - split_and!; try done; try constructor.
    + intros s k Hs'. inversion Hs'.
    + simpl. lia.
Qed.

(** X6. Whatever sequence of commits, deletions, seen marks and resets the
    page performs on a fresh browser, the store is well formed afterwards:
    every track of every stack in the history is referenced, the referenced
    tracks and the seen episodes have no duplicates, and the history has at
    most 50 stacks.  Each operation keeps a well-formed store well formed. *)
Theorem store_always_wellFormed (ops : list Operation) :
  wellFormed (performAll ops emptyStorage) ∧
  (∀ ls, wellFormed ls → wellFormed (performAll ops ls)).
Proof.
  assert (Hall : ∀ ls, wellFormed ls → wellFormed (performAll ops ls)).
  { unfold performAll. induction ops as [|op ops IH]; intros ls Hwf; [done |].
    simpl. by apply IH, wellFormed_perform. }
  split; [| done]. apply Hall.
  split_and!; try constructor.
  - intros s k Hs. inversion Hs.
  - simpl. lia.
Qed.

Lemma oneStackStore_wellFormed : wellFormed oneStackStore.
Proof.
  split_and!.
  - intros stack k Hs Hk. simpl in Hs.
    apply list_elem_of_singleton in Hs as ->. exact Hk.
  - simpl. compute_done.
  - simpl. compute_done.
  - simpl. lia.
Qed.

Lemma store_always_wellFormed_witness :
  wellFormed (performAll [OpCommit freshStack; OpDelete "1"; OpSeen "/p"]
                         oneStackStore).
Proof.
  destruct (store_always_wellFormed [OpCommit freshStack; OpDelete "1"; OpSeen "/p"])
    as (_ & Hkeep).
  apply Hkeep, oneStackStore_wellFormed.
Defined.

(** *** Reference safety *)

Lemma same_id_same_stack (history : list Stack) s1 s2 :
  NoDup (id <$> history) → s1 ∈ history → s2 ∈ history → id s1 = id s2 → s1 = s2.
Proof.
  induction history as [|s history IH]; intros Hnd H1 H2 Hid; [inversion H1 |].
  rewrite fmap_cons in Hnd. apply NoDup_cons in Hnd as [Hs Hnd].
  apply elem_of_cons in H1 as [-> | H1]; apply elem_of_cons in H2 as [-> | H2].
  - done.
  - destruct Hs. rewrite Hid. apply list_elem_of_fmap. by exists s2.
  - destruct Hs. rewrite <- Hid. apply list_elem_of_fmap. by exists s1.
  - by apply IH.
Qed.

(** X7. Reference safety: on a store whose referenced tracks are exactly the
    tracks of the stacks in its history, deleting a stack leaves the
    referenced tracks exactly the tracks of the remaining stacks, provided
    the stacks of the history have distinct ids; committing a stack keeps
    the property as long as the history had fewer than 50 stacks. *)
Theorem reference_safety (ls : LocalStorage) :
  exact ls →
  (∀ stackId, NoDup (id <$> getStackHistory ls) → exact (deleteStack stackId ls)) ∧
  (∀ stack, length (getStackHistory ls) < 50 → exact (commitStack stack ls)).
Proof.
  intros Hexact. split.
  - intros stackId Hids k.
    destruct (deleteStack_cases stackId ls)
      as [(_ & Hh & Href) | (target & _ & Htarget & Hid & Hh & Href)].
    + rewrite Hh, Href. apply Hexact.
    + rewrite Hh, Href. split.
      * intros [Hk [Hnot | (stack & Hin & Hne & Hks)]].
        -- apply Hexact in Hk as (stack & Hin & Hks). exists stack.
           split; [| done]. apply list_elem_of_filter. split; [| done].
           intros Hsame. apply Hnot.
           by rewrite <- (same_id_same_stack _ stack target Hids Hin Htarget)
             by congruence.
        -- exists stack. split; [| done]. by apply list_elem_of_filter.
      * intros (stack & Hin & Hks). apply list_elem_of_filter in Hin as [Hne Hin].
        split; [apply Hexact; by exists stack |]. right. by exists stack.
  - intros stack Hlen k.
    rewrite elem_of_referenced_after_commit, history_after_commit.
    rewrite take_ge by lia. rewrite (Hexact k). split.
    + intros [(s & Hin & Hk) | Hk].
      * exists s. split; [by right | done].
      * exists stack. split; [by left | done].
    + intros (s & [-> | Hin]%elem_of_cons & Hk); [by right |].
      left. by exists s.
Qed.

Lemma oneStackStore_exact : exact oneStackStore.
Proof.
  intros k. simpl. split.
  - intros Hk. exists (stackWith "1" [trackWithUid "a"; trackWithUid "b"]).
    split; [by left | exact Hk].
  - intros (stack & Hs & Hk). apply list_elem_of_singleton in Hs as ->. exact Hk.
Qed.

Lemma reference_safety_witness :
  exact (deleteStack "1" oneStackStore) ∧ exact (commitStack freshStack oneStackStore).
Proof.
  destruct (reference_safety oneStackStore oneStackStore_exact) as (Hdel & Hcommit).
  split.
  - apply Hdel. simpl. compute_done.
  - apply Hcommit. simpl. lia.
Defined.

(** X8. The 50-stack bound leaks references: when a commit drops the oldest
    stack from a history of 50, a track of the dropped stack that no kept
    stack and not the new stack contains stays referenced although no stack
    of the history contains it, and it is still referenced after any
    deletion. *)
Theorem dropped_stack_stays_referenced (stack oldest : Stack) (ls : LocalStorage)
    (k : string) :
  length (getStackHistory ls) = 50 →
  last (getStackHistory ls) = Some oldest →
  k ∈ uid <$> tracks oldest →
  k ∈ getReferencedTracks ls →
  k ∉ uid <$> tracks stack →
  (∀ kept, kept ∈ take 49 (getStackHistory ls) → k ∉ uid <$> tracks kept) →
  let ls' := commitStack stack ls in
  getStackHistory ls' = stack :: take 49 (getStackHistory ls) ∧
  getStackHistory ls = take 49 (getStackHistory ls) ++ [oldest] ∧
  k ∈ getReferencedTracks ls' ∧
  (¬ ∃ s, s ∈ getStackHistory ls' ∧ k ∈ uid <$> tracks s) ∧
  (∀ stackId, k ∈ getReferencedTracks (deleteStack stackId ls')).
Proof.
  intros Hlen Hlast Hk Href Hnew Hkept ls'.
  assert (Hnone : ¬ ∃ s, s ∈ getStackHistory ls' ∧ k ∈ uid <$> tracks s).
  { intros (s & Hin & Hks). unfold ls' in Hin. rewrite history_after_commit in Hin.
    apply elem_of_cons in Hin as [-> | Hin]; [done |]. by apply (Hkept s). }
  assert (Href' : k ∈ getReferencedTracks ls').
  { apply elem_of_referenced_after_commit. by left. }
  split_and!; try done.
  - apply last_Some in Hlast as (l' & Hl'). rewrite Hl'.
    rewrite Hl', length_app in Hlen. simpl in Hlen.
    rewrite take_app_length' by lia. done.
  - intros stackId.
    destruct (deleteStack_cases stackId ls')
      as [(_ & _ & ->) | (target & _ & Htarget & _ & _ & Hdel)]; [done |].
    apply Hdel. split; [done |]. left. intros Hkt. apply Hnone. by exists target.
Qed.

Lemma dropped_stack_stays_referenced_witness :
  "k" ∈ getReferencedTracks (commitStack freshStack fullStore) ∧
  ¬ (∃ s, s ∈ getStackHistory (commitStack freshStack fullStore) ∧
          "k" ∈ uid <$> tracks s).
Proof.
  destruct (dropped_stack_stays_referenced freshStack
              (stackWith "first" [trackWithUid "k"]) fullStore "k")
    as (_ & _ & Href & Hnone & _).
  - reflexivity.
  - reflexivity.
  - simpl. by left.
  - simpl. by left.
  - simpl. compute_done.
  - intros kept Hkept. vm_compute in Hkept.
    assert (kept = emptyStack "old") as ->.
    { repeat (apply elem_of_cons in Hkept as [-> | Hkept]; [reflexivity |]).
      inversion Hkept. }
    simpl. intros H. inversion H.
  - by split.
Defined.

(** X9. Committing a stack and then deleting it is a round trip on the
    history and on the referenced tracks, when the history had fewer than 50
    stacks, none with the stack's id, and none of the stack's tracks was
    referenced (the store being well formed). *)
Theorem commit_then_delete (stack : Stack) (ls : LocalStorage) :
  wellFormed ls →
  length (getStackHistory ls) < 50 →
  (∀ s, s ∈ getStackHistory ls → id s ≠ id stack) →
  (∀ t, t ∈ tracks stack → uid t ∉ getReferencedTracks ls) →
  let ls' := deleteStack (id stack) (commitStack stack ls) in
  getStackHistory ls' = getStackHistory ls ∧
  getReferencedTracks ls' = getReferencedTracks ls ∧
  getSeenEpisodes ls' = getSeenEpisodes ls.
Proof.
  intros (Hcov & Hnd & _ & _) Hlen Hfresh Hnew ls'.
  assert (Hfind : getStackById (id stack) (commitStack stack ls) = Some stack).
  { unfold getStackById. rewrite history_after_commit. simpl.
    by rewrite String.eqb_refl. }
  destruct (StorageFacts.deleteStack_present _ _ _ Hfind) as [Hh Hr].
  fold ls' in Hh, Hr. rewrite history_after_commit, take_ge in Hh, Hr by lia.
  assert (Hnew' : ∀ k, k ∈ uid <$> tracks stack → k ∉ getReferencedTracks ls).
  { intros k (t & -> & Ht)%list_elem_of_fmap. by apply Hnew. }
  split_and!.
  - rewrite Hh, filter_cons_False by (by intros ?).
    by apply StorageFacts.filter_all.
  - rewrite Hr, referenced_after_commit, firstOccurrences_app.
    rewrite (firstOccurrences_NoDup _ Hnd), filter_app.
    rewrite (StorageFacts.filter_all _ (getReferencedTracks ls)).
    + rewrite filter_none; [by rewrite app_nil_r |].
      intros k [Hk Hkin]%list_elem_of_filter [Hnot | Hrem].
      * apply Hnot. unfold deletedKeys. apply StorageFacts.elem_of_keysOf.
        by rewrite JSFacts.elem_of_firstOccurrences in Hkin.
      * apply elem_of_remainingKeys in Hrem as (s & Hin & Hid & Hks).
        apply elem_of_cons in Hin as [-> | Hin]; [done |].
        apply Hk, (Hcov s k); done.
    + intros k Hk. left. unfold deletedKeys.
      rewrite StorageFacts.elem_of_keysOf. intros Hin. by apply (Hnew' k).
  - unfold ls'. by rewrite seen_after_delete.
Qed.

Lemma commit_then_delete_witness :
  getStackHistory (deleteStack "2" (commitStack freshStack oneStackStore))
    = getStackHistory oneStackStore ∧
  getReferencedTracks (deleteStack "2" (commitStack freshStack oneStackStore))
    = ["a"; "b"].
Proof.
  destruct (commit_then_delete freshStack oneStackStore) as (Hh & Hr & _).
  - apply oneStackStore_wellFormed.
  - simpl. lia.
  - intros s Hs. simpl in Hs. apply list_elem_of_singleton in Hs as ->. done.
  - intros t Ht. simpl in Ht.
    assert (t = trackWithUid "c") as ->.
    { repeat (apply elem_of_cons in Ht as [-> | Ht]; [reflexivity |]).
      inversion Ht. }
    simpl. compute_done.
  - by split.
Defined.

(** X10. Deleting is idempotent: deleting the same id a second time leaves
    the store exactly as the first deletion left it, and after a deletion
    no stack is found under the id. *)
Theorem deleteStack_idempotent (stackId : string) (ls : LocalStorage) :
  getStackById stackId (deleteStack stackId ls) = None ∧
  deleteStack stackId (deleteStack stackId ls) = deleteStack stackId ls.
Proof.
  assert (Hh : getStackHistory (deleteStack stackId ls)
               = filter (λ s, id s ≠ stackId) (getStackHistory ls)) by reflexivity.
  assert (Hnone : getStackById stackId (deleteStack stackId ls) = None).
  { apply StorageFacts.getStackById_None. intros s Hs. rewrite Hh in Hs.
    by apply list_elem_of_filter in Hs as [? _]. }
  split; [done |].
  unfold getStackById in Hnone.
  unfold deleteStack at 1. rewrite Hnone, Hh.
  rewrite list_filter_filter.
  rewrite (list_filter_iff _ (λ s, id s ≠ stackId)) by tauto.
  unfold deleteStack, setStackHistory.
  by destruct (JS.find _ (getStackHistory ls)).
Qed.

End StorageRestFacts.

(** ** create-stack/route.js, the handler as a whole *)
Module HandlerFacts.
Import CreateStack Scenarios MoreScenarios.

Section Handler.
Variable w : World.

Lemma episodesUsed_copy (l : list Episode) :
  (λ ep, {| ep_path := ep_path ep; ep_title := ep_title ep;
            ep_airDate := ep_airDate ep; ep_source := ep_source ep |}) <$> l = l.
Proof.
  induction l as [|[] l IH]; [done |]. rewrite fmap_cons, IH. done.
Qed.

(** What a stack answered by [buildStack] is made of. *)
Lemma buildStack_stack (body : Body) (stack : Stack) :
  buildStack w body = Resolved (StackResponse stack) →
  ∃ spotifyToken,
    ¬ noSeeds body ∧ ¬ noNewEpisodes w body ∧
    getSpotifyToken w = Resolved spotifyToken ∧
    enrichTracks w spotifyToken (survivingTracks w body) = Resolved (tracks stack) ∧
    episodesUsed stack
      = uniqueEpisodesOf (episodeResultsOf w (body_tracks body) (body_genres body)
                                           (body_seenEpisodes body)) ∧
    id stack = dateNow w ∧ createdAt stack = dateNowISO w ∧
    src_tracks (sources stack) = body_tracks body ∧
    src_genres (sources stack) = genreNameOf <$> body_genres body ∧
    name stack = Storage.generateStackName (sources stack).
Proof.
  intros Hbuild.
  destruct (CreateStackFacts.buildStack_outcome w body)
    as [(_ & Hb) | [(_ & _ & Hb) | [(_ & _ & _ & Hb)
       | [(tok & _ & _ & _ & _ & Hb)
       | (tok & tws & stack' & Hs & Hn & Htok & He & Htracks & Hb)]]]];
    try congruence.
  assert (Hfields :
    episodesUsed stack
      = (λ ep, {| ep_path := ep_path ep; ep_title := ep_title ep;
                  ep_airDate := ep_airDate ep; ep_source := ep_source ep |})
          <$> uniqueEpisodesOf (episodeResultsOf w (body_tracks body)
                                  (body_genres body) (body_seenEpisodes body)) ∧
    id stack = dateNow w ∧ createdAt stack = dateNowISO w ∧
    src_tracks (sources stack)
      = (λ t, {| seed_artist := seed_artist t; seed_title := seed_title t |})
          <$> body_tracks body ∧
    src_genres (sources stack) = genreNameOf <$> body_genres body ∧
    name stack = Storage.generateStackName (sources stack)).
  { clear Hb. unfold buildStack in Hbuild.
    destruct (_ && _); [discriminate |].
    destruct (length (uniqueEpisodesOf _) =? 0)%nat; [discriminate |].
    rewrite Htok in Hbuild. simpl in Hbuild.
    destruct (enrichTracks w tok _); [| discriminate].
    simpl in Hbuild. by injection Hbuild as <-. }
  destruct Hfields as (Heps & Hid & Hcreated & Hseeds & Hgenres & Hname).
  exists tok. split_and!; try done.
  - rewrite Hbuild in Hb. injection Hb as ->. by rewrite Htracks.
  - by rewrite Heps, episodesUsed_copy.
  - rewrite Hseeds. clear.
    induction (body_tracks body) as [|[] l IH]; [done |].
    rewrite fmap_cons, IH. done.
Qed.

Lemma POST_stack (request : Promise Body) (stack : Stack) :
  POST w request = StackResponse stack →
  ∃ body, request = Resolved body ∧
          buildStack w body = Resolved (StackResponse stack).
Proof.
  destruct request as [body|]; [| discriminate].
  rewrite CreateStackFacts.POST_resolved. intros Hpost. exists body. split; [done |].
  destruct (buildStack w body) as [r|]; [| discriminate]. simpl in Hpost. by subst.
Qed.

(** *** What a seed contributes *)

Lemma trackSeed_contribution artist title seenEpisodes ep :
  ep ∈ catch (fetchEpisodesForTrack w artist title seenEpisodes) [] →
  (ep_path ep ∉ seenEpisodes) ∧
  ∃ data r, ntsSearch w (trackQuery artist title) = FetchOk data ∧
            r ∈ default [] data ∧ ep = trackEpisode artist title r.
Proof.
  unfold fetchEpisodesForTrack.
  destruct (ntsSearch w (trackQuery artist title)) as [| |data] eqn:E;
    cbn [catch]; try by intros H; inversion H.
  unfold JS.slice0. rewrite (CreateStackFacts.unseen_filter tr_article_path).
  intros (r & -> & Hr)%list_elem_of_fmap.
  apply elem_of_take in Hr as (i & Hr & _).
  apply list_elem_of_lookup_2, list_elem_of_filter in Hr as [Hunseen Hr].
  split; [done |]. exists data, r. split_and!; try done.
  by rewrite JSFacts.elem_of_sort in Hr.
Qed.

Lemma genreSeed_contribution genreId seenEpisodes ep :
  ep ∈ catch (fetchEpisodesForGenre w genreId seenEpisodes) [] →
  (ep_path ep ∉ seenEpisodes) ∧
  ∃ data r, ntsGenreSearch w genreId = FetchOk data ∧
            r ∈ default [] data ∧ ep = genreEpisode genreId r.
Proof.
  unfold fetchEpisodesForGenre.
  destruct (ntsGenreSearch w genreId) as [| |data] eqn:E;
    cbn [catch]; try by intros H; inversion H.
  unfold JS.slice0. rewrite (CreateStackFacts.unseen_filter gr_article_path).
  intros (r & -> & Hr)%list_elem_of_fmap.
  apply elem_of_take in Hr as (i & Hr & _).
  apply list_elem_of_lookup_2, list_elem_of_filter in Hr as [Hunseen Hr].
  split; [done |]. by exists data, r.
Qed.

Lemma seed_contribution_bound tracks genres seenEpisodes :
  Forall (λ episodes, length episodes ≤ 5)
         (episodeResultsOf w tracks genres seenEpisodes).
Proof.
  rewrite CreateStackFacts.episodeResultsOf_per_seed.
  apply Forall_app. split; apply Forall_fmap, Forall_forall; intros x _; simpl.
  - unfold fetchEpisodesForTrack.
    destruct (ntsSearch w _); cbn [catch length]; try lia.
    unfold JS.slice0. rewrite length_fmap, length_take. lia.
  - unfold fetchEpisodesForGenre.
    destruct (ntsGenreSearch w _); cbn [catch length]; try lia.
    unfold JS.slice0. rewrite length_fmap, length_take. lia.
Qed.

Lemma elem_of_uniqueEpisodes episodeResults ep :
  ep ∈ uniqueEpisodesOf episodeResults → ep ∈ mjoin episodeResults.
Proof.
  unfold uniqueEpisodesOf, JS.mapValues.
  intros ([k v] & -> & Hkv)%list_elem_of_fmap.
  apply JSFacts.elem_of_mapOfEntries, last_Some_elem_of in Hkv.
  apply list_elem_of_filter in Hkv as [_ Hkv].
  by apply list_elem_of_fmap in Hkv as (ep' & [= _ ->] & Hep).
Qed.

Lemma length_firstOccurrences l : length (JS.firstOccurrences l) ≤ length l.
Proof.
  induction l as [|x l IH]; simpl; [done |].
  pose proof (length_filter (λ y, y ≠ x) (JS.firstOccurrences l)). lia.
Qed.

Lemma length_uniqueEpisodes episodeResults :
  length (uniqueEpisodesOf episodeResults) ≤ length (mjoin episodeResults).
Proof.
  rewrite <- (length_fmap ep_path), CreateStackFacts.uniqueEpisodes_paths.
  etransitivity; [apply length_firstOccurrences |]. by rewrite length_fmap.
Qed.

Lemma length_join_bound {A} (ls : list (list A)) n :
  Forall (λ l, length l ≤ n) ls → length (mjoin ls) ≤ n * length ls.
Proof.
  induction 1 as [|l ls Hl _ IH]; simpl; [lia |].
  rewrite length_app. lia.
Qed.

(** *** What the collected tracks are *)

Lemma allTracksOf_join referencedTracks tracklistResults :
  allTracksOf referencedTracks tracklistResults
  = mjoin (contributionOf referencedTracks <$> tracklistResults).
Proof.
  unfold allTracksOf.
  enough (H : ∀ acc,
    foldl (λ allTracks '(episode, tracks),
             foldl (λ allTracks track,
                      if negb (JS.includes referencedTracks (te_uid track))
                      then JS.push allTracks (collectedTrack episode track)
                      else allTracks) allTracks tracks)
          acc tracklistResults
    = acc ++ mjoin (contributionOf referencedTracks <$> tracklistResults))
    by apply (H []).
  induction tracklistResults as [|[episode tracks] rest IH]; intros acc; simpl.
  - by rewrite app_nil_r.
  - by rewrite IH, CreateStackFacts.inner_loop_collects, <- app_assoc.
Qed.

(** A surviving track is an unreferenced track of the tracklist of one of
    the unique episodes, with that episode's data. *)
Lemma elem_of_survivingTracks body t :
  t ∈ survivingTracks w body →
  (ct_uid t ∉ body_referencedTracks body) ∧
  ∃ episode,
    episode ∈ uniqueEpisodesOf (episodeResultsOf w (body_tracks body)
                                  (body_genres body) (body_seenEpisodes body)) ∧
    ct_episodePath t = ep_path episode ∧ ct_episodeTitle t = ep_title episode ∧
    ct_airDate t = ep_airDate episode ∧ ct_source t = ep_source episode.
Proof.
  unfold survivingTracks.
  rewrite allTracksOf_join, CreateStackFacts.tracklistResultsOf_per_episode.
  rewrite <- list_fmap_compose. intros (l & Ht & Hl)%list_elem_of_join.
  apply list_elem_of_fmap in Hl as (episode & -> & Hep).
  unfold contributionOf, unreferenced in Ht. simpl in Ht.
  apply list_elem_of_fmap in Ht as (track & -> & Htrack).
  apply list_elem_of_filter in Htrack as [Hunref Htrack].
  split; [done |]. exists episode. split_and!; try done. simpl.
  unfold fetchTracklist in Htrack.
  destruct (ntsTracklist w (ep_path episode)) as [| |data]; simpl in Htrack;
    try by inversion Htrack.
  by apply list_elem_of_fmap in Htrack as (raw & -> & _).
Qed.

(** *** The handler's answers *)

(** X11. The answer of the handler, case by case and whatever the services
    do: 400 exactly when the body was read and holds no seed; 404 exactly
    when there are seeds and every seed contributed no episode; 500 exactly
    when the body cannot be read, or, with seeds and episodes, the Spotify
    token call fails or the Spotify search of one surviving track is
    rejected; a stack in every other case. *)
Theorem response_classification (request : Promise Body) :
  (POST w request = ErrorResponse 400 "Must provide at least one track or genre" ↔
     ∃ body, request = Resolved body ∧ noSeeds body) ∧
  (POST w request
     = ErrorResponse 404 "No episodes found. All episodes may have been seen already." ↔
     ∃ body, request = Resolved body ∧ ¬ noSeeds body ∧ noNewEpisodes w body) ∧
  (POST w request = ErrorResponse 500 "Failed to create stack" ↔
     request = Rejected ∨
     ∃ body, request = Resolved body ∧ ¬ noSeeds body ∧ ¬ noNewEpisodes w body ∧
       (getSpotifyToken w = Rejected ∨
        ∃ spotifyToken t,
          getSpotifyToken w = Resolved spotifyToken ∧
          t ∈ survivingTracks w body ∧
          spotifySearch w (spotifyQuery t) spotifyToken = FetchRejected)) ∧
  ((∃ stack, POST w request = StackResponse stack) ↔
     ∃ body spotifyToken,
       request = Resolved body ∧ ¬ noSeeds body ∧ ¬ noNewEpisodes w body ∧
       getSpotifyToken w = Resolved spotifyToken ∧
       ∀ t, t ∈ survivingTracks w body →
            spotifySearch w (spotifyQuery t) spotifyToken ≠ FetchRejected).
Proof.
  destruct request as [body|]; [| split_and!; naive_solver].
  rewrite CreateStackFacts.POST_resolved.
  pose proof (CreateStackFacts.enrichTracks_rejected w) as Hrejected.
  destruct (CreateStackFacts.buildStack_outcome w body)
    as [(Hs & ->) | [(Hs & Hn & ->) | [(Hs & Hn & Htok & ->)
       | [(tok & Hs & Hn & Htok & He & ->)
       | (tok & tws & stack & Hs & Hn & Htok & He & _ & ->)]]]]; cbn [catch].
  - split_and!; naive_solver.
  - split_and!; naive_solver.
  - split_and!; naive_solver congruence.
  - apply Hrejected in He as (t & Ht & Hrej). clear Hrejected.
    split_and!; [naive_solver | naive_solver | |].
    + split; [| done]. intros _. right. exists body. split_and!; try done.
      right. by exists tok, t.
    + split; [by intros (st & Hst) |].
      intros (b & tok' & [= <-] & _ & _ & Htok' & Hquiet).
      assert (tok' = tok) as -> by congruence. by destruct (Hquiet t Ht).
  - assert (Hquiet : ∀ t, t ∈ survivingTracks w body →
                          spotifySearch w (spotifyQuery t) tok ≠ FetchRejected).
    { intros t Ht Hrej.
      assert (Hall : enrichTracks w tok (survivingTracks w body) = Rejected)
        by (apply Hrejected; by exists t).
      congruence. }
    clear Hrejected He.
    split_and!; [naive_solver | naive_solver | |].
    + split; [discriminate |].
      intros [Hr | (b & [= <-] & _ & _ & [Hrej | (tok' & t & Htok' & Ht & Hrej)])];
        [done | congruence |].
      assert (tok' = tok) as -> by congruence. by destruct (Hquiet t Ht).
    + split; [| intros _; by exists stack].
      intros _. by exists body, tok.
Qed.

(** X12. A stack the handler answers with never resurfaces exposed
    material: none of its tracks has a uid among the request's referenced
    tracks, and none of the episodes it used has a path among the request's
    seen episodes. *)
Theorem stack_has_nothing_exposed (request : Promise Body) (stack : Stack) :
  POST w request = StackResponse stack →
  ∃ body, request = Resolved body ∧
    (∀ t, t ∈ tracks stack → uid t ∉ body_referencedTracks body) ∧
    (∀ ep, ep ∈ episodesUsed stack → ep_path ep ∉ body_seenEpisodes body).
Proof.
  intros (body & -> & Hbuild)%POST_stack. exists body. split; [done |].
  destruct (buildStack_stack body stack Hbuild)
    as (tok & _ & _ & _ & He & Heps & _).
  split.
  - intros t' Ht'.
    destruct (CreateStackFacts.enrichTracks_resolved w tok (survivingTracks w body))
      as (out & Hout & Hall).
    { intros t Ht Hrej.
      assert (Hrejected : enrichTracks w tok (survivingTracks w body) = Rejected)
        by (apply CreateStackFacts.enrichTracks_rejected; by exists t).
      congruence. }
    assert (out = tracks stack) as -> by congruence.
    apply list_elem_of_lookup in Ht' as (i & Hi).
    destruct (Forall2_lookup_r _ _ _ _ _ Hall Hi) as (t & Hti & (Huid & _) & _).
    rewrite Huid. apply elem_of_survivingTracks.
    by eapply list_elem_of_lookup_2.
  - intros ep Hep. rewrite Heps in Hep.
    apply elem_of_uniqueEpisodes, list_elem_of_join in Hep as (eps & Hep & Heps').
    rewrite CreateStackFacts.episodeResultsOf_per_seed in Heps'.
    apply elem_of_app in Heps' as [Hin | Hin];
      apply list_elem_of_fmap in Hin as (seed & -> & _).
    + by apply trackSeed_contribution in Hep as [? _].
    + by apply genreSeed_contribution in Hep as [? _].
Qed.

(** X13. The episodes of a stack: at least one and at most five per seed,
    no path twice; every track of the stack belongs to one of them, whose
    path, title, air date and source it carries. *)
Theorem stack_episodes (request : Promise Body) (stack : Stack) :
  POST w request = StackResponse stack →
  ∃ body, request = Resolved body ∧
    1 ≤ length (episodesUsed stack) ∧
    length (episodesUsed stack)
      ≤ 5 * (length (body_tracks body) + length (body_genres body)) ∧
    NoDup (ep_path <$> episodesUsed stack) ∧
    (∀ t, t ∈ tracks stack →
       ∃ episode, episode ∈ episodesUsed stack ∧
                  episodePath t = ep_path episode ∧
                  episodeTitle t = ep_title episode ∧
                  airDate t = ep_airDate episode ∧ source t = ep_source episode).
Proof.
  intros (body & -> & Hbuild)%POST_stack. exists body. split; [done |].
  destruct (buildStack_stack body stack Hbuild)
    as (tok & _ & Hnew & _ & He & Heps & _).
  split_and!.
  - rewrite Heps. destruct (uniqueEpisodesOf _) eqn:Hu; [| simpl; lia].
    destruct Hnew. by apply CreateStackFacts.uniqueEpisodes_nil.
  - rewrite Heps. etransitivity; [apply length_uniqueEpisodes |].
    etransitivity; [apply length_join_bound, seed_contribution_bound |].
    by rewrite CreateStackFacts.episodeResultsOf_per_seed, length_app, !length_fmap.
  - rewrite Heps, CreateStackFacts.uniqueEpisodes_paths.
    apply JSFacts.NoDup_firstOccurrences.
  - intros t' Ht'.
    destruct (CreateStackFacts.enrichTracks_resolved w tok (survivingTracks w body))
      as (out & Hout & Hall).
    { intros t Ht Hrej.
      assert (Hrejected : enrichTracks w tok (survivingTracks w body) = Rejected)
        by (apply CreateStackFacts.enrichTracks_rejected; by exists t).
      congruence. }
    assert (out = tracks stack) as -> by congruence.
    apply list_elem_of_lookup in Ht' as (i & Hi).
    destruct (Forall2_lookup_r _ _ _ _ _ Hall Hi)
      as (t & Hti & (_ & _ & _ & Hp & Htitle & Hdate & Hsrc) & _).
    apply list_elem_of_lookup_2, elem_of_survivingTracks in Hti
      as (_ & episode & Hin & Hp' & Htitle' & Hdate' & Hsrc').
    exists episode. rewrite Heps. split_and!; congruence.
Qed.

(** X14. When everything the searches return was already seen, the handler
    answers 404: with at least one seed, if the path of every result of
    every seed's search is among the seen episodes, the answer is the "No
    episodes found" error. *)
Theorem everything_seen_404 (body : Body) :
  ¬ noSeeds body →
  (∀ seed data r, seed ∈ body_tracks body →
     ntsSearch w (trackQuery (seed_artist seed) (seed_title seed)) = FetchOk data →
     r ∈ default [] data → tr_article_path r ∈ body_seenEpisodes body) →
  (∀ genre data r, genre ∈ body_genres body →
     ntsGenreSearch w (genreIdOf genre) = FetchOk data →
     r ∈ default [] data → gr_article_path r ∈ body_seenEpisodes body) →
  POST w (Resolved body)
  = ErrorResponse 404 "No episodes found. All episodes may have been seen already.".
Proof.
  intros Hseeds Htracks Hgenres.
  assert (Hnone : noNewEpisodes w body).
  { unfold noNewEpisodes. rewrite CreateStackFacts.episodeResultsOf_per_seed.
    apply Forall_app. split; apply Forall_fmap, Forall_forall; intros seed Hseed;
      simpl.
    - destruct (catch _ _) as [|ep eps] eqn:Hc; [done |].
      assert (Hep : ep ∈ catch (fetchEpisodesForTrack w (seed_artist seed)
                                  (seed_title seed) (body_seenEpisodes body)) [])
        by (rewrite Hc; by left).
      apply trackSeed_contribution in Hep as (Hunseen & data & r & Hd & Hr & ->).
      destruct Hunseen. by apply (Htracks seed data r).
    - destruct (catch _ _) as [|ep eps] eqn:Hc; [done |].
      assert (Hep : ep ∈ catch (fetchEpisodesForGenre w (genreIdOf seed)
                                  (body_seenEpisodes body)) [])
        by (rewrite Hc; by left).
      apply genreSeed_contribution in Hep as (Hunseen & data & r & Hd & Hr & ->).
      destruct Hunseen. by apply (Hgenres seed data r). }
  rewrite CreateStackFacts.POST_resolved.
  destruct (CreateStackFacts.buildStack_outcome w body)
    as [(Hs & _) | [(_ & _ & ->) | [(_ & Hn & _)
       | [(tok & _ & Hn & _) | (tok & tws & stack & _ & Hn & _)]]]]; done.
Qed.

(** X15. The tracks of a stack are the surviving tracks, one for one and in
    order, each with the seven fields of the surviving track; [spotify] is
    present exactly on the tracks whose Spotify search returned an item. *)
Theorem stack_tracks (request : Promise Body) (stack : Stack) :
  POST w request = StackResponse stack →
  ∃ body spotifyToken,
    request = Resolved body ∧ getSpotifyToken w = Resolved spotifyToken ∧
    Forall2 (λ t t', sameFields t t' ∧
                     (is_Some (spotify t') ↔ is_Some (enricherMatch w spotifyToken t)))
            (survivingTracks w body) (tracks stack).
Proof.
  intros (body & -> & Hbuild)%POST_stack.
  destruct (buildStack_stack body stack Hbuild) as (tok & _ & _ & Htok & He & _).
  exists body, tok. split_and!; try done.
  destruct (CreateStackFacts.enrichTracks_resolved w tok (survivingTracks w body))
    as (out & Hout & Hall).
  { intros t Ht Hrej.
    assert (Hrejected : enrichTracks w tok (survivingTracks w body) = Rejected)
      by (apply CreateStackFacts.enrichTracks_rejected; by exists t).
    congruence. }
  by assert (out = tracks stack) as <- by congruence.
Qed.

End Handler.

Lemma houseBody_stack :
  ∃ stack, POST quietWorld (Resolved houseBody) = StackResponse stack.
Proof. vm_compute. by eexists. Qed.

Lemma response_classification_witness :
  POST quietWorld (Resolved allSeenBody)
  = ErrorResponse 404 "No episodes found. All episodes may have been seen already.".
Proof.
  destruct (response_classification quietWorld (Resolved allSeenBody))
    as (_ & H404 & _).
  apply H404. exists allSeenBody. split_and!; [done | by intros [? _] |].
  vm_compute. by repeat constructor.
Defined.

Lemma stack_has_nothing_exposed_witness :
  ∃ stack, POST quietWorld (Resolved houseBody) = StackResponse stack ∧
           (∀ t, t ∈ tracks stack → uid t ∉ ["uid-9"]) ∧
           (∀ ep, ep ∈ episodesUsed stack → ep_path ep ∉ ["/shows/a/episodes/1"]).
Proof.
  destruct houseBody_stack as (stack & Hstack). exists stack. split; [done |].
  destruct (stack_has_nothing_exposed quietWorld _ _ Hstack)
    as (body & [= <-] & Htracks & Heps).
  by split.
Defined.

Lemma stack_episodes_witness :
  ∃ stack, POST quietWorld (Resolved houseBody) = StackResponse stack ∧
           1 ≤ length (episodesUsed stack) ≤ 5 ∧
           NoDup (ep_path <$> episodesUsed stack).
Proof.
  destruct houseBody_stack as (stack & Hstack). exists stack. split; [done |].
  destruct (stack_episodes quietWorld _ _ Hstack)
    as (body & [= <-] & Hone & Hfive & Hnd & _).
  by split_and!.
Defined.

Lemma everything_seen_404_witness :
  POST radioWorld (Resolved allSeenBody)
  = ErrorResponse 404 "No episodes found. All episodes may have been seen already.".
Proof.
  apply everything_seen_404.
  - by intros [? _].
  - intros seed data r Hseed. simpl in Hseed.
    apply list_elem_of_singleton in Hseed as ->.
    intros [= <-] Hr. simpl in Hr.
    apply elem_of_cons in Hr as [-> | Hr]; [simpl; compute_done |].
    apply list_elem_of_singleton in Hr as ->. simpl. compute_done.
  - intros genre data r Hgenre. inversion Hgenre.
Defined.

Lemma stack_tracks_witness :
  ∃ stack, POST quietWorld (Resolved houseBody) = StackResponse stack ∧
           length (tracks stack) = length (survivingTracks quietWorld houseBody).
Proof.
  destruct houseBody_stack as (stack & Hstack). exists stack. split; [done |].
  destruct (stack_tracks quietWorld _ _ Hstack) as (body & tok & [= <-] & _ & Hall).
  symmetry. by eapply Forall2_length.
Defined.

End HandlerFacts.

(** ** The 1001 Tracklists stack route *)
Module SetStackFacts.
Import CreateStack SetStack MoreScenarios.

Lemma find_app {A} (p : A → bool) (l1 l2 : list A) :
  JS.find p (l1 ++ l2)
  = match JS.find p l1 with Some x => Some x | None => JS.find p l2 end.
Proof.
  induction l1 as [|x l1 IH]; simpl; [done |]. by destruct (p x).
Qed.

Section Handler.
Variable w : SetWorld.

(** The state of the duplicate-removal loop after a list of tracks. *)
Lemma dedup_loop (l : list StackTrack) :
  ∃ seen uniqueTracks,
    foldl (dedupStep w) ([], []) l = (seen, uniqueTracks) ∧
    seen = JS.firstOccurrences (dedupKey w <$> l) ∧
    dedupKey w <$> uniqueTracks = seen ∧
    sublist uniqueTracks l ∧
    ∀ t, t ∈ uniqueTracks → firstWithKey w (dedupKey w t) l = Some t.
Proof.
  induction l as [|x l IH] using rev_ind.
  - exists [], []. split_and!; try done. intros t Ht. inversion Ht.
  - destruct IH as (seen & uniq & Hfold & Hseen & Hkeys & Hsub & Hfirst).
    rewrite foldl_app, Hfold. simpl.
    unfold dedupStep, JSSet.has, JSSet.add, JS.push.
    assert (Hsnoc : JS.firstOccurrences (dedupKey w <$> l ++ [x])
                    = JS.firstOccurrences (dedupKey w <$> l)
                      ++ (if decide (dedupKey w x ∈ dedupKey w <$> l)
                          then [] else [dedupKey w x])).
    { rewrite fmap_app. apply JSFacts.firstOccurrences_snoc. }
    rewrite Hsnoc. clear Hsnoc.
    destruct (JS.includes seen (dedupKey w x)) eqn:Hin; simpl.
    + rewrite JSFacts.includes_elem_of, Hseen,
        JSFacts.elem_of_firstOccurrences in Hin.
      exists seen, uniq. split_and!; try done.
      * rewrite decide_True by done. by rewrite app_nil_r.
      * by apply sublist_inserts_r.
      * intros t Ht. unfold firstWithKey in *. by rewrite find_app, (Hfirst t Ht).
    + rewrite JSFacts.includes_false_iff, Hseen,
        JSFacts.elem_of_firstOccurrences in Hin.
      exists (seen ++ [dedupKey w x]), (uniq ++ [x]). split_and!; try done.
      * rewrite decide_False by done. by rewrite Hseen.
      * by rewrite fmap_app, Hkeys.
      * by apply sublist_app.
      * intros t [Ht | Ht]%elem_of_app; unfold firstWithKey in *.
        -- by rewrite find_app, (Hfirst t Ht).
        -- apply list_elem_of_singleton in Ht as ->. rewrite find_app.
           destruct (JS.find _ l) as [y|] eqn:Hfind.
           ++ apply JSFacts.find_Some in Hfind as (l1 & l2 & -> & Hy & _).
              apply String.eqb_eq in Hy. destruct Hin. rewrite <- Hy.
              apply list_elem_of_fmap. exists y. split; [done |].
              apply elem_of_app. right. by left.
           ++ simpl. by rewrite String.eqb_refl.
Qed.

(** X16. Removing duplicates keeps, for every key, the first track that has
    it: the result is a sublist of the tracks, no two of its tracks have the
    same key, its keys are the distinct keys of the tracks in the order of
    their first occurrences, and a track is kept exactly when it is the
    first track with its key. *)
Theorem removeDuplicates_first_wins (allTracks : list StackTrack) :
  let uniqueTracks := removeDuplicates w allTracks in
  sublist uniqueTracks allTracks ∧
  NoDup (dedupKey w <$> uniqueTracks) ∧
  dedupKey w <$> uniqueTracks = JS.firstOccurrences (dedupKey w <$> allTracks) ∧
  (∀ t, t ∈ uniqueTracks ↔
        t ∈ allTracks ∧ firstWithKey w (dedupKey w t) allTracks = Some t) ∧
  (∀ t, t ∈ allTracks →
        ∃ t', t' ∈ uniqueTracks ∧ dedupKey w t' = dedupKey w t).
Proof.
  intros uniqueTracks.
  destruct (dedup_loop allTracks) as (seen & uniq & Hfold & Hseen & Hkeys & Hsub & Hfirst).
  assert (uniqueTracks = uniq) as ->
    by (unfold uniqueTracks, removeDuplicates; by rewrite Hfold).
  assert (Hrep : ∀ t, t ∈ allTracks →
                      ∃ t', t' ∈ uniq ∧ dedupKey w t' = dedupKey w t).
  { intros t Ht.
    assert (Hk : dedupKey w t ∈ dedupKey w <$> uniq).
    { rewrite Hkeys, Hseen, JSFacts.elem_of_firstOccurrences.
      apply list_elem_of_fmap. by exists t. }
    apply list_elem_of_fmap in Hk as (t' & Hk & Ht'). by exists t'. }
  split_and!.
  - done.
  - rewrite Hkeys, Hseen. apply JSFacts.NoDup_firstOccurrences.
  - by rewrite Hkeys.
  - intros t. split.
    + intros Ht. split; [| by apply Hfirst].
      by eapply sublist_subseteq.
    + intros [Ht Hft]. destruct (Hrep t Ht) as (t' & Ht' & Hk).
      pose proof (Hfirst t' Ht') as Hft'. rewrite Hk, Hft in Hft'.
      by injection Hft' as ->.
  - done.
Qed.

(** *** The loop over the tracklists *)

Lemma foldl_push_indexed {A B} (g : nat → A → B) (l : list (nat * A)) acc :
  foldl (λ acc '(index, x), JS.push acc (g index x)) acc l
  = acc ++ ((λ '(index, x), g index x) <$> l).
Proof.
  revert acc. induction l as [|[i x] l IH]; intros acc; simpl.
  - by rewrite app_nil_r.
  - rewrite IH. unfold JS.push. by rewrite <- app_assoc.
Qed.

Lemma addTracklist_step artist tl allTracks sourceTracklists :
  addTracklist w artist (allTracks, sourceTracklists) tl
  = (allTracks ++ tracksOfTracklist w artist tl,
     sourceTracklists ++ option_list (usedTracklist w tl)).
Proof.
  unfold addTracklist, tracksOfTracklist, usedTracklist.
  destruct (fetchFullTracklist w (tl_url tl)) as [| |[tracks|]]; simpl;
    rewrite ?app_nil_r; try done.
  rewrite (foldl_push_indexed (stackTrack artist tl)).
  by rewrite fmap_imap.
Qed.

Lemma addTracklist_loop artist (unseen : list TracklistRef) allTracks sourceTracklists :
  foldl (addTracklist w artist) (allTracks, sourceTracklists) unseen
  = (allTracks ++ mjoin (tracksOfTracklist w artist <$> unseen),
     sourceTracklists ++ omap (usedTracklist w) unseen).
Proof.
  revert allTracks sourceTracklists.
  induction unseen as [|tl unseen IH]; intros allTracks sourceTracklists.
  - simpl. by rewrite !app_nil_r.
  - cbn [foldl]. rewrite addTracklist_step, IH, <- !app_assoc. f_equal.
    f_equal. simpl. by destruct (usedTracklist w tl).
Qed.

Lemma unseen_tracklists body tracklists :
  filter (λ tl, negb (JS.includes (sb_seenTracklists body) (tl_url tl))) tracklists
  = unseenTracklists body tracklists.
Proof. apply (CreateStackFacts.unseen_filter tl_url). Qed.

Lemma truthy_nonempty a : JS.truthy a = true ↔ a ≠ "".
Proof. destruct a; simpl; split; done. Qed.

(** The ways out of [buildSetStack]. *)
Lemma buildSetStack_outcome (body : SetBody) :
  (blankArtist w body ∧
   buildSetStack w body = Resolved (SetError 400 "Artist name is required")) ∨
  (¬ blankArtist w body ∧
   (∀ tracklists, searchTracklists w (sb_artist body) ≠ FetchOk (Some tracklists)) ∧
   buildSetStack w body = Rejected) ∨
  (∃ tracklists,
     ¬ blankArtist w body ∧
     searchTracklists w (sb_artist body) = FetchOk (Some tracklists) ∧
     ((unseenTracklists body tracklists = [] ∧
       buildSetStack w body
       = Resolved (SetError 404 "No new tracklists found for this artist")) ∨
      (unseenTracklists body tracklists ≠ [] ∧
       collectedSetTracks w body tracklists = [] ∧
       buildSetStack w body = Resolved (SetError 404 "No tracks found in tracklists")) ∨
      (∃ stack,
         unseenTracklists body tracklists ≠ [] ∧
         collectedSetTracks w body tracklists ≠ [] ∧
         set_tracks stack = removeDuplicates w (collectedSetTracks w body tracklists) ∧
         set_tracklists stack
           = omap (usedTracklist w) (unseenTracklists body tracklists) ∧
         set_stats stack
           = {| totalTracks := length (set_tracks stack);
                tracklistsUsed := length (set_tracklists stack);
                spotifyMatched :=
                  length (filter (λ t, is_Some (k_spotify t)) (set_tracks stack)) |} ∧
         set_artist stack = sb_artist body ∧
         buildSetStack w body = Resolved (SetStackResponse stack)))).
Proof.
  unfold buildSetStack, blankArtist.
  destruct (JS.truthy (sb_artist body)) eqn:Ha; simpl.
  2:{ left. split; [| done]. left. by destruct (sb_artist body). }
  destruct (JS.truthy (trim w (sb_artist body))) eqn:Ht; simpl.
  2:{ left. split; [| done]. right. by destruct (trim w (sb_artist body)). }
  right.
  assert (Hblank : ¬ (sb_artist body = "" ∨ trim w (sb_artist body) = "")).
  { apply truthy_nonempty in Ha, Ht. tauto. }
  destruct (searchTracklists w (sb_artist body)) as [| |[tracklists|]] eqn:Hsearch;
    try (left; split_and!; done).
  right. exists tracklists. split; [done |]. split; [done |].
  rewrite unseen_tracklists, addTracklist_loop. simpl.
  fold (collectedSetTracks w body tracklists).
  destruct (unseenTracklists body tracklists) as [|tl unseen] eqn:Hunseen.
  { left. done. }
  right. cbn [length Nat.eqb].
  destruct (collectedSetTracks w body tracklists) as [|t all] eqn:Hall.
  { left. done. }
  right. cbn [length Nat.eqb]. eexists. split; [done |]. split; [done |].
  split; [| split; [| split; [| split; [| reflexivity]]]]; reflexivity.
Qed.

Lemma length_omap_le {A B} (f : A → option B) (l : list A) :
  length (omap f l) ≤ length l.
Proof.
  induction l as [|x l IH]; csimpl; [done |].
  destruct (f x); csimpl; lia.
Qed.

Lemma POST_set_resolved (body : SetBody) :
  POST w (Resolved body)
  = catch (buildSetStack w body) (SetError 500 "Failed to create stack").
Proof. reflexivity. Qed.

(** X17. The answer of the 1001 Tracklists stack route, case by case: 400
    exactly when the artist is missing or blank; 500 exactly when the body
    cannot be read or the search does not answer with a list of tracklists;
    404 "No new tracklists" exactly when every tracklist of the search was
    seen (or there is none); 404 "No tracks found" exactly when there are
    unseen tracklists and none of them yields a track; a stack in every
    other case. *)
Theorem set_response_classification (request : Promise SetBody) :
  (POST w request = SetError 400 "Artist name is required" ↔
     ∃ body, request = Resolved body ∧ blankArtist w body) ∧
  (POST w request = SetError 500 "Failed to create stack" ↔
     request = Rejected ∨
     ∃ body, request = Resolved body ∧ ¬ blankArtist w body ∧
       ∀ tracklists, searchTracklists w (sb_artist body) ≠ FetchOk (Some tracklists)) ∧
  (POST w request = SetError 404 "No new tracklists found for this artist" ↔
     ∃ body tracklists,
       request = Resolved body ∧ ¬ blankArtist w body ∧
       searchTracklists w (sb_artist body) = FetchOk (Some tracklists) ∧
       unseenTracklists body tracklists = []) ∧
  (POST w request = SetError 404 "No tracks found in tracklists" ↔
     ∃ body tracklists,
       request = Resolved body ∧ ¬ blankArtist w body ∧
       searchTracklists w (sb_artist body) = FetchOk (Some tracklists) ∧
       unseenTracklists body tracklists ≠ [] ∧
       collectedSetTracks w body tracklists = []) ∧
  ((∃ stack, POST w request = SetStackResponse stack) ↔
     ∃ body tracklists,
       request = Resolved body ∧ ¬ blankArtist w body ∧
       searchTracklists w (sb_artist body) = FetchOk (Some tracklists) ∧
       unseenTracklists body tracklists ≠ [] ∧
       collectedSetTracks w body tracklists ≠ []).
Proof.
  destruct request as [body|]; [| split_and!; naive_solver].
  rewrite POST_set_resolved.
  destruct (buildSetStack_outcome body)
    as [(Hb & ->) | [(Hb & Hs & ->) | (tls & Hb & Hs &
         [(Hu & ->) | [(Hu & Hc & ->) | (stack & Hu & Hc & _ & _ & _ & _ & ->)]])]];
    cbn [catch].
  - split_and!; naive_solver.
  - split_and!; naive_solver.
  - split_and!; naive_solver congruence.
  - split_and!; naive_solver congruence.
  - split_and!; naive_solver congruence.
Qed.

(** X18. A stack answered by the route: its tracks are the tracks of the
    unseen tracklists that could be loaded, in order, with duplicates
    removed; every track comes from a tracklist of the search that the
    request had not seen and carries the uid "url-index" of its position in
    that tracklist; the stack has at least one track; [totalTracks] is the
    number of tracks, [spotifyMatched] is at most that, and [tracklistsUsed]
    is at most the number of unseen tracklists. *)
Theorem set_stack_contents (request : Promise SetBody) (stack : SetStackT) :
  POST w request = SetStackResponse stack →
  ∃ body tracklists,
    request = Resolved body ∧
    searchTracklists w (sb_artist body) = FetchOk (Some tracklists) ∧
    set_tracks stack = removeDuplicates w (collectedSetTracks w body tracklists) ∧
    (∀ t, t ∈ set_tracks stack →
       (k_tracklistUrl t ∉ sb_seenTracklists body) ∧
       ∃ tl tracks index raw,
         tl ∈ tracklists ∧ fetchFullTracklist w (tl_url tl) = FetchOk (Some tracks) ∧
         tracks !! index = Some raw ∧
         t = stackTrack (sb_artist body) tl index raw ∧
         k_uid t = tl_url tl +:+ "-" +:+ JS.numToString index) ∧
    1 ≤ totalTracks (set_stats stack) ∧
    totalTracks (set_stats stack) = length (set_tracks stack) ∧
    spotifyMatched (set_stats stack) ≤ totalTracks (set_stats stack) ∧
    tracklistsUsed (set_stats stack) = length (set_tracklists stack) ∧
    tracklistsUsed (set_stats stack) ≤ length (unseenTracklists body tracklists).
Proof.
  destruct request as [body|]; [| discriminate].
  rewrite POST_set_resolved. intros Hpost.
  destruct (buildSetStack_outcome body)
    as [(Hb & Hr) | [(Hb & Hs & Hr) | (tls & Hb & Hs &
         [(Hu & Hr) | [(Hu & Hc & Hr)
         | (stack' & Hu & Hc & Htracks & Hlists & Hstats & _ & Hr)]])]];
    rewrite Hr in Hpost; try discriminate.
  injection Hpost as ->.
  exists body, tls. split_and!; try done.
  - intros t Ht. rewrite Htracks in Ht.
    apply (sublist_subseteq _ _ (proj1 (removeDuplicates_first_wins _))) in Ht.
    unfold collectedSetTracks in Ht.
    apply list_elem_of_join in Ht as (l & Ht & Hl).
    apply list_elem_of_fmap in Hl as (tl & -> & Htl).
    apply list_elem_of_filter in Htl as [Hunseen Htl].
    unfold tracksOfTracklist in Ht.
    destruct (fetchFullTracklist w (tl_url tl)) as [| |[tracks|]] eqn:Hfetch;
      try by inversion Ht.
    apply elem_of_lookup_imap_1 in Ht as (index & raw & -> & Hraw).
    split; [done |]. by exists tl, tracks, index, raw.
  - rewrite Hstats. simpl. rewrite Htracks.
    destruct (collectedSetTracks w body tls) as [|t all] eqn:Hall; [done |].
    destruct (proj2 (proj2 (proj2 (proj2 (removeDuplicates_first_wins (t :: all)))))
                t (list_elem_of_here _ _)) as (t' & Ht' & _).
    destruct (removeDuplicates w (t :: all)); [inversion Ht' | simpl; lia].
  - by rewrite Hstats.
  - rewrite Hstats. simpl. apply length_filter.
  - by rewrite Hstats.
  - rewrite Hstats. simpl. rewrite Hlists. apply length_omap_le.
Qed.

End Handler.

Lemma removeDuplicates_first_wins_witness :
  let setB := mkTracklistRef "https://1001.tl/b" "Set B" None None in
  let allTracks := collectedSetTracks setWorld bonoboBody [setB] in
  ∃ t', t' ∈ removeDuplicates setWorld allTracks ∧
        dedupKey setWorld t'
        = dedupKey setWorld (stackTrack "Bonobo" setB 1
                               (mkSetTrack "02" "BONOBO" "kerala" None None)).
Proof.
  intros setB allTracks.
  destruct (removeDuplicates_first_wins setWorld allTracks) as (_ & _ & _ & _ & Hrep).
  apply Hrep. vm_compute. right. by left.
Defined.

Lemma setWorld_stack :
  ∃ stack, POST setWorld (Resolved bonoboBody) = SetStackResponse stack.
Proof. vm_compute. by eexists. Qed.

Lemma set_response_classification_witness :
  ∃ stack, POST setWorld (Resolved bonoboBody) = SetStackResponse stack.
Proof.
  destruct (set_response_classification setWorld (Resolved bonoboBody))
    as (_ & _ & _ & _ & Hstack).
  apply Hstack. eexists bonoboBody, _. split_and!.
  - done.
  - intros [H | H]; discriminate.
  - reflexivity.
  - by vm_compute.
  - by vm_compute.
Defined.

Lemma set_stack_contents_witness :
  ∃ stack, POST setWorld (Resolved bonoboBody) = SetStackResponse stack ∧
           1 ≤ totalTracks (set_stats stack) ∧
           spotifyMatched (set_stats stack) ≤ totalTracks (set_stats stack).
Proof.
  destruct setWorld_stack as (stack & Hstack). exists stack. split; [done |].
  destruct (set_stack_contents setWorld _ _ Hstack)
    as (body & tls & _ & _ & _ & _ & Hone & _ & Hmatched & _).
  by split.
Defined.

End SetStackFacts.

(** ** The interaction-tracking utilities *)
Module TrackingFacts.
Import Tracking.

Lemma add_includes s x y :
  JS.includes (JSSet.add s x) y = JS.includes s y || String.eqb x y.
Proof.
  unfold JSSet.add, JS.push.
  destruct (JS.includes s x) eqn:Hx.
  - destruct (String.eqb_spec x y) as [->|Hne]; [| by rewrite orb_false_r].
    by rewrite Hx.
  - destruct (JS.includes s y) eqn:Hy; simpl.
    + apply JSFacts.includes_elem_of, elem_of_app. left.
      by apply JSFacts.includes_elem_of.
    + destruct (String.eqb_spec x y) as [->|Hne].
      * apply JSFacts.includes_elem_of, elem_of_app. right. by left.
      * apply JSFacts.includes_false_iff. intros [H|H]%elem_of_app.
        -- by apply JSFacts.includes_false_iff in Hy.
        -- by apply list_elem_of_singleton in H.
Qed.

Lemma add_NoDup s x : NoDup s → NoDup (JSSet.add s x).
Proof.
  intros Hnd. unfold JSSet.add, JS.push.
  destruct (JS.includes s x) eqn:Hx; [done |].
  apply JSFacts.includes_false_iff in Hx.
  apply NoDup_app. split_and!; [done | | apply NoDup_singleton].
  intros y Hy Hy'. apply list_elem_of_singleton in Hy'. by subst.
Qed.

Lemma newSet_NoDup x : (∀ s, x = ASet s → NoDup s) → NoDup (newSet x).
Proof.
  destruct x as [l|s]; simpl; intros H.
  - rewrite StorageRestFacts.ofArray_firstOccurrences.
    apply JSFacts.NoDup_firstOccurrences.
  - by apply H.
Qed.

Lemma stored_set_NoDup item : NoDup (newSet (getStorageItem item)).
Proof.
  apply newSet_NoDup. intros s Hs.
  destruct item; simpl in Hs; try discriminate; injection Hs as <-; constructor.
Qed.

Lemma add_present s x : JS.includes s x = true → JSSet.add s x = s.
Proof. unfold JSSet.add. by intros ->. Qed.

Section Episodes.
Context {Episode : Type} (episodePath : Episode → string).

(** X19. After [markTracklistViewed] the path counts as viewed and no other
    path changes; the stored array has no duplicates, also when the item
    was corrupt or held duplicates before; marking a second time changes
    nothing; the other three items are not touched. *)
Theorem viewed_after_mark (path : string) (st : @TrackingStorage Episode) :
  let st' := markTracklistViewed path st in
  isTracklistViewed path st' = true ∧
  (∀ other, other ≠ path →
     isTracklistViewed other st' = isTracklistViewed other st) ∧
  (∃ viewed, VIEWED_TRACKLISTS st' = Value viewed ∧ NoDup viewed) ∧
  markTracklistViewed path st' = st' ∧
  PLAYED_TRACKS st' = PLAYED_TRACKS st ∧
  LIKED_EPISODES st' = LIKED_EPISODES st ∧
  LIKED_TRACKS st' = LIKED_TRACKS st.
Proof.
  intros st'.
  set (viewed := newSet (getStorageItem (VIEWED_TRACKLISTS st))).
  assert (Hnd : NoDup (JSSet.add viewed path))
    by apply add_NoDup, stored_set_NoDup.
  assert (Hagain : newSet (getStorageItem (VIEWED_TRACKLISTS st'))
                   = JSSet.add viewed path).
  { simpl. rewrite StorageRestFacts.ofArray_firstOccurrences.
    by apply StorageRestFacts.firstOccurrences_NoDup. }
  assert (Hpath : JS.includes (JSSet.add viewed path) path = true).
  { rewrite add_includes, String.eqb_refl. apply orb_true_r. }
  split_and!; try done.
  - unfold isTracklistViewed, JSSet.has. by rewrite Hagain.
  - intros other Hne. unfold isTracklistViewed, JSSet.has.
    rewrite Hagain, add_includes. fold viewed.
    destruct (String.eqb_spec path other); [congruence | apply orb_false_r].
  - by eexists.
  - unfold markTracklistViewed at 1. rewrite Hagain, (add_present _ _ Hpath). done.
Qed.


(** *** Liked episodes *)

Lemma existsb_path (path : string) (episodes : list Episode) :
  existsb (λ ep, String.eqb (episodePath ep) path) episodes = true ↔
  path ∈ episodePath <$> episodes.
Proof.
  induction episodes as [|ep episodes IH]; csimpl.
  - split; [discriminate | intros H; inversion H].
  - rewrite elem_of_cons, orb_true_iff, IH, String.eqb_eq.
    naive_solver.
Qed.

Lemma find_path_None (path : string) (episodes : list Episode) :
  JS.find (λ ep, String.eqb (episodePath ep) path) episodes = None ↔
  path ∉ episodePath <$> episodes.
Proof.
  rewrite JSFacts.find_None, Forall_forall, list_elem_of_fmap. split.
  - intros Hall (ep & -> & Hep). specialize (Hall ep Hep).
    by rewrite String.eqb_refl in Hall.
  - intros Hnot ep Hep. apply String.eqb_neq. intros Heq. apply Hnot.
    by exists ep.
Qed.

Lemma isEpisodeLiked_iff (path : string) (st : @TrackingStorage Episode) :
  isEpisodeLiked episodePath path st = true ↔
  path ∈ episodePath <$> getLikedEpisodes st.
Proof.
  unfold isEpisodeLiked, getLikedEpisodes.
  destruct (parsedOrEmpty (LIKED_EPISODES st)); [apply existsb_path |].
  split; [discriminate | intros H; inversion H].
Qed.

Lemma liked_after_like (episode : Episode) (st : @TrackingStorage Episode) :
  getLikedEpisodes (likeEpisode episodePath episode st)
  = match LIKED_EPISODES st with
    | Corrupt => []
    | _ => if isEpisodeLiked episodePath (episodePath episode) st
           then getLikedEpisodes st
           else episode :: getLikedEpisodes st
    end.
Proof.
  unfold likeEpisode, isEpisodeLiked, getLikedEpisodes.
  destruct (LIKED_EPISODES st) as [| |episodes] eqn:E; simpl; [done | by rewrite E |].
  destruct (JS.find _ episodes) as [ep|] eqn:Hfind.
  - rewrite E. simpl.
    destruct (existsb _ episodes) eqn:Hex; [done |].
    apply not_true_iff_false in Hex. rewrite existsb_path, <- find_path_None in Hex.
    congruence.
  - simpl. apply find_path_None in Hfind.
    destruct (existsb _ episodes) eqn:Hex; [| done].
    by apply existsb_path in Hex.
Qed.

Lemma liked_after_unlike (path : string) (st : @TrackingStorage Episode) :
  getLikedEpisodes (unlikeEpisode episodePath path st)
  = filter (λ ep, episodePath ep ≠ path) (getLikedEpisodes st).
Proof.
  unfold unlikeEpisode, getLikedEpisodes.
  destruct (LIKED_EPISODES st) as [| |episodes] eqn:E; simpl; try done.
  by rewrite E.
Qed.

(** X21. Liking an episode, when the liked-episodes item can be read: the
    episode's path is liked afterwards; whether another path is liked does
    not change; an episode whose path is not liked yet becomes the first of
    the list, one whose path is liked already changes nothing; paths that
    were pairwise distinct stay so. *)
Theorem liked_after_likeEpisode (episode : Episode) (st : @TrackingStorage Episode) :
  LIKED_EPISODES st ≠ Corrupt →
  let st' := likeEpisode episodePath episode st in
  isEpisodeLiked episodePath (episodePath episode) st' = true ∧
  (∀ other, other ≠ episodePath episode →
     isEpisodeLiked episodePath other st' = isEpisodeLiked episodePath other st) ∧
  (isEpisodeLiked episodePath (episodePath episode) st = false →
   getLikedEpisodes st' = episode :: getLikedEpisodes st) ∧
  (isEpisodeLiked episodePath (episodePath episode) st = true → st' = st) ∧
  (NoDup (episodePath <$> getLikedEpisodes st) →
   NoDup (episodePath <$> getLikedEpisodes st')).
Proof.
  intros Hok st'.
  assert (Hliked : getLikedEpisodes st'
                   = if isEpisodeLiked episodePath (episodePath episode) st
                     then getLikedEpisodes st
                     else episode :: getLikedEpisodes st).
  { unfold st'. rewrite liked_after_like. by destruct (LIKED_EPISODES st). }
  split_and!.
  - apply isEpisodeLiked_iff. rewrite Hliked.
    destruct (isEpisodeLiked _ _ st) eqn:Hl.
    + by apply isEpisodeLiked_iff.
    + rewrite fmap_cons. by left.
  - intros other Hne.
    apply eq_true_iff_eq. rewrite !isEpisodeLiked_iff, Hliked.
    destruct (isEpisodeLiked _ (episodePath episode) st); [done |].
    rewrite fmap_cons, elem_of_cons. naive_solver.
  - intros Hnot. by rewrite Hliked, Hnot.
  - intros Hyes. unfold st', likeEpisode.
    unfold isEpisodeLiked in Hyes.
    destruct (parsedOrEmpty (LIKED_EPISODES st)) as [episodes|]; [| done].
    destruct (JS.find _ episodes) eqn:Hfind; [done |].
    apply find_path_None in Hfind. by apply existsb_path in Hyes.
  - intros Hnd. rewrite Hliked.
    destruct (isEpisodeLiked _ _ st) eqn:Hl; [done |].
    rewrite fmap_cons. apply NoDup_cons. split; [| done].
    apply not_true_iff_false in Hl. by rewrite isEpisodeLiked_iff in Hl.
Qed.

(** X22. Unliking a path: no episode with that path is liked afterwards,
    the other liked episodes stay, in their order; and liking an episode
    whose path was not liked and then unliking that path gives back the
    liked episodes there were. *)
Theorem unlike_after_like (episode : Episode) (st : @TrackingStorage Episode) :
  (∀ path, isEpisodeLiked episodePath path (unlikeEpisode episodePath path st) = false) ∧
  (∀ path, getLikedEpisodes (unlikeEpisode episodePath path st)
           = filter (λ ep, episodePath ep ≠ path) (getLikedEpisodes st)) ∧
  (isEpisodeLiked episodePath (episodePath episode) st = false →
   getLikedEpisodes (unlikeEpisode episodePath (episodePath episode)
                       (likeEpisode episodePath episode st))
   = getLikedEpisodes st).
Proof.
  split_and!.
  - intros path. apply not_true_iff_false.
    rewrite isEpisodeLiked_iff, liked_after_unlike, list_elem_of_fmap.
    intros (ep & -> & Hep). by apply list_elem_of_filter in Hep as [? _].
  - intros path. apply liked_after_unlike.
  - intros Hnot. rewrite liked_after_unlike, liked_after_like, Hnot.
    assert (Hkeep : filter (λ ep, episodePath ep ≠ episodePath episode)
                           (getLikedEpisodes st) = getLikedEpisodes st).
    { apply StorageFacts.filter_all. intros ep Hep Heq.
      apply not_true_iff_false in Hnot. apply Hnot, isEpisodeLiked_iff.
      rewrite <- Heq. apply list_elem_of_fmap. by exists ep. }
    destruct (LIKED_EPISODES st) eqn:E.
    + by rewrite filter_cons_False, Hkeep by (by intros ?).
    + unfold getLikedEpisodes. by rewrite E.
    + by rewrite filter_cons_False, Hkeep by (by intros ?).
Qed.

(** X23. A liked-episodes item that cannot be parsed is never repaired:
    [likeEpisode] and [unlikeEpisode] leave the store as it is, no episode
    counts as liked and the list of liked episodes reads as empty. *)
Theorem corrupt_likes_stay_corrupt (st : @TrackingStorage Episode) :
  LIKED_EPISODES st = Corrupt →
  (∀ episode, likeEpisode episodePath episode st = st) ∧
  (∀ path, unlikeEpisode episodePath path st = st) ∧
  (∀ path, isEpisodeLiked episodePath path st = false) ∧
  getLikedEpisodes st = [] ∧
  (∀ episode, isEpisodeLiked episodePath (episodePath episode)
                             (likeEpisode episodePath episode st) = false).
Proof.
  intros Hc.
  assert (Hlike : ∀ episode, likeEpisode episodePath episode st = st)
    by (intros; unfold likeEpisode; by rewrite Hc).
  split_and!; try done.
  - intros path. unfold unlikeEpisode. by rewrite Hc.
  - intros path. unfold isEpisodeLiked. by rewrite Hc.
  - unfold getLikedEpisodes. by rewrite Hc.
  - intros episode. rewrite Hlike. unfold isEpisodeLiked. by rewrite Hc.
Qed.

(** *** Liked tracks *)

Lemma find_id_None (id : option string) (tracks : list LikedTrack) :
  JS.find (λ t, bool_decide (spotifyId t = id)) tracks = None ↔
  id ∉ spotifyId <$> tracks.
Proof.
  rewrite JSFacts.find_None, Forall_forall, list_elem_of_fmap. split.
  - intros Hall (t & -> & Ht). specialize (Hall t Ht).
    by rewrite bool_decide_eq_false in Hall.
  - intros Hnot t Ht. apply bool_decide_eq_false. intros Heq. apply Hnot.
    by exists t.
Qed.

(** X24. Liked tracks are told apart by their Spotify id, tracks without
    Spotify data counting as having one and the same id.  So
    [likeTrack] keeps the ids of the liked tracks pairwise distinct, a new
    id going to the front of the list; once a track without Spotify data is
    liked, liking another track without Spotify data changes nothing; and
    [unlikeTrack], which takes an id, never removes a track without Spotify
    data. *)
Theorem liked_tracks_by_spotify_id (track : LikedTrack) (st : @TrackingStorage Episode) :
  let st' := likeTrack track st in
  (NoDup (spotifyId <$> getLikedTracks st) →
   NoDup (spotifyId <$> getLikedTracks st')) ∧
  (LIKED_TRACKS st ≠ Corrupt → spotifyId track ∉ spotifyId <$> getLikedTracks st →
   getLikedTracks st' = track :: getLikedTracks st) ∧
  (spotifyId track ∈ spotifyId <$> getLikedTracks st → st' = st) ∧
  (lt_spotify track = None →
   (∃ t, t ∈ getLikedTracks st ∧ lt_spotify t = None) → st' = st) ∧
  (∀ id t, t ∈ getLikedTracks st → lt_spotify t = None →
           t ∈ getLikedTracks (unlikeTrack id st)).
Proof.
  intros st'.
  assert (Hin : spotifyId track ∈ spotifyId <$> getLikedTracks st → st' = st).
  { unfold st', likeTrack, getLikedTracks.
    destruct (parsedOrEmpty (LIKED_TRACKS st)) as [tracks|]; [| done].
    intros Hid. destruct (JS.find _ tracks) eqn:Hfind; [done |].
    by apply find_id_None in Hfind. }
  assert (Hnew : LIKED_TRACKS st ≠ Corrupt →
                 spotifyId track ∉ spotifyId <$> getLikedTracks st →
                 getLikedTracks st' = track :: getLikedTracks st).
  { unfold st', likeTrack, getLikedTracks. intros Hok Hid.
    destruct (LIKED_TRACKS st) as [| |tracks] eqn:E; simpl in *; try done.
    - by destruct track.
    - apply find_id_None in Hid. rewrite Hid. simpl. by destruct track. }
  split_and!; try done.
  - intros Hnd.
    destruct (decide (spotifyId track ∈ spotifyId <$> getLikedTracks st)) as [Hid|Hid].
    + by rewrite (Hin Hid).
    + destruct (LIKED_TRACKS st) as [| |tracks] eqn:E.
      * rewrite (Hnew ltac:(done) Hid), fmap_cons. by apply NoDup_cons.
      * unfold st', likeTrack. by rewrite E.
      * rewrite (Hnew ltac:(done) Hid), fmap_cons. by apply NoDup_cons.
  - intros Hnone (t & Ht & Htnone). apply Hin.
    apply list_elem_of_fmap. exists t. split; [| done].
    unfold spotifyId. by rewrite Hnone, Htnone.
  - intros id t Ht Hnone. unfold unlikeTrack, getLikedTracks in *.
    destruct (parsedOrEmpty (LIKED_TRACKS st)) as [tracks|] eqn:E; simpl.
    + apply list_elem_of_filter. split; [| done].
      unfold spotifyId. by rewrite Hnone.
    + by rewrite E.
Qed.

End Episodes.

Lemma viewed_after_mark_witness :
  isTracklistViewed "/b" (markTracklistViewed "/b" MoreScenarios.likedStore) = true ∧
  isTracklistViewed "/c" (markTracklistViewed "/b" MoreScenarios.likedStore)
  = isTracklistViewed "/c" MoreScenarios.likedStore.
Proof.
  destruct (viewed_after_mark "/b" MoreScenarios.likedStore)
    as (Hviewed & Hother & _).
  split; [exact Hviewed | by apply Hother].
Defined.

Lemma liked_after_likeEpisode_witness :
  getLikedEpisodes (likeEpisode fst ("/b", "B") MoreScenarios.likedStore)
  = ("/b", "B") :: getLikedEpisodes MoreScenarios.likedStore.
Proof.
  destruct (liked_after_likeEpisode fst ("/b", "B") MoreScenarios.likedStore)
    as (_ & _ & Hnew & _); [done |].
  by apply Hnew.
Defined.

Lemma unlike_after_like_witness :
  getLikedEpisodes (unlikeEpisode fst "/b"
                      (likeEpisode fst ("/b", "B") MoreScenarios.likedStore))
  = getLikedEpisodes MoreScenarios.likedStore.
Proof.
  destruct (unlike_after_like fst ("/b", "B") MoreScenarios.likedStore)
    as (_ & _ & Hback).
  by apply Hback.
Defined.

Lemma corrupt_likes_stay_corrupt_witness :
  likeEpisode fst ("/b", "B") MoreScenarios.corruptStore = MoreScenarios.corruptStore.
Proof.
  destruct (corrupt_likes_stay_corrupt fst MoreScenarios.corruptStore)
    as (Hlike & _); [done |].
  apply Hlike.
Defined.

Lemma liked_tracks_by_spotify_id_witness :
  likeTrack (mkLikedTrack "Other" "B" None) MoreScenarios.likedStore
  = MoreScenarios.likedStore.
Proof.
  destruct (liked_tracks_by_spotify_id (mkLikedTrack "Other" "B" None)
                                       MoreScenarios.likedStore)
    as (_ & _ & _ & Hnone & _).
  apply Hnone; [done |].
  exists (mkLikedTrack "T" "A" None). split; [| done]. simpl. set_solver.
Defined.

End TrackingFacts.

(** ** The file cache *)
Module CacheFacts.
Import Cache.

Lemma length_append (s t : string) :
  String.length (s +:+ t) = String.length s + String.length t.
Proof. induction s as [|c s IH]; simpl; [done | by rewrite IH]. Qed.

Lemma append_inj_r (t s1 s2 : string) : s1 +:+ t = s2 +:+ t → s1 = s2.
Proof.
  revert s2. induction s1 as [|c s1 IH]; intros [|c' s2] H.
  - done.
  - apply (f_equal String.length) in H.
    rewrite !length_append in H. simpl in H. lia.
  - apply (f_equal String.length) in H.
    rewrite !length_append in H. simpl in H. lia.
  - simpl in H. injection H as -> H. f_equal. by apply IH.
Qed.

(** X25. The sanitised key has the length of the key and only letters,
    digits, [-] and [_]; sanitising is idempotent, and it leaves a key
    unchanged exactly when every character of the key is one of those. *)
Theorem safeKey_sanitises (key : string) :
  String.length (safeKey key) = String.length key ∧
  allSafe (safeKey key) = true ∧
  safeKey (safeKey key) = safeKey key ∧
  (safeKey key = key ↔ allSafe key = true).
Proof.
  induction key as [|c key (Hlen & Hsafe & Hidem & Hid)]; [done |].
  simpl. destruct (isSafeChar c) eqn:Hc; simpl.
  - rewrite Hc, Hlen, Hsafe, Hidem. split_and!; try done.
    rewrite <- Hid. split; [by intros [= ?] | by intros ->].
  - rewrite Hlen, Hsafe, Hidem. split_and!; try done.
    split; [| done]. intros [= Hu _]. rewrite <- Hu in Hc. discriminate.
Qed.

Section Files.
Context {Data : Type} (pathJoin : string → string → string) (CACHE_DIR : string).

Lemma getCacheFilePath_path key subDir (fs : @FileSystem Data) :
  (getCacheFilePath pathJoin CACHE_DIR key subDir fs).1
  = cacheFile pathJoin CACHE_DIR key subDir.
Proof.
  unfold getCacheFilePath, ensureCacheDir, cacheFile, dirOf.
  by destruct (fs !! _).
Qed.

Lemma readFile_ensure key subDir (fs : @FileSystem Data) path :
  readFile path (getCacheFilePath pathJoin CACHE_DIR key subDir fs).2
  = readFile path fs.
Proof.
  unfold getCacheFilePath, ensureCacheDir, readFile, FileSystem in *.
  generalize (if JS.truthy subDir then pathJoin CACHE_DIR subDir else CACHE_DIR).
  intros dir. destruct (fs !! dir) eqn:E; simpl; [done |].
  destruct (decide (path.1 = dir)) as [Heq|Hne].
  - rewrite Heq, lookup_insert_eq, E. simpl. by rewrite lookup_empty.
  - by rewrite lookup_insert_ne.
Qed.

Lemma readFile_write path content (fs : @FileSystem Data) other :
  readFile other (writeFile path content fs)
  = if decide (other = path) then Some content else readFile other fs.
Proof.
  unfold readFile, writeFile, FileSystem in *.
  destruct path as [dir name], other as [dir' name'].
  simpl. destruct (decide (dir' = dir)) as [->|Hdir].
  - rewrite lookup_insert_eq. simpl.
    destruct (decide (name' = name)) as [->|Hname].
    + rewrite lookup_insert_eq. by rewrite decide_True.
    + rewrite lookup_insert_ne by done. rewrite decide_False by congruence.
      destruct (fs !! dir); simpl; [done | by rewrite lookup_empty].
  - rewrite lookup_insert_ne by done. by rewrite decide_False by congruence.
Qed.

Lemma readFile_unlink path (fs : @FileSystem Data) :
  readFile path (unlink path fs) = None.
Proof.
  unfold readFile, unlink, FileSystem in *. destruct (fs !! path.1) eqn:E; simpl.
  - rewrite lookup_insert_eq. simpl. apply lookup_delete_eq.
  - by rewrite E.
Qed.

(** What [getCachedData] answers, by the file of the key. *)
Lemma getCachedData_answer now key ttlHours subDir (fs : @FileSystem Data) :
  (getCachedData pathJoin CACHE_DIR now key ttlHours subDir fs).1
  = match readFile (cacheFile pathJoin CACHE_DIR key subDir) fs with
    | Some (EntryJson cached) =>
        if (ttlHours * 60 * 60 * 1000 <? now - timestamp cached)%Z
        then None else Some (data cached)
    | _ => None
    end.
Proof.
  unfold getCachedData.
  pose proof (getCacheFilePath_path key subDir fs) as Hpath.
  pose proof (readFile_ensure key subDir fs) as Hread.
  destruct (getCacheFilePath pathJoin CACHE_DIR key subDir fs) as [filePath fs'].
  simpl in *. subst filePath. rewrite Hread.
  destruct (readFile _ fs) as [[|cached]|]; try done.
  by destruct (_ <? _)%Z.
Qed.

Lemma readFile_after_get now key ttlHours subDir (fs : @FileSystem Data) :
  (getCachedData pathJoin CACHE_DIR now key ttlHours subDir fs).1 = None →
  match readFile (cacheFile pathJoin CACHE_DIR key subDir) fs with
  | Some (EntryJson _) =>
      readFile (cacheFile pathJoin CACHE_DIR key subDir)
               (getCachedData pathJoin CACHE_DIR now key ttlHours subDir fs).2 = None
  | _ => True
  end.
Proof.
  unfold getCachedData.
  pose proof (getCacheFilePath_path key subDir fs) as Hpath.
  pose proof (readFile_ensure key subDir fs) as Hread.
  destruct (getCacheFilePath pathJoin CACHE_DIR key subDir fs) as [filePath fs'].
  simpl in *. subst filePath. rewrite Hread.
  destruct (readFile _ fs) as [[|cached]|]; try done.
  destruct (_ <? _)%Z; simpl; [| done]. intros _. apply readFile_unlink.
Qed.

Lemma readFile_after_set now key d subDir (fs : @FileSystem Data) other :
  readFile other (setCachedData pathJoin CACHE_DIR now key d subDir fs)
  = if decide (other = cacheFile pathJoin CACHE_DIR key subDir)
    then Some (EntryJson {| timestamp := now; data := d |})
    else readFile other fs.
Proof.
  unfold setCachedData.
  pose proof (getCacheFilePath_path key subDir fs) as Hpath.
  pose proof (readFile_ensure key subDir fs other) as Hread.
  destruct (getCacheFilePath pathJoin CACHE_DIR key subDir fs) as [filePath fs'].
  simpl in *. subst filePath. by rewrite readFile_write, Hread.
Qed.

(** X26. What was cached is read back until it expires: data stored at the
    time [t0] is returned at the time [t1] as long as [t1 - t0] is at most
    the time to live (in hours, times in milliseconds); once it is more, the
    read answers null and deletes the file, so that every later read
    answers null as well, whatever its time to live. *)
Theorem cache_round_trip (t0 t1 ttlHours : Z) (key subDir : string) (d : Data)
    (fs : @FileSystem Data) :
  let fs1 := setCachedData pathJoin CACHE_DIR t0 key d subDir fs in
  let read := getCachedData pathJoin CACHE_DIR t1 key ttlHours subDir fs1 in
  ((t1 - t0 ≤ ttlHours * 3600000)%Z → read.1 = Some d) ∧
  ((ttlHours * 3600000 < t1 - t0)%Z →
   read.1 = None ∧
   ∀ t2 ttlHours2,
     (getCachedData pathJoin CACHE_DIR t2 key ttlHours2 subDir read.2).1 = None).
Proof.
  intros fs1 read.
  assert (Hfile : readFile (cacheFile pathJoin CACHE_DIR key subDir) fs1
                  = Some (EntryJson {| timestamp := t0; data := d |})).
  { unfold fs1. rewrite readFile_after_set. by rewrite decide_True. }
  assert (Hread : read.1 = if (ttlHours * 60 * 60 * 1000 <? t1 - t0)%Z
                           then None else Some d).
  { unfold read. by rewrite getCachedData_answer, Hfile. }
  split.
  - intros Hfresh. rewrite Hread.
    destruct (Z.ltb_spec (ttlHours * 60 * 60 * 1000) (t1 - t0)); [lia | done].
  - intros Hexpired.
    assert (Hnone : read.1 = None).
    { rewrite Hread.
      destruct (Z.ltb_spec (ttlHours * 60 * 60 * 1000) (t1 - t0)); [done | lia]. }
    split; [done |]. intros t2 ttlHours2.
    pose proof (readFile_after_get t1 key ttlHours subDir fs1 Hnone) as Hgone.
    rewrite Hfile in Hgone. fold read in Hgone.
    by rewrite getCachedData_answer, Hgone.
Qed.

(** X27. Within a directory the cache tells keys apart by their sanitised
    form only: after a write under one key, a read under a key with the same
    sanitised form finds that entry, and a read under a key with another
    sanitised form answers what it answered before the write. *)
Theorem cache_keys (t0 t1 ttlHours : Z) (key key' subDir : string) (d : Data)
    (fs : @FileSystem Data) :
  let fs1 := setCachedData pathJoin CACHE_DIR t0 key d subDir fs in
  (safeKey key' = safeKey key → (t1 - t0 ≤ ttlHours * 3600000)%Z →
   (getCachedData pathJoin CACHE_DIR t1 key' ttlHours subDir fs1).1 = Some d) ∧
  (safeKey key' ≠ safeKey key →
   (getCachedData pathJoin CACHE_DIR t1 key' ttlHours subDir fs1).1
   = (getCachedData pathJoin CACHE_DIR t1 key' ttlHours subDir fs).1).
Proof.
  intros fs1. split.
  - intros Hsame Hfresh. rewrite getCachedData_answer.
    unfold fs1. rewrite readFile_after_set.
    rewrite decide_True by (unfold cacheFile; by rewrite Hsame). simpl.
    destruct (Z.ltb_spec (ttlHours * 60 * 60 * 1000) (t1 - t0)); [lia | done].
  - intros Hother. rewrite !getCachedData_answer.
    unfold fs1. rewrite readFile_after_set.
    rewrite decide_False; [done |].
    unfold cacheFile. intros [= Hname]. apply Hother.
    by apply append_inj_r in Hname.
Qed.

(** X28. A cache file that is not JSON reads as a miss and is kept: the
    read answers null and the file is still there, unreadable, for every
    later read; a write under the key replaces it. *)
Theorem unreadable_cache_file (now ttlHours : Z) (key subDir : string)
    (fs : @FileSystem Data) :
  readFile (cacheFile pathJoin CACHE_DIR key subDir) fs = Some NotJson →
  let read := getCachedData pathJoin CACHE_DIR now key ttlHours subDir fs in
  read.1 = None ∧
  readFile (cacheFile pathJoin CACHE_DIR key subDir) read.2 = Some NotJson ∧
  (∀ t d,
     (getCachedData pathJoin CACHE_DIR now key ttlHours subDir
        (setCachedData pathJoin CACHE_DIR t key d subDir read.2)).1
     = if (ttlHours * 3600000 <? now - t)%Z then None else Some d).
Proof.
  intros Hbad read. split_and!.
  - unfold read. by rewrite getCachedData_answer, Hbad.
  - unfold read, getCachedData.
    pose proof (getCacheFilePath_path key subDir fs) as Hpath.
    pose proof (readFile_ensure key subDir fs) as Hread.
    destruct (getCacheFilePath pathJoin CACHE_DIR key subDir fs) as [filePath fs'].
    simpl in *. subst filePath. rewrite Hread, Hbad. simpl. by rewrite Hread.
  - intros t d. rewrite getCachedData_answer, readFile_after_set.
    rewrite decide_True by done. simpl.
    by replace (ttlHours * 60 * 60 * 1000)%Z with (ttlHours * 3600000)%Z by lia.
Qed.

End Files.

Lemma cache_round_trip_witness :
  (getCachedData MoreScenarios.joinPath ".cache" 3600000 "a/b" 1 "tracklists"
     (setCachedData MoreScenarios.joinPath ".cache" 0 "a/b" "data" "tracklists" ∅)).1
  = Some "data" ∧
  (getCachedData MoreScenarios.joinPath ".cache" 3600001 "a/b" 1 "tracklists"
     (setCachedData MoreScenarios.joinPath ".cache" 0 "a/b" "data" "tracklists" ∅)).1
  = None.
Proof.
  split.
  - apply (cache_round_trip MoreScenarios.joinPath ".cache" 0 3600000 1
             "a/b" "tracklists" "data" ∅). lia.
  - apply (cache_round_trip MoreScenarios.joinPath ".cache" 0 3600001 1
             "a/b" "tracklists" "data" ∅). lia.
Defined.

Lemma cache_keys_witness :
  (getCachedData MoreScenarios.joinPath ".cache" 10 "a b" 1 "tracklists"
     (setCachedData MoreScenarios.joinPath ".cache" 0 "a/b" "data" "tracklists" ∅)).1
  = Some "data".
Proof.
  apply (cache_keys MoreScenarios.joinPath ".cache" 0 10 1 "a/b" "a b"
           "tracklists" "data" ∅); [reflexivity | lia].
Defined.

Lemma unreadable_cache_file_witness :
  (getCachedData MoreScenarios.joinPath ".cache" 10 "k" 1 "" MoreScenarios.brokenFiles).1
  = None.
Proof.
  apply (unreadable_cache_file MoreScenarios.joinPath ".cache" 10 1 "k" ""
           MoreScenarios.brokenFiles).
  vm_compute. reflexivity.
Defined.

End CacheFacts.

(** ** The NTS track search route *)
Module NtsSearchFacts.
Import CreateStack NtsSearch.

Lemma sort_ext {A} (cmp cmp' : A → A → Z) l :
  (∀ a b, cmp a b = cmp' a b) → JS.sort cmp l = JS.sort cmp' l.
Proof.
  intros Hcmp. induction l as [|x l IH]; simpl; [done |]. rewrite IH.
  generalize (JS.sort cmp' l). intros sorted.
  induction sorted as [|y sorted IHs]; simpl; [done |].
  by rewrite Hcmp, IHs.
Qed.

(** The pages after the first: page 1 when the count is above 60, none
    otherwise. *)
Lemma pages_of_count n :
  seq 1 (ceilDiv n limit `min` maxPages - 1) = if 60 <? n then [1] else [].
Proof.
  unfold ceilDiv, limit. change maxPages with 2.
  generalize (Nat.div_le_lower_bound (n + 60 - 1) 60 2).
  generalize (Nat.Div0.div_lt_upper_bound (n + 60 - 1) 60 2).
  generalize ((n + 60 - 1) / 60). intros pages Hupper Hlower.
  destruct (Nat.ltb_spec 60 n) as [Hmany|Hfew].
  - by replace (pages `min` 2 - 1) with 1 by lia.
  - by replace (pages `min` 2 - 1) with 0 by lia.
Qed.

Lemma truncated_of_count n : (maxPages <? ceilDiv n limit) = (120 <? n).
Proof.
  unfold ceilDiv, limit. change maxPages with 2.
  generalize (Nat.div_le_lower_bound (n + 60 - 1) 60 3).
  generalize (Nat.Div0.div_lt_upper_bound (n + 60 - 1) 60 3).
  generalize ((n + 60 - 1) / 60). intros pages Hupper Hlower.
  destruct (Nat.ltb_spec 120 n) as [Hmany|Hfew].
  - apply Nat.ltb_lt. lia.
  - apply Nat.ltb_ge. lia.
Qed.

Section Route.
Context {GenreTag : Type}.
Implicit Types w : @SearchWorld GenreTag.

(** The search, by what it reads. *)
Lemma search_fetched w query :
  search w query
  = match fetchedResults w query with
    | Some (n, fetched) => Resolved (respond w n (120 <? n) fetched)
    | None => Rejected
    end.
Proof.
  unfold search, fetchedResults.
  destruct (ntsPage w query 0) as [|[|] [first|]]; try done.
  rewrite pages_of_count, truncated_of_count.
  destruct (60 <? pd_count first) eqn:Hmany; [| done].
  simpl. unfold pagePromise, pageBody. change (1 * limit) with 60.
  by destruct (ntsPage w query 60) as [|ok [second|]].
Qed.

Lemma respond_agree w w' n truncated results :
  (∀ s, searchParseDate w s = searchParseDate w' s) →
  respond w n truncated results = respond w' n truncated results.
Proof.
  intros Hdate. unfold respond.
  assert (Hsort : JS.sort (compareDates w) results = JS.sort (compareDates w') results).
  { apply sort_ext. intros a b. unfold compareDates. by rewrite !Hdate. }
  by rewrite Hsort.
Qed.

(** X29. The handler reads the search at the offsets 0 and 60 and nowhere
    else, and at the offset 0 only when the first page counts at most 60
    results: two services that answer alike there get the same response. *)
Theorem search_reads_two_pages w w' (artist title : string) :
  let query := queryOf artist title in
  (agreeOn [0; 60] query w w' → GET w artist title = GET w' artist title) ∧
  (agreeOn [0] query w w' →
   (∀ first, ntsPage w query 0 = PageResponse true (Some first) →
             pd_count first ≤ 60) →
   GET w artist title = GET w' artist title).
Proof.
  intros query.
  assert (Hsame : ∀ offsets, agreeOn offsets query w w' → 0 ∈ offsets →
            (∀ first, ntsPage w query 0 = PageResponse true (Some first) →
                      60 < pd_count first → 60 ∈ offsets) →
            GET w artist title = GET w' artist title).
  { intros offsets (Hdate & Htrim & Hpage) H0 H60. unfold GET. fold query.
    rewrite Htrim, !search_fetched. unfold fetchedResults, pageBody.
    rewrite <- (Hpage 0 H0).
    destruct (ntsPage w query 0) as [|[|] [first|]] eqn:Hfirst; try done.
    destruct (Nat.ltb_spec 60 (pd_count first)) as [Hmany|Hfew].
    - rewrite <- (Hpage 60 (H60 first eq_refl Hmany)).
      destruct (ntsPage w query 60) as [|ok [second|]]; simpl; try done.
      by rewrite (respond_agree w w').
    - by rewrite (respond_agree w w'). }
  split.
  - intros Hagree. apply (Hsame [0; 60] Hagree); set_solver.
  - intros Hagree Hfew. apply (Hsame [0] Hagree); [set_solver |].
    intros first Hfirst Hmany. specialize (Hfew first Hfirst). lia.
Qed.

Lemma respond_sorted w n truncated results body :
  respond w n truncated results = SearchOk body →
  (∀ r, r ∈ results → is_Some (searchParseDate w (sr_local_date r))) →
  StronglySorted (hitNewestFirst w) (sb_episodes body).
Proof.
  unfold respond. destruct (length _ =? 0); [done |]. intros [= <-] Hvalid. simpl.
  pose (key := λ r : @SearchResult GenreTag,
                 default 0%Z (searchParseDate w (sr_local_date r))).
  assert (Hall : Forall (λ r, is_Some (searchParseDate w (sr_local_date r)))
                   (JS.sort (compareDates w) results)).
  { apply Forall_forall. intros r Hr. apply Hvalid. by apply JSFacts.elem_of_sort in Hr. }
  assert (Hsorted : StronglySorted (λ a b, (key b ≤ key a)%Z)
                      (JS.sort (compareDates w) results)).
  { apply JSFacts.sort_sorted_by_key. intros a b Ha Hb.
    destruct (Hvalid a Ha) as [ta Hta], (Hvalid b Hb) as [tb Htb].
    unfold key, compareDates. by rewrite Hta, Htb. }
  induction Hsorted as [|r sorted Hsorted IH Hr]; csimpl; [constructor |].
  apply Forall_cons in Hall as [[tr Htr] Hall].
  constructor; [by apply IH |].
  apply Forall_fmap, Forall_forall. intros r' Hr'.
  rewrite Forall_forall in Hr, Hall.
  destruct (Hall r' Hr') as [tr' Htr']. specialize (Hr r' Hr').
  unfold key in Hr. rewrite Htr, Htr' in Hr. simpl in Hr.
  by exists tr, tr'.
Qed.

(** X30. The response to an accepted request, by what the search reads:
    500 when a page it reads is not usable, 404 when the pages hold no
    result, and otherwise the episodes of all results read, as many as there
    are and newest first when their dates are valid, with the count of the
    first page as the total available; the response is marked truncated,
    with a message, exactly when that count is above 120; and when no page
    holds more than 60 results the episodes are at most 120. *)
Theorem search_response w (artist title : string) :
  accepted w artist title →
  let query := queryOf artist title in
  match fetchedResults w query with
  | None => GET w artist title = SearchError 500 "Failed to fetch from NTS API"
  | Some (n, []) =>
      GET w artist title = SearchError 404 "No episodes found for this track"
  | Some (n, fetched) =>
      ∃ body, GET w artist title = SearchOk body ∧
        sb_episodes body ≡ₚ toEpisode <$> fetched ∧
        sb_total body = length fetched ∧
        sb_totalAvailable body = n ∧
        sb_truncated body = bool_decide (120 < n) ∧
        (sb_message body = None ↔ n ≤ 120) ∧
        ((∀ r, r ∈ fetched → is_Some (searchParseDate w (sr_local_date r))) →
         StronglySorted (hitNewestFirst w) (sb_episodes body)) ∧
        ((∀ offset page, pageBody w query offset = Some page →
                         length (pd_results page) ≤ 60) →
         sb_total body ≤ 120)
  end.
Proof.
  intros [Hgiven Hlong] query.
  assert (HGET : GET w artist title
                 = catch (search w query)
                         (SearchError 500 "Failed to fetch from NTS API")).
  { unfold GET.
    assert (Hboth : negb (JS.truthy artist) && negb (JS.truthy title) = false)
      by (destruct Hgiven as [-> | ->]; [done | apply andb_false_r]).
    assert (Hlen : (String.length (searchTrim w (queryOf artist title)) <? 2) = false)
      by (by apply Nat.ltb_ge).
    by rewrite Hboth, Hlen. }
  rewrite HGET, search_fetched.
  destruct (fetchedResults w query) as [[n fetched]|] eqn:Hfetched; [| done].
  destruct fetched as [|r fetched]; [done |].
  assert (Hsome : length (r :: fetched) ≠ 0) by done.
  remember (r :: fetched) as results eqn:Hresults. clear Hresults. cbn [catch].
  destruct (respond w n (120 <? n) results) as [status error|body] eqn:Hrespond.
  { exfalso. unfold respond in Hrespond.
    assert ((length (JS.sort (compareDates w) results) =? 0) = false) as Hlen.
    { apply Nat.eqb_neq. by rewrite JSFacts.sort_Permutation. }
    by rewrite Hlen in Hrespond. }
  clear Hsome.
  exists body. split; [done |].
  pose proof (respond_sorted w n _ results body Hrespond) as Hsorted.
  unfold respond in Hrespond.
  destruct (length _ =? 0); [done |]. injection Hrespond as <-.
  cbn [sb_episodes sb_total sb_truncated sb_totalAvailable sb_message].
  split_and!; try done.
  - by rewrite JSFacts.sort_Permutation.
  - by rewrite JSFacts.sort_Permutation.
  - destruct (Nat.ltb_spec 120 n).
    + by rewrite bool_decide_eq_true_2.
    + by rewrite bool_decide_eq_false_2 by lia.
  - destruct (Nat.ltb_spec 120 n); split; try done; lia.
  - intros Hpages. rewrite JSFacts.sort_Permutation.
    unfold fetchedResults in Hfetched.
    destruct (ntsPage w query 0) as [|[|] [first|]] eqn:Hfirst; try done.
    assert (length (pd_results first) ≤ 60) as Hlen0.
    { apply (Hpages 0). unfold pageBody. by rewrite Hfirst. }
    destruct (60 <? pd_count first).
    + destruct (pageBody w query 60) as [second|] eqn:Hsecond; [| done].
      simpl in Hfetched. injection Hfetched as _ <-.
      rewrite length_app. specialize (Hpages 60 second Hsecond). lia.
    + injection Hfetched as _ <-. lia.
Qed.

End Route.

Lemma search_reads_two_pages_witness :
  GET MoreScenarios.broadSearch "Bonobo" "Kerala"
  = GET MoreScenarios.broadSearchBeyond "Bonobo" "Kerala".
Proof.
  destruct (search_reads_two_pages MoreScenarios.broadSearch
              MoreScenarios.broadSearchBeyond "Bonobo" "Kerala") as [Hsame _].
  apply Hsame. split_and!; try done.
  intros offset Hoffset.
  apply elem_of_cons in Hoffset as [-> | Hoffset]; [done |].
  apply elem_of_cons in Hoffset as [-> | Hoffset]; [done |].
  by apply elem_of_nil in Hoffset.
Defined.

Lemma search_response_witness :
  ∃ body, GET MoreScenarios.broadSearch "Bonobo" "Kerala" = SearchOk body ∧
          sb_total body = 120 ∧ sb_truncated body = true.
Proof.
  assert (Haccepted : accepted MoreScenarios.broadSearch "Bonobo" "Kerala")
    by (split; [by left | simpl; lia]).
  pose proof (search_response MoreScenarios.broadSearch "Bonobo" "Kerala" Haccepted)
    as Hresponse.
  assert (Hfetched : fetchedResults MoreScenarios.broadSearch (queryOf "Bonobo" "Kerala")
                     = Some (500, MoreScenarios.keralaHit
                                  :: replicate 119 MoreScenarios.keralaHit))
    by (vm_compute; reflexivity).
  cbv zeta in Hresponse. rewrite Hfetched in Hresponse.
  destruct Hresponse as (body & HGET & _ & Htotal & _ & Htruncated & _).
  exists body. split_and!; [done | by rewrite Htotal | by rewrite Htruncated].
Defined.

End NtsSearchFacts.
